(** * apivalidation: validation traversal, rule binding and schema description

    A shallow embedding of the reflection-driven engine of the Go package
    [github.com/Gobd/apivalidation] and of the rules it ships, together with
    the properties its specification states about them.

    Conventions of the embedding.
    - A Go [any] / [reflect.Value] is a finite tree.  A pointer carries the
      value it points to, so data with pointer cycles is outside the model
      (the traversals of the package do not guard against cycles either).
    - Go's [error] results are [option]s: [None] is the nil error.  A
      run-time panic is a result of its own ([Panic]).
    - Go maps are [gmap]s where only lookups matter, and lists of entries
      where the iteration order or the mutation of entries matters.
    - Code of the libraries the package builds on (ozzo-validation,
      kin-openapi, [fmt], [strconv]) is not part of the package: it enters
      as section variables, or as a definition marked as modelled from the
      specification.

    The file has two parts: the embedding (definitions), then the
    properties (theorems). *)

From Stdlib Require Import ZArith List String Ascii Bool Lia.
From Stdlib Require Import DecimalString DecimalNat DecimalZ.
From stdpp Require Import gmap strings list sorting.

Set Warnings "-register-all,-clear-no-such-hyp".
Local Open Scope string_scope.
Local Open Scope list_scope.
Local Open Scope Z_scope.

(** * Part I: the embedding *)

(** ** The [reflect] vocabulary used by the package *)

Module reflect.

(** [reflect.Kind], in the order of the Go declaration. *)
Inductive Kind : Set :=
| Invalid | Bool | Int | Int8 | Int16 | Int32 | Int64
| Uint | Uint8 | Uint16 | Uint32 | Uint64 | Uintptr
| Float32 | Float64 | Complex64 | Complex128
| Array | Chan | Func | Interface | Map | Ptr | Slice | String | Struct
| UnsafePointer.

#[global] Instance Kind_eq_dec : EqDecision Kind.
Proof. solve_decision. Defined.

End reflect.

Export reflect.

(** Go's [error]: a message, as built by [errors.New] and [fmt.Errorf]. *)
Definition error := string.

(** What a call yields: it returns, or the Go run time panics. *)
Inductive result (A : Type) : Type :=
| Return (a : A)
| Panic.
Arguments Return {A} a.
Arguments Panic {A}.

(** Sequencing: a panic ends the computation ([x ← r; k] below). *)
#[global] Instance result_bind : MBind result :=
  fun A B (k : A -> result B) (r : result A) =>
    match r with
    | Return a => k a
    | Panic => Panic
    end.

(** ** Plain dynamic values, as the rules inspect them *)

Module value.

Inductive intKind := I | I8 | I16 | I32 | I64.
Inductive uintKind := U | U8 | U16 | U32 | U64 | Uptr.
Inductive floatKind := F32 | F64.

(** A defined type whose underlying type is [string] (for instance
    [json.Number]), with its [String] method when it is a [fmt.Stringer]. *)
Record strtype := { tname : string; Stringer : option (string -> string) }.

Inductive any : Type :=
| Nil                                        (* the nil interface value *)
| VBool (b : bool)
| VInt (k : intKind) (n : Z)
| VUint (k : uintKind) (n : Z)
| VFloat (k : floatKind) (bits : Z)          (* the IEEE-754 bit pattern *)
| VString (t : option strtype) (s : string)  (* [None]: the type [string] *)
| VPtr (target : option any)                 (* nil, or pointing to a value *)
| VIface (content : any)                     (* an interface-typed cell *)
| VSlice (elems : option (list any))         (* [None]: the nil slice *)
| VArray (elems : list any)
| VMap (entries : option (list (any * any))) (* [None]: the nil map *)
| VStruct (fields : list any)
| VTime (zero : bool)                        (* a [time.Time], zero or not *)
| VFunc (isnil : bool)
| VChan (isnil : bool).

Definition intKind_Kind (k : intKind) : Kind :=
  match k with I => Int | I8 => Int8 | I16 => Int16 | I32 => Int32 | I64 => Int64 end.
Definition uintKind_Kind (k : uintKind) : Kind :=
  match k with
  | U => Uint | U8 => Uint8 | U16 => Uint16 | U32 => Uint32 | U64 => Uint64
  | Uptr => Uintptr
  end.
Definition floatKind_Kind (k : floatKind) : Kind :=
  match k with F32 => Float32 | F64 => Float64 end.

(** [reflect.Value.Kind]. *)
Definition Kind_of (v : any) : Kind :=
  match v with
  | Nil => Invalid
  | VBool _ => Bool
  | VInt k _ => intKind_Kind k
  | VUint k _ => uintKind_Kind k
  | VFloat k _ => floatKind_Kind k
  | VString _ _ => String
  | VPtr _ => Ptr
  | VIface _ => Interface
  | VSlice _ => Slice
  | VArray _ => Array
  | VMap _ => Map
  | VStruct _ | VTime _ => Struct
  | VFunc _ => Func
  | VChan _ => Chan
  end.

(** [reflect.Value.IsNil], where the package calls it (pointers and
    interface cells). *)
Definition IsNil (v : any) : bool :=
  match v with
  | VPtr None => true
  | VIface Nil => true
  | _ => false
  end.

(** [reflect.Value.Interface]: the content of an interface cell, the value
    itself otherwise. *)
Definition Interface_of (v : any) : any :=
  match v with
  | VIface c => c
  | _ => v
  end.

(** [reflect.Indirect]: one dereference of a pointer, identity otherwise
    (the nil pointer gives the zero [reflect.Value], of kind Invalid). *)
Definition reflect_Indirect (v : any) : any :=
  match v with
  | VPtr (Some t) => t
  | VPtr None => Nil
  | _ => v
  end.

(** [reflect.Value.Len] on slices, arrays, maps and strings. *)
Definition Len (v : any) : nat :=
  match v with
  | VSlice (Some l) | VArray l => length l
  | VMap (Some l) => length l
  | VString _ s => String.length s
  | _ => 0%nat
  end.

(** A float is zero when its bit pattern is that of +0 or -0. *)
Definition float_is_zero (k : floatKind) (bits : Z) : bool :=
  match k with
  | F32 => (bits =? 0) || (bits =? 2 ^ 31)
  | F64 => (bits =? 0) || (bits =? 2 ^ 63)
  end.

(** Modelled from the spec: [validation.Indirect] of the ozzo-validation
    dependency is not under src/.  Section 4.1: "pointers and interfaces are
    indirected before the call"; the second component tells whether the
    value is nil (nil interface, nil pointer, nil slice, map, func or
    channel). *)
Fixpoint Indirect (v : any) : any * bool :=
  match v with
  | Nil => (Nil, true)
  | VPtr None => (Nil, true)
  | VPtr (Some t) =>
      match t with
      | VIface c => Indirect c
      | _ => Indirect t
      end
  | VIface c => Indirect c
  | VSlice None | VMap None | VFunc true | VChan true => (Nil, true)
  | _ => (v, false)
  end.

(** Modelled from the spec: [validation.IsEmpty] of the ozzo-validation
    dependency is not under src/.  Section 4.1 names the empty values:
    "zero value, nil, empty string"; for a collection it is the one with no
    element, for a pointer or interface the nil one or one whose content is
    empty, for a struct only the zero [time.Time]. *)
Fixpoint IsEmpty (v : any) : bool :=
  match v with
  | Nil => true
  | VBool b => negb b
  | VInt _ n | VUint _ n => n =? 0
  | VFloat k bits => float_is_zero k bits
  | VString _ s => (String.length s =? 0)%nat
  | VPtr None => true
  | VPtr (Some t) =>
      match t with
      | VIface c => IsEmpty c
      | _ => IsEmpty t
      end
  | VIface c => IsEmpty c
  | VSlice None | VMap None => true
  | VSlice (Some l) | VArray l => (length l =? 0)%nat
  | VMap (Some l) => (length l =? 0)%nat
  | VStruct _ => false
  | VTime z => z
  | VFunc _ | VChan _ => false
  end.

End value.

(** ** The Unique rule (file of [uniqueRule]) *)

Module uniqueRule.
Import value.

Section Unique.

(** The values returned by the key function are used as keys of a Go
    [map[any]struct{}]: they are comparable values, compared by [==]. *)
Context {Key : Type} `{Countable Key}.

Record uniqueRule := Unique { f : Z -> Key; desc : string }.

(** The loop [for i := 0; i < l; i++ { m[r.f(i)] = struct{}{} }],
    at index [i] with [n] iterations left. *)
Fixpoint fill (r : uniqueRule) (i : Z) (n : nat) (m : gmap Key unit)
  : gmap Key unit :=
  match n with
  | O => m
  | S n' => fill r (i + 1) n' (<[ f r i := tt ]> m)
  end.

Definition Validate (r : uniqueRule) (value : any) : option error :=
  let m : gmap Key unit := ∅ in
  let rv := value in
  if (bool_decide (Kind_of rv = Ptr) || bool_decide (Kind_of rv = Interface))
       && IsNil rv
  then None
  else
    let rv := reflect_Indirect rv in
    match Kind_of rv with
    | Slice | Array =>
        let l := Len rv in
        let m := fill r 0 l m in
        if bool_decide (size m ≠ l) then Some "not unique" else None
    | _ => Some "must be slice"
    end.

(** The keys extracted from a collection of length [l]:
    [f(0), ..., f(l-1)]. *)
Definition keys (r : uniqueRule) (l : nat) : list Key :=
  (fun i : nat => f r (Z.of_nat i)) <$> seq 0 l.

End Unique.

Arguments uniqueRule : clear implicits.

End uniqueRule.

(** ** The rules whose [Validate] is written in the package *)

Module rules.
Import value.

(** *** String helpers ([strings], [regexp]) *)

(** The white space [strings.TrimSpace] removes, within ASCII (white space
    outside ASCII, such as U+00A0, is outside the model). *)
Definition isSpace (a : ascii) : bool :=
  let n := nat_of_ascii a in
  ((9 <=? n) && (n <=? 13) || (n =? 32))%nat.

Fixpoint trimLeft (s : string) : string :=
  match s with
  | EmptyString => EmptyString
  | String.String a s' => if isSpace a then trimLeft s' else s
  end.

Fixpoint trimRight (s : string) : string :=
  match s with
  | EmptyString => EmptyString
  | String.String a s' =>
      match trimRight s' with
      | EmptyString => if isSpace a then EmptyString else String.String a EmptyString
      | r => String.String a r
      end
  end.

Definition TrimSpace (s : string) : string := trimRight (trimLeft s).

(** [[[:alpha:]]] and [\d] of Go's regexp syntax are ASCII classes. *)
Definition isAlpha (a : ascii) : bool :=
  let n := nat_of_ascii a in
  ((65 <=? n) && (n <=? 90) || (97 <=? n) && (n <=? 122))%nat.

Definition isDigit (a : ascii) : bool :=
  let n := nat_of_ascii a in ((48 <=? n) && (n <=? 57))%nat.

(** [re.ReplaceAllString(v, "")] for a regexp matching one byte class:
    the bytes outside the class [keep] are deleted. *)
Fixpoint keepOnly (keep : ascii -> bool) (s : string) : string :=
  match s with
  | EmptyString => EmptyString
  | String.String a s' => if keep a then String.String a (keepOnly keep s') else keepOnly keep s'
  end.

(** The bytes of a string, and a string of ASCII bytes only. *)
Definition isASCII (s : string) : bool :=
  forallb (fun a => (nat_of_ascii a <? 128)%nat) (list_ascii_of_string s).

(** [strings.Split(s, sep)] for a separator of one byte: the texts between
    the separators, [[s]] when there is none. *)
Fixpoint Split (s : string) (sep : ascii) : list string :=
  match s with
  | EmptyString => [EmptyString]
  | String.String a s' =>
      if Ascii.eqb a sep then EmptyString :: Split s' sep
      else
        match Split s' sep with
        | [] => [String.String a EmptyString]
        | first :: rest => String.String a first :: rest
        end
  end.

(** The conversion [int(i)] of a [uint], on a 64-bit platform. *)
Definition int_of_uint (i : Z) : Z :=
  if i <? 2 ^ 63 then i else i - 2 ^ 64.

(** The validator of [NewStringRuleDecimalMax(i)] (string.go):
[[
  spl := strings.Split(s, ".")
  if len(spl) < 2 {
      return true
  }
  return len(spl[1]) <= int(i)
]] *)
Definition decimalMax (i : Z) (s : string) : bool :=
  let spl := Split s "."%char in
  if (length spl <? 2)%nat then true
  else Z.of_nat (String.length (nth 1 spl EmptyString)) <=? int_of_uint i.

Definition creditCardNumberLength : nat := 16.

Section Rules.

(** What the rules take from outside the package. *)
Variable typeName : any -> string.                 (* fmt's %T *)
Variable Sprint : any -> string.                   (* fmt's %v *)
Variable ThresholdRule_Validate :                  (* ozzo's ThresholdRule *)
  any -> bool -> any -> option error.
Variable InRule_Validate : list any -> any -> option error. (* ozzo's InRule *)
Variables ParseInt ParseUint ParseFloat : string -> option any. (* strconv *)

(** *** [thresholdRule] (minmax.go) *)

Record thresholdRule := { threshold : any; min : bool }.

Definition Min (threshold : any) : thresholdRule :=
  {| threshold := threshold; min := true |}.
Definition Max (threshold : any) : thresholdRule :=
  {| threshold := threshold; min := false |}.

(** The type assertion [value.(string)], which panics when it fails. *)
Definition assert_string (v : any) : result string :=
  match v with
  | VString None s => Return s
  | _ => Panic
  end.

Definition thresholdRule_Validate (r : thresholdRule) (value : any)
  : result (option error) :=
  let '(value, isNil) := Indirect value in
  if isNil || IsEmpty value then Return None
  else if negb (bool_decide (Kind_of value = String))
  then Return (ThresholdRule_Validate (threshold r) (min r) value)
  else
    (* Handle json.Number and other types *)
    let value :=
      match value with
      | VString (Some {| Stringer := Some str |}) s => VString None (str s)
      | _ => value
      end in
    let rv := threshold r in
    let parsed (parse : string -> option any) (msg : error) k :=
      s ← assert_string value;
      match parse s with
      | Some v => k v
      | None => Return (Some msg)
      end in
    let finish v := Return (ThresholdRule_Validate (threshold r) (min r) v) in
    match Kind_of rv with
    | Int | Int8 | Int16 | Int32 | Int64 => parsed ParseInt "must be int64" finish
    | Uint | Uint8 | Uint16 | Uint32 | Uint64 | Uintptr =>
        parsed ParseUint "must be uint64" finish
    | Float32 | Float64 => parsed ParseFloat "must be float64" finish
    | _ => finish value
    end.

(** *** [hasAlphabetic] *)

Record hasAlphabetic := { isCreditCardNumberCheck : bool }.

Definition HasAlphabetic : hasAlphabetic := {| isCreditCardNumberCheck := false |}.
Definition NonCreditCardNumber : hasAlphabetic :=
  {| isCreditCardNumberCheck := true |}.

Definition hasAlphabetic_Validate (r : hasAlphabetic) (value : any)
  : option error :=
  match value with
  | VString None v =>
      let v := TrimSpace v in
      if String.eqb v "" then None
      else
        let ar := keepOnly isAlpha v in
        if String.eqb ar "" then
          if isCreditCardNumberCheck r then
            let nr := keepOnly isDigit v in
            if negb (String.length nr =? creditCardNumberLength)%nat then None
            else Some "must not be a credit card number"
          else Some "must contain at least one alphabetic character"
        else None
  | _ => Some ("expected string, got " +:+ typeName value)
  end.

(** *** [custom], [inRule] and the documentation-only rules *)

Record custom := Custom { custom_f : any -> option error; custom_desc : string }.

Definition custom_Validate (r : custom) (value : any) : option error :=
  custom_f r value.

Definition inRule_Validate (values : list any) (value : any) : option error :=
  match InRule_Validate values value with
  | Some err => Some (err +:+ " got '" +:+ Sprint value +:+ "'")
  | None => None
  end.

(** [describe], [defaulter], [deprecate], [example] and [skipRule] share
    one [Validate]: [return nil]. *)
Definition doc_Validate (value : any) : option error := None.

(** *** The required-style rules *)

(** Modelled from the spec: [Required] embeds [validation.RequiredRule] of
    the ozzo-validation dependency and its [Validate] is that type's, not
    under src/.  Section 4.1: "required-style rules are the exception that
    reject emptiness". *)
Definition Required_Validate (value : any) : option error :=
  let '(value, isNil) := Indirect value in
  if isNil || IsEmpty value then Some "cannot be blank" else None.

(** Modelled from the spec: [NotNil] wraps [validation.NotNil] of the
    ozzo-validation dependency, not under src/: "a validation rule that
    checks if a value is not nil". *)
Definition NotNil_Validate (value : any) : option error :=
  let '(_, isNil) := Indirect value in
  if isNil then Some "is required" else None.

(** *** The rules as one type, with the [Validate] of each *)

Inductive Rule : Type :=
| RRequired
| RNotNil
| RThreshold (r : thresholdRule)
| RHasAlphabetic (r : hasAlphabetic)
| RCustom (r : custom)
| RIn (values : list any)
| RDescribe (desc : string)
| RDefault (a : any)
| RDeprecate
| RExample (ex : any)
| RSkip (desc : string).

Definition Validate (r : Rule) (value : any) : result (option error) :=
  match r with
  | RRequired => Return (Required_Validate value)
  | RNotNil => Return (NotNil_Validate value)
  | RThreshold r => thresholdRule_Validate r value
  | RHasAlphabetic r => Return (hasAlphabetic_Validate r value)
  | RCustom r => Return (custom_Validate r value)
  | RIn values => Return (inRule_Validate values value)
  | RDescribe _ | RDefault _ | RDeprecate | RExample _ | RSkip _ =>
      Return (doc_Validate value)
  end.

(** The required/non-nil style rules. *)
Definition required_style (r : Rule) : bool :=
  match r with
  | RRequired | RNotNil => true
  | _ => false
  end.

End Rules.

(** The empty values of section 4.1: nil, the zero value of a scalar type,
    the empty string, a collection without elements, and a pointer to or an
    interface holding one of these. *)
Inductive Empty : any -> Prop :=
| Empty_nil : Empty Nil
| Empty_nil_ptr : Empty (VPtr None)
| Empty_false : Empty (VBool false)
| Empty_int k : Empty (VInt k 0)
| Empty_uint k : Empty (VUint k 0)
| Empty_float k : Empty (VFloat k 0)
| Empty_string t : Empty (VString t "")
| Empty_nil_slice : Empty (VSlice None)
| Empty_slice : Empty (VSlice (Some []))
| Empty_array : Empty (VArray [])
| Empty_nil_map : Empty (VMap None)
| Empty_map : Empty (VMap (Some []))
| Empty_time : Empty (VTime true)
| Empty_ptr v : Empty v -> Empty (VPtr (Some v))
| Empty_iface v : Empty v -> Empty (VIface v).

End rules.

(** ** The schema accumulator ([openapi3.Schema], [openapi3.SchemaRef]) *)

Module openapi3.
Import value.

Definition TypeString : string := "string".

(** The fields of [openapi3.Schema] the package reads or writes.  A
    [float64] is kept as its bit pattern; [Min] and [Max] are pointers,
    [None] when nil.  [Type] is the list behind [*openapi3.Types]. *)
Inductive Schema : Type := mkSchema {
  Type_ : list string;
  Format : string;
  Description : string;
  Enum : list any;
  Default : any;
  Example : any;
  UniqueItems : bool;
  Nullable : bool;
  Deprecated : bool;
  Min : option Z;
  Max : option Z;
  Required : list string;
  Properties : gmap string Schema;
  OneOf : list Schema;
}.

(** The method [Is] of [openapi3.Types]: the list is exactly [[typ]]. *)
Definition Is (s : Schema) (typ : string) : bool :=
  bool_decide (Type_ s = [typ]).

(** The schema a fresh [&openapi3.Schema{}] points to. *)
Definition empty : Schema :=
  {| Type_ := []; Format := ""; Description := ""; Enum := [];
     Default := Nil; Example := Nil; UniqueItems := false; Nullable := false;
     Deprecated := false; Min := None; Max := None; Required := [];
     Properties := ∅; OneOf := [] |}.

Definition set_Format (x : string) (s : Schema) : Schema :=
  mkSchema (Type_ s) x (Description s) (Enum s) (Default s) (Example s)
    (UniqueItems s) (Nullable s) (Deprecated s) (Min s) (Max s) (Required s)
    (Properties s) (OneOf s).
Definition set_Description (x : string) (s : Schema) : Schema :=
  mkSchema (Type_ s) (Format s) x (Enum s) (Default s) (Example s)
    (UniqueItems s) (Nullable s) (Deprecated s) (Min s) (Max s) (Required s)
    (Properties s) (OneOf s).
Definition set_Enum (x : list any) (s : Schema) : Schema :=
  mkSchema (Type_ s) (Format s) (Description s) x (Default s) (Example s)
    (UniqueItems s) (Nullable s) (Deprecated s) (Min s) (Max s) (Required s)
    (Properties s) (OneOf s).
Definition set_Default (x : any) (s : Schema) : Schema :=
  mkSchema (Type_ s) (Format s) (Description s) (Enum s) x (Example s)
    (UniqueItems s) (Nullable s) (Deprecated s) (Min s) (Max s) (Required s)
    (Properties s) (OneOf s).
Definition set_Example (x : any) (s : Schema) : Schema :=
  mkSchema (Type_ s) (Format s) (Description s) (Enum s) (Default s) x
    (UniqueItems s) (Nullable s) (Deprecated s) (Min s) (Max s) (Required s)
    (Properties s) (OneOf s).
Definition set_UniqueItems (x : bool) (s : Schema) : Schema :=
  mkSchema (Type_ s) (Format s) (Description s) (Enum s) (Default s) (Example s)
    x (Nullable s) (Deprecated s) (Min s) (Max s) (Required s) (Properties s) (OneOf s).
Definition set_Nullable (x : bool) (s : Schema) : Schema :=
  mkSchema (Type_ s) (Format s) (Description s) (Enum s) (Default s) (Example s)
    (UniqueItems s) x (Deprecated s) (Min s) (Max s) (Required s) (Properties s) (OneOf s).
Definition set_Deprecated (x : bool) (s : Schema) : Schema :=
  mkSchema (Type_ s) (Format s) (Description s) (Enum s) (Default s) (Example s)
    (UniqueItems s) (Nullable s) x (Min s) (Max s) (Required s) (Properties s) (OneOf s).
Definition set_Min (x : option Z) (s : Schema) : Schema :=
  mkSchema (Type_ s) (Format s) (Description s) (Enum s) (Default s) (Example s)
    (UniqueItems s) (Nullable s) (Deprecated s) x (Max s) (Required s)
    (Properties s) (OneOf s).
Definition set_Max (x : option Z) (s : Schema) : Schema :=
  mkSchema (Type_ s) (Format s) (Description s) (Enum s) (Default s) (Example s)
    (UniqueItems s) (Nullable s) (Deprecated s) (Min s) x (Required s)
    (Properties s) (OneOf s).
Definition set_Required (x : list string) (s : Schema) : Schema :=
  mkSchema (Type_ s) (Format s) (Description s) (Enum s) (Default s) (Example s)
    (UniqueItems s) (Nullable s) (Deprecated s) (Min s) (Max s) x (Properties s) (OneOf s).
Definition set_OneOf (x : list Schema) (s : Schema) : Schema :=
  mkSchema (Type_ s) (Format s) (Description s) (Enum s) (Default s) (Example s)
    (UniqueItems s) (Nullable s) (Deprecated s) (Min s) (Max s) (Required s)
    (Properties s) x.
Definition set_Properties (x : gmap string Schema) (s : Schema) : Schema :=
  mkSchema (Type_ s) (Format s) (Description s) (Enum s) (Default s) (Example s)
    (UniqueItems s) (Nullable s) (Deprecated s) (Min s) (Max s) (Required s) x (OneOf s).

(** The two arguments [schema *openapi3.Schema] and
    [ref *openapi3.SchemaRef] of a [Describe] call, as the store they point
    into: [ref.Value] is either [schema] itself (the call made by
    [applyValueRulerSchema]) or a schema of its own (the property's, in
    [applyRulesToSchema]). *)
Inductive acc : Type :=
| Shared (s : Schema)
| Separate (schema : Schema) (refValue : Schema).

Definition schema_of (a : acc) : Schema :=
  match a with Shared s => s | Separate s _ => s end.
Definition ref_Value (a : acc) : Schema :=
  match a with Shared s => s | Separate _ r => r end.

(** A write through [schema], and a write through [ref.Value]. *)
Definition on_schema (f : Schema -> Schema) (a : acc) : acc :=
  match a with
  | Shared s => Shared (f s)
  | Separate s r => Separate (f s) r
  end.
Definition on_ref (f : Schema -> Schema) (a : acc) : acc :=
  match a with
  | Shared s => Shared (f s)
  | Separate s r => Separate s (f r)
  end.

End openapi3.

(** ** [Describe]: what each rule writes into the schema accumulator *)

Module describe.
Import value openapi3.

(** [strings.HasSuffix] and [strings.Join]. *)
Definition HasSuffix (s suffix : string) : bool :=
  let n := String.length s in
  let k := String.length suffix in
  (k <=? n)%nat && String.eqb (substring (n - k) k s) suffix.

Fixpoint Join (elems : list string) (sep : string) : string :=
  match elems with
  | [] => ""
  | [x] => x
  | x :: rest => x +:+ sep +:+ Join rest sep
  end.

(** The statements every description-writing rule repeats:
[[
  if ref.Value.Description != "" && !strings.HasSuffix(ref.Value.Description, " ") {
      ref.Value.Description += " "
  }
  ref.Value.Description += desc
]] *)
Definition addDescription (desc : string) (s : Schema) : Schema :=
  let s :=
    if negb (String.eqb (Description s) "") && negb (HasSuffix (Description s) " ")
    then set_Description (Description s +:+ " ") s
    else s in
  set_Description (Description s +:+ desc) s.

(** What [Describe] reads of a [time.Time]. *)
Record Time := { IsZero : bool; Time_String : string }.

(** The rule types of the package, with the configuration their
    [Describe] reads. *)
Inductive Rule : Type :=
| Unique (desc : string)                       (* uniqueRule *)
| KeyIn (values : list string)                 (* keyInRule *)
| Describe_ (desc : string)                    (* describe *)
| Required_                                    (* requiredRule *)
| Threshold (threshold : any) (min : bool)     (* thresholdRule: Min, Max *)
| Deprecate                                    (* deprecate *)
| NotNil                                       (* notNilRule *)
| Each (rules : list Rule)                     (* eachRule *)
| Default_ (a : any)                           (* defaulter *)
| Date (layout : string) (min max : Time)      (* dateRule *)
| Custom (desc : string)                       (* custom *)
| StringRule (desc : string)                   (* stringRule *)
| By (desc : string)                           (* inlineRule *)
| Length (lo hi : Z)                           (* lengthRule *)
| HasAlphabetic (isCreditCardNumberCheck : bool) (* hasAlphabetic *)
| Skip (desc : string)                         (* skipRule *)
| Example_ (ex : any)                          (* example *)
| In (values : list any)                       (* inRule *)
| Absent (skipNil : bool).                     (* absentRule: Nil, Empty *)

Section Describe.

Variable typeName : any -> string.        (* fmt's %T *)
Variable Convert_float64 : any -> Z.      (* reflect's Convert to float64 *)
Variable float64_of_int : Z -> Z.         (* the conversion float64(n) *)

(** [getFloat] (minmax.go): [v.Type()] panics on the zero
    [reflect.Value], which a nil threshold gives. *)
Definition getFloat (unk : any) : result (error + Z) :=
  let v := reflect_Indirect unk in
  match v with
  | Nil => Panic
  | VInt _ _ | VUint _ _ | VFloat _ _ => Return (inr (Convert_float64 v))
  | _ => Return (inl ("cannot convert " +:+ typeName v +:+ " to float64"))
  end.

(** [Describe(name, schema, ref)]: the error returned and the store after
    the call (what was written before an error stays written). *)
Fixpoint Describe (r : Rule) (name : string) (a : acc)
  : result (option error * acc) :=
  match r with
  | Unique _ => Return (None, on_ref (set_UniqueItems true) a)
  | KeyIn values =>
      Return (None,
        on_ref (addDescription ("keys must be in (" +:+ Join values "," +:+ ")")) a)
  | Describe_ desc | Custom desc | StringRule desc | By desc | Skip desc =>
      Return (None, on_ref (addDescription desc) a)
  | Required_ =>
      Return (None,
        on_schema (fun s => set_Required (Required s ++ [name]) s) a)
  | Threshold threshold min =>
      let a :=
        if Is (ref_Value a) TypeString
        then on_ref (set_Format (typeName threshold)) a
        else a in
      x ← getFloat threshold;
      match x with
      | inl err => Return (Some err, a)
      | inr f =>
          if min then Return (None, on_ref (set_Min (Some f)) a)
          else Return (None, on_ref (set_Max (Some f)) a)
      end
  | Deprecate => Return (None, on_ref (set_Deprecated true) a)
  | NotNil => Return (None, on_ref (set_Nullable false) a)
  | Each rules =>
      (fix each (rules : list Rule) (a : acc) : result (option error * acc) :=
         match rules with
         | [] => Return (None, a)
         | r :: rest =>
             x ← Describe r name a;
             match x with
             | (Some err, a) => Return (Some err, a)
             | (None, a) => each rest a
             end
         end) rules a
  | Default_ d => Return (None, on_ref (set_Default d) a)
  | Date layout min max =>
      let a := on_ref (set_Format layout) a in
      let a :=
        if negb (IsZero min)
        then on_ref (addDescription ("> " +:+ Time_String min)) a else a in
      let a :=
        if negb (IsZero max)
        then on_ref (addDescription ("< " +:+ Time_String max)) a else a in
      Return (None, a)
  | Length lo hi =>
      let fmin := float64_of_int lo in
      let fmax := float64_of_int hi in
      let a := on_ref (set_Max (Some fmax)) a in
      let a := on_ref (set_Min (Some fmin)) a in
      Return (None, a)
  | HasAlphabetic _ =>
      Return (None,
        on_ref (fun s => set_Description
          (Description s +:+ "Must contain at least one alphabetic character. ") s) a)
  | Example_ ex => Return (None, on_ref (set_Example ex) a)
  | In values => Return (None, on_ref (set_Enum values) a)
  | Absent skipNil =>
      Return (None,
        on_ref (addDescription (if skipNil then "empty" else "null")) a)
  end.

(** Two calls in succession, on the store the first call left. *)
Definition Describe_twice (r : Rule) (name : string) (a : acc)
  : result (option error * acc) :=
  x ← Describe r name a; Describe r name x.2.

(** The rules whose [Describe] only assigns fields of the accumulator
    (the others append to [Description] or to [Required]). *)
Definition assigns (r : Rule) : bool :=
  match r with
  | Unique _ | Threshold _ _ | Deprecate | NotNil | Default_ _ | Length _ _
  | Example_ _ | In _ => true
  | Date _ min max => IsZero min && IsZero max
  | _ => false
  end.

(** The rule is [Required], or an [Each] that holds such a rule: the
    rules whose [Describe] writes through [schema]. *)
Fixpoint requires (r : Rule) : bool :=
  match r with
  | Required_ => true
  | Each rules => existsb requires rules
  | _ => false
  end.

End Describe.

End describe.

(** ** The traversal engine: bindings, expansion, validation, schema *)

Module engine.
Import openapi3.

(** *** Types and struct fields, as [reflect] describes them *)

(** [reflect.Type], up to identity of types.  A defined type is known by
    its name; a struct or interface literal by an identifier of its
    declaration. *)
Inductive type : Type :=
| Basic (k : Kind)
| Named (name : string) (underlying : type)
| PtrTo (elem : type)
| SliceOf (elem : type)
| ArrayOf (len : nat) (elem : type)
| MapOf (key elem : type)
| StructOf (id : string)
| InterfaceOf (id : string)
| Other (k : Kind) (id : string).

#[global] Instance type_eq_dec : EqDecision type.
Proof. solve_decision. Defined.

(** [reflect.Type.Kind]. *)
Fixpoint type_Kind (t : type) : Kind :=
  match t with
  | Basic k => k
  | Named _ u => type_Kind u
  | PtrTo _ => Ptr
  | SliceOf _ => Slice
  | ArrayOf _ _ => Array
  | MapOf _ _ => Map
  | StructOf _ => Struct
  | InterfaceOf _ => Interface
  | Other k _ => k
  end.

(** [reflect.Type.Elem], which panics on a type without elements. *)
Fixpoint type_Elem (t : type) : result type :=
  match t with
  | Named _ u => type_Elem u
  | PtrTo e | SliceOf e | ArrayOf _ e | MapOf _ e => Return e
  | _ => Panic
  end.

(** [reflect.Kind.String]. *)
Definition Kind_String (k : Kind) : string :=
  match k with
  | Invalid => "invalid" | Bool => "bool" | Int => "int" | Int8 => "int8"
  | Int16 => "int16" | Int32 => "int32" | Int64 => "int64" | Uint => "uint"
  | Uint8 => "uint8" | Uint16 => "uint16" | Uint32 => "uint32"
  | Uint64 => "uint64" | Uintptr => "uintptr" | Float32 => "float32"
  | Float64 => "float64" | Complex64 => "complex64"
  | Complex128 => "complex128" | Array => "array" | Chan => "chan"
  | Func => "func" | Interface => "interface" | Map => "map" | Ptr => "ptr"
  | Slice => "slice" | String => "string" | Struct => "struct"
  | UnsafePointer => "unsafe.Pointer"
  end.

(** [reflect.StructTag]: the key/value pairs of the tag string, and [Get]. *)
Definition StructTag := list (string * string).

Fixpoint Tag_Get (tag : StructTag) (key : string) : string :=
  match tag with
  | [] => ""
  | (k, v) :: rest => if String.eqb k key then v else Tag_Get rest key
  end.

(** [strings.Split(s, ",")[0]]: the text before the first comma. *)
Fixpoint before_comma (s : string) : string :=
  match s with
  | EmptyString => EmptyString
  | String.String a s' =>
      if Ascii.eqb a ","%char then EmptyString
      else String.String a (before_comma s')
  end.

(** [reflect.StructField]. *)
Record StructField := {
  Name : string;
  Type_ : type;
  Tag : StructTag;
  Anonymous : bool;
}.

(** [strconv.Itoa]. *)
Definition Itoa (i : Z) : string := NilZero.string_of_int (Z.to_int i).

(** *** Values, bindings and declarators *)

(** The content of a value that is no pointer, interface, collection or
    struct. *)
Inductive scalar : Type :=
| SBool (b : bool)
| SInt (k : value.intKind) (n : Z)
| SUint (k : value.uintKind) (n : Z)
| SFloat (k : value.floatKind) (bits : Z)
| SComplex (wide : bool)
| SString (s : string)
| SFunc
| SChan
| SUnsafePointer.

Definition scalar_Kind (d : scalar) : Kind :=
  match d with
  | SBool _ => Bool
  | SInt k _ => value.intKind_Kind k
  | SUint k _ => value.uintKind_Kind k
  | SFloat k _ => value.floatKind_Kind k
  | SComplex wide => if wide then Complex128 else Complex64
  | SString _ => String
  | SFunc => Func
  | SChan => Chan
  | SUnsafePointer => UnsafePointer
  end.

Section Values.

Context {Ctx Rule : Type}.

(** [FieldRules]: a binding of a field location to its rules. *)
Record FieldRules_ (A : Type) := Field_ {
  fieldPtr : A;
  tag : string;
  rules : list Rule;
}.

(** What the type assertions [x.(Ruler)] and [x.(ContextRuler)] find: the
    method [Rules] bound to its receiver. *)
Inductive declarator (A : Type) : Type :=
| NoRuler
| IsRuler (Rules : list (FieldRules_ A))
| IsContextRuler (Rules : Ctx -> list (FieldRules_ A)).

(** The methods of a value the engine asks for: the declarator in the
    method set of the value's type ([ruler]) and in the method set of the
    pointer to it ([ptr_ruler]), and likewise for [ValueRuler]. *)
Record methods (A : Type) := {
  ruler : declarator A;
  ptr_ruler : declarator A;
  valueRuler : option (list Rule);
  ptr_valueRuler : option (list Rule);
}.

(** A dynamic value as [reflect] shows it.  A field of a struct comes with
    its [StructField] and its address; a pointer holds an address and, when
    it is not nil, the value stored there. *)
Inductive any : Type :=
| Nil
| Scalar (t : type) (m : methods any) (d : scalar)
| Pointer (elem : type) (addr : Z) (target : option any)
| IfaceCell (t : type) (content : any)
| SliceV (t : type) (m : methods any) (elems : list any)
| ArrayV (t : type) (m : methods any) (elems : list any)
| MapV (t : type) (m : methods any) (entries : list (any * any))
| StructV (t : type) (m : methods any) (fields : list (StructField * Z * any)).

End Values.

Arguments any : clear implicits.
Arguments FieldRules_ : clear implicits.
Arguments declarator : clear implicits.
Arguments methods : clear implicits.
Arguments Field_ {Rule A} fieldPtr tag rules.
Arguments fieldPtr {Rule A} _.
Arguments tag {Rule A} _.
Arguments rules {Rule A} _.
Arguments NoRuler {Ctx Rule A}.
Arguments IsRuler {Ctx Rule A} Rules.
Arguments IsContextRuler {Ctx Rule A} Rules.
Arguments ruler {Ctx Rule A} _.
Arguments ptr_ruler {Ctx Rule A} _.
Arguments valueRuler {Ctx Rule A} _.
Arguments ptr_valueRuler {Ctx Rule A} _.

(** [*FieldRules], and [Field(fieldPtr, rules...)] of the package. *)
Abbreviation FieldRules Ctx Rule := (FieldRules_ Rule (any Ctx Rule)).

Definition Field {Ctx Rule} (fieldPtr : any Ctx Rule) (rules : list Rule)
  : FieldRules Ctx Rule :=
  {| fieldPtr := fieldPtr; tag := ""; rules := rules |}.

(** [validation.Errors] and the errors it maps to. *)
Inductive Error : Type :=
| ErrMsg (msg : string)
| Errors (errs : gmap string Error).

(** A type without methods. *)
Definition no_methods {Ctx Rule} : methods Ctx Rule (any Ctx Rule) :=
  {| ruler := NoRuler; ptr_ruler := NoRuler;
     valueRuler := None; ptr_valueRuler := None |}.

Section Reflect.

Context {Ctx Rule : Type}.
#[local] Abbreviation any := (any Ctx Rule).

Definition Kind_of (v : any) : Kind :=
  match v with
  | Nil => Invalid
  | Scalar _ _ d => scalar_Kind d
  | Pointer _ _ _ => Ptr
  | IfaceCell _ _ => Interface
  | SliceV _ _ _ => Slice
  | ArrayV _ _ _ => Array
  | MapV _ _ _ => Map
  | StructV _ _ _ => Struct
  end.

(** [reflect.Value.Type]; the zero [reflect.Value] has none (a panic). *)
Definition TypeOf (v : any) : result type :=
  match v with
  | Nil => Panic
  | Scalar t _ _ | IfaceCell t _ | SliceV t _ _ | ArrayV t _ _ | MapV t _ _
  | StructV t _ _ => Return t
  | Pointer elem _ _ => Return (PtrTo elem)
  end.

Definition IsValid (v : any) : bool := negb (bool_decide (Kind_of v = Invalid)).

Definition IsNil (v : any) : bool :=
  match v with
  | Pointer _ _ None => true
  | IfaceCell _ Nil => true
  | _ => false
  end.

(** [reflect.Value.Interface]: an interface cell gives its content. *)
Definition Interface_of (v : any) : any :=
  match v with
  | IfaceCell _ c => c
  | _ => v
  end.

(** [reflect.Indirect]. *)
Definition Indirect (v : any) : any :=
  match v with
  | Pointer _ _ (Some t) => t
  | Pointer _ _ None => Nil
  | _ => v
  end.

(** The value [reflect.Indirect(reflect.ValueOf(x))] is addressable when
    [x] is a pointer. *)
Definition Indirect_CanAddr (v : any) : bool :=
  match v with
  | Pointer _ _ (Some _) => true
  | _ => false
  end.

(** The methods of a value's own type. *)
Definition methods_of (v : any) : methods Ctx Rule any :=
  match v with
  | Scalar _ m _ | SliceV _ m _ | ArrayV _ m _ | MapV _ m _ | StructV _ m _ => m
  | Nil | Pointer _ _ _ | IfaceCell _ _ => no_methods
  end.

(** [x.(Ruler)] / [x.(ContextRuler)] on a dynamic value: a pointer has the
    method set of the pointer type of its target (the engine asks a nil
    pointer for no method: every use below follows a nil check). *)
Definition as_Ruler (x : any) : declarator Ctx Rule any :=
  match Interface_of x with
  | Pointer _ _ (Some t) => ptr_ruler (methods_of t)
  | y => ruler (methods_of y)
  end.

(** [x.(ValueRuler)], with the rules [ValueRules()] returns. *)
Definition as_ValueRuler (x : any) : option (list Rule) :=
  match Interface_of x with
  | Pointer _ _ (Some t) => ptr_valueRuler (methods_of t)
  | y => valueRuler (methods_of y)
  end.

(** The bindings a declarator returns under the context [ctx]:
    [r.Rules()] or [r.Rules(ctx)]. *)
Definition declared (ctx : Ctx) (x : any) : list (FieldRules_ Rule any) :=
  match as_Ruler x with
  | IsRuler Rules => Rules
  | IsContextRuler Rules => Rules ctx
  | NoRuler => []
  end.

(** The address of a value that has one: a struct lives where its first
    field does.  (The package never compares the address held by a pointer
    it makes itself with [reflect.New] or [Addr].) *)
Definition address_of (v : any) : Z :=
  match v with
  | StructV _ _ ((_, a, _) :: _) => a
  | _ => 0
  end.

(** [v.Addr()], and also [reflect.New(v.Type())] followed by
    [ptr.Elem().Set(v)]: a pointer to [v], or to a copy of [v]. *)
Definition pointer_to (v : any) : any :=
  match TypeOf v with
  | Return t => Pointer t (address_of v) (Some v)
  | Panic => Nil
  end.

(** The [for] loop of [indirect] (schema.go). *)
Fixpoint indirect (v : any) : any :=
  match v with
  | Pointer _ _ (Some t) => indirect t
  | Pointer _ _ None => Nil
  | _ => v
  end.

End Reflect.

(** *** What the engine takes from outside the package *)

(** [validation.FieldRules] of ozzo-validation, as [convertFieldRules]
    builds them: the rules of the binding, then the [rulerBridge]. *)
Inductive vRule (Ctx Rule : Type) : Type :=
| validation_Rule (r : Rule)
| rulerBridge (ctx : Ctx).
Arguments validation_Rule {Ctx Rule} r.
Arguments rulerBridge {Ctx Rule} ctx.

Record vFieldRules (Ctx Rule : Type) := validation_Field {
  vfieldPtr : any Ctx Rule;
  vrules : list (vRule Ctx Rule);
}.
Arguments validation_Field {Ctx Rule} vfieldPtr vrules.
Arguments vfieldPtr {Ctx Rule} _.
Arguments vrules {Ctx Rule} _.

(** A [openapi3gen.SchemaCustomizerFn]: the error it returns and the
    schema it leaves. *)
Definition SchemaCustomizerFn : Type :=
  string -> type -> Schema -> result (option error * Schema).

(** The program the package is linked with, and the libraries it calls:
    - [Background] is [context.Background()];
    - [Rule_Validate] and [Rule_Describe] are the two methods of the
      interface [Rule];
    - [validation_ValidateStruct] is ozzo-validation's [ValidateStruct];
    - [New t] is [reflect.New(t).Interface()], a pointer to the zero value
      of [t] with the methods of [t];
    - [Implements_Ruler t] and [Implements_ContextRuler t] tell whether
      the pointer type of [t] implements the interface;
    - [Sprint] is [fmt.Sprintf("%v", _)], [Type_String] is [Type.String];
    - [FieldByName] is [reflect.Value.FieldByName];
    - [NewSchemaRefForValue c v] is kin-openapi's generator run on [v]
      with the schema customizer [c]. *)
Class Env (Ctx Rule : Type) := {
  Background : Ctx;
  Rule_Validate : Rule -> any Ctx Rule -> option Error;
  Rule_Describe : Rule -> string -> acc -> result (option error * acc);
  validation_ValidateStruct :
    any Ctx Rule -> list (vFieldRules Ctx Rule) -> result (option Error);
  New : type -> any Ctx Rule;
  Implements_Ruler : type -> bool;
  Implements_ContextRuler : type -> bool;
  Sprint : any Ctx Rule -> string;
  Type_String : type -> string;
  FieldByName : any Ctx Rule -> string -> any Ctx Rule;
  NewSchemaRefForValue :
    SchemaCustomizerFn -> any Ctx Rule -> result (error + Schema);
}.

(** *** Tag resolution and the embedding expander *)

Section Expand.

Context {Ctx Rule : Type}.
#[local] Abbreviation any := (any Ctx Rule).
#[local] Abbreviation FieldRules := (FieldRules Ctx Rule).

(** The test made on field [i] of the struct before delving into it:
[[
  if ptr == structValue.Field(i).UnsafeAddr() {
      if sf.Type == fieldValue.Elem().Type() { return &sf }
  }
]]
    [canAddr] tells whether the struct is addressable ([UnsafeAddr] panics
    when it is not); [fieldValue.Elem().Type()] panics when the pointer is
    nil. *)
Definition field_matches (canAddr : bool) (sf : StructField) (a : Z)
    (fieldValue : any) : result bool :=
  match fieldValue with
  | Pointer elem ptr target =>
      if negb canAddr then Panic
      else if bool_decide (ptr = a) then
        match target with
        | Some _ => Return (bool_decide (Type_ sf = elem))
        | None => Panic
        end
      else Return false
  | _ => Panic
  end.

(** The block run for an anonymous field [fi] of the struct, with the
    recursive call [findStructField(fi, fieldValue)] left to [find]:
[[
  fi := structValue.Field(i)
  if sf.Type.Kind() == reflect.Ptr { fi = fi.Elem() }
  if fi.Kind() == reflect.Struct {
      if f := findStructField(fi, fieldValue); f != nil { return f }
  }
]]
    A struct reached through a pointer is addressable; [Elem] panics on a
    value that is neither a pointer nor an interface. *)
Definition delve (find : bool -> any -> result (option StructField))
    (canAddr : bool) (sf : StructField) (fi : any)
  : result (option StructField) :=
  if bool_decide (type_Kind (Type_ sf) = Ptr) then
    match fi with
    | Pointer _ _ (Some e) =>
        match e with
        | StructV _ _ _ => find true e
        | _ => Return None
        end
    | Pointer _ _ None => Return None
    | IfaceCell _ c =>
        match c with
        | StructV _ _ _ => find false c
        | _ => Return None
        end
    | _ => Panic
    end
  else
    match fi with
    | StructV _ _ _ => find canAddr fi
    | _ => Return None
    end.

(** [findStructField] (string.go).  The loop runs from the last field to
    the first: the fields after the head of the list are searched before
    the head.  On a value that is not a struct, [NumField] panics. *)
Fixpoint findStructField (canAddr : bool) (structValue fieldValue : any)
  {struct structValue} : result (option StructField) :=
  match structValue with
  | StructV _ _ fields =>
      (fix loop (fields : list (StructField * Z * any))
         : result (option StructField) :=
         match fields with
         | [] => Return None
         | (sf, a, fi) :: rest =>
             found ← loop rest;
             match found with
             | Some f => Return (Some f)
             | None =>
                 hit ← field_matches canAddr sf a fieldValue;
                 if hit : bool then Return (Some sf)
                 else if Anonymous sf then
                   (* delve into anonymous struct to look for the field *)
                   delve (fun canAddr fi => findStructField canAddr fi fieldValue)
                     canAddr sf fi
                 else Return None
             end
         end) fields
  | _ => Panic
  end.

(** Modelled from the spec: the key under which [ValidateStruct] of the
    ozzo-validation dependency (not under src/) files the error of a
    binding.  Section 3: a binding has "a resolved tag name (used as the
    error/schema key)"; section 4.2: it is "computed ... by matching the
    location's address against the container's field addresses".  The
    name is the one before the first comma of the json tag, and the Go name
    of the field when the tag gives none (the tests of the package expect
    the key "Name" for an untagged field [Name]). *)
Definition getErrorFieldName (sf : StructField) : string :=
  let tag := Tag_Get (Tag sf) "json" in
  if negb (String.eqb tag "") && negb (String.eqb tag "-")
     && negb (String.eqb (before_comma tag) "")
  then before_comma tag
  else Name sf.

Definition errorKey (canAddr : bool) (structVal fieldPtr : any)
  : result (option string) :=
  sf ← findStructField canAddr structVal fieldPtr;
  Return (option_map getErrorFieldName sf).

(** The body of the [for] loop of [expandFields] for the binding [fr]:
    the bindings it appends to [result].  The recursive call
    [expandFields(ctx, embeddedPtr, r.Rules())] is left to [expand]. *)
Definition expandOne (expand : any -> result (list FieldRules))
    (canAddr : bool) (structVal : any) (fr : FieldRules)
  : result (list FieldRules) :=
  let fv := fieldPtr fr in
  if bool_decide (Kind_of fv = Ptr) then
    sf ← findStructField canAddr structVal fv;
    match sf with
    | Some sf =>
        if Anonymous sf then
          let embeddedPtr := Interface_of fv in
          match as_Ruler embeddedPtr with
          | IsRuler _ | IsContextRuler _ => expand embeddedPtr
          | NoRuler => Return [fr]
          end
        else Return [fr]
    | None => Return [fr]
    end
  else Return [fr].

(** The [for] loop of [expandFields] over [fields]. *)
Fixpoint expandLoop (expand : any -> result (list FieldRules))
    (canAddr : bool) (structVal : any) (fields : list FieldRules)
  : result (list FieldRules) :=
  match fields with
  | [] => Return []
  | fr :: rest =>
      head ← expandOne expand canAddr structVal fr;
      tail ← expandLoop expand canAddr structVal rest;
      Return (head ++ tail)
  end.

(** [expandFields(ctx, embeddedPtr, r.Rules())] and
    [expandFields(ctx, embeddedPtr, r.Rules(ctx))] for a pointer that
    implements [Ruler] or [ContextRuler]: the recursion of [expandFields],
    which descends into the bindings the embedded value declares. *)
Fixpoint expandEmbedded (ctx : Ctx) (embeddedPtr : any) {struct embeddedPtr}
  : result (list FieldRules) :=
  match embeddedPtr with
  | Pointer _ _ (Some structVal) =>
      match structVal with
      | StructV _ m _ =>
          match ptr_ruler m with
          | IsRuler Rules =>
              expandLoop (fun p => expandEmbedded ctx p) true structVal Rules
          | IsContextRuler Rules =>
              expandLoop (fun p => expandEmbedded ctx p) true structVal (Rules ctx)
          | NoRuler => Return []
          end
      | _ =>
          (* not a struct: [expandFields] returns the bindings as they are *)
          match as_Ruler embeddedPtr with
          | IsRuler Rules => Return Rules
          | IsContextRuler Rules => Return (Rules ctx)
          | NoRuler => Return []
          end
      end
  | _ =>
      match as_Ruler embeddedPtr with
      | IsRuler Rules => Return Rules
      | IsContextRuler Rules => Return (Rules ctx)
      | NoRuler => Return []
      end
  end.

(** [expandFields] (string.go). *)
Definition expandFields (ctx : Ctx) (structPtr : any) (fields : list FieldRules)
  : result (list FieldRules) :=
  let structVal := Indirect structPtr in
  if negb (IsValid structVal) || negb (bool_decide (Kind_of structVal = Struct))
  then Return fields
  else
    expandLoop (expandEmbedded ctx) (Indirect_CanAddr structPtr) structVal fields.

(** Modelled from the spec: the exported [ExpandFields] that
    [convertFieldRules] and [MissingRules] call is not under src/.  Section
    4.3 describes one expander, "applied identically before validation
    ... and before schema synthesis", and the comment on
    [convertFieldRules] names it: "Embedded Ruler fields are expanded via
    expandFields". *)
Definition ExpandFields (ctx : Ctx) (structPtr : any) (fields : list FieldRules)
  : result (list FieldRules) :=
  expandFields ctx structPtr fields.

End Expand.

(** *** The validation traversal *)

Section Validate.

Context {Ctx Rule : Type} `{!Env Ctx Rule}.
#[local] Abbreviation any := (any Ctx Rule).
#[local] Abbreviation FieldRules := (FieldRules Ctx Rule).

(** [convertFieldRules]: the flat bindings, each with its rules followed
    by a [rulerBridge]. *)
Definition convertFieldRules (ctx : Ctx) (structPtr : any)
    (fields : list FieldRules) : result (list (vFieldRules Ctx Rule)) :=
  flat ← ExpandFields ctx structPtr fields;
  Return
    (map (fun fr : FieldRules =>
            validation_Field (fieldPtr fr)
              (map validation_Rule (rules fr) ++ [rulerBridge ctx])) flat).

(** [validateValueRules]. *)
Fixpoint validateValueRules (value : any) (rules : list Rule) : option Error :=
  match rules with
  | [] => None
  | rule :: rest =>
      match Rule_Validate rule value with
      | Some err => Some err
      | None => validateValueRules value rest
      end
  end.

(** [shouldAutoValidate]. *)
Fixpoint shouldAutoValidate (elemType : type) : bool :=
  if bool_decide (type_Kind elemType = Struct)
     && (Implements_Ruler elemType || Implements_ContextRuler elemType)
  then true
  else
    match elemType with
    | Named _ u => shouldAutoValidate' u
    | SliceOf e | ArrayOf _ e | MapOf _ e => shouldAutoValidate e
    | _ => false
    end
with shouldAutoValidate' (underlying : type) : bool :=
  (* the element type of a defined collection type is that of its
     underlying type; the struct test is made on the defined type only *)
  match underlying with
  | Named _ u => shouldAutoValidate' u
  | SliceOf e | ArrayOf _ e | MapOf _ e => shouldAutoValidate e
  | _ => false
  end.

(** The first branches of [validateCore], for a value that implements
    [Ruler] or [ContextRuler]:
[[
  return validation.ValidateStruct(value, convertFieldRules(ctx, value, r.Rules()...)...)
]] *)
Definition validateDeclared (ctx : Ctx) (value : any)
    (d : declarator Ctx Rule any) : option (result (option Error)) :=
  match d with
  | IsRuler Rules =>
      Some (vFields ← convertFieldRules ctx value Rules;
            validation_ValidateStruct value vFields)
  | IsContextRuler Rules =>
      Some (vFields ← convertFieldRules ctx value (Rules ctx);
            validation_ValidateStruct value vFields)
  | NoRuler => None
  end.

(** The body of [validateElement], with its two calls of [validateCore]
    left to [core]. *)
Definition validateElement_body (core : any -> result (option Error))
    (canAddr : bool) (v : any) : result (option Error) :=
  if (bool_decide (Kind_of v = Ptr) || bool_decide (Kind_of v = Interface))
       && IsNil v
  then Return None
  else
    (* Get a pointer for pointer-receiver interfaces. *)
    let ptr :=
      if canAddr then Some (pointer_to v)
      else if bool_decide (Kind_of v = Struct) then Some (pointer_to v)
      else None in
    let nested :=
      match Kind_of v with
      | Slice | Array | Map => core (Interface_of v)
      | _ => Return None
      end in
    match ptr with
    | Some pi =>
        match as_Ruler pi with
        | IsRuler _ | IsContextRuler _ => core pi
        | NoRuler => nested
        end
    | None => nested
    end.

(** [validateCore ctx x] for the two values [validateElement] passes to
    it, given [core_v], the result of [validateCore] on the element [v]
    itself: [x] is either a pointer to [v] that implements a declarator,
    which the first branches of [validateCore] settle, or [v]. *)
Definition core_near (ctx : Ctx) (core_v : result (option Error)) (x : any)
  : result (option Error) :=
  match validateDeclared ctx x (as_Ruler x) with
  | Some r => r
  | None => core_v
  end.

(** Storing [err] under [key] when it is an error:
    [if err != nil { errs[key] = err }]. *)
Definition record_error (key : string) (err : option Error)
    (errs : gmap string Error) : gmap string Error :=
  match err with
  | Some e => <[ key := e ]> errs
  | None => errs
  end.

(** [if len(errs) > 0 { return errs }; return nil]. *)
Definition errors_or_nil (errs : gmap string Error) : option Error :=
  if (0 <? size errs)%nat then Some (Errors errs) else None.

(** [validateCore].  The recursion is on the value: the elements of a
    collection and the target of a pointer.  An element that implements a
    declarator through its pointer is validated by the first branches of
    [validateCore] ([validateDeclared]): [validateElement], stated below as
    in the source, calls [validateCore] on that pointer. *)
Fixpoint validateCore (ctx : Ctx) (value : any) {struct value}
  : result (option Error) :=
  let rv := value in
  if bool_decide (Kind_of rv = Ptr) && IsNil rv then Return None
  else
  (* Ruler/ContextRuler: validate struct fields. *)
  match validateDeclared ctx value (as_Ruler value) with
  | Some r => r
  | None =>
  (* Non-pointer struct value: check if *T implements Ruler/ContextRuler. *)
  let pi := pointer_to rv in
  match (if bool_decide (Kind_of rv = Struct)
         then validateDeclared ctx pi (as_Ruler pi) else None) with
  | Some r => r
  | None =>
  (* ValueRuler: non-struct types with their own validation rules. *)
  match as_ValueRuler value with
  | Some rules => Return (validateValueRules value rules)
  | None =>
  (* Auto-validate collection elements that implement Ruler. *)
  if (bool_decide (Kind_of rv = Ptr) || bool_decide (Kind_of rv = Interface))
       && IsNil rv
  then Return None
  else
    let element (canAddr : bool) (v : any) (core_v : result (option Error)) :=
      validateElement_body (core_near ctx core_v) canAddr v in
    let slice (canAddr : bool) :=
      fix slice (i : Z) (elems : list any) (errs : gmap string Error)
        : result (gmap string Error) :=
        match elems with
        | [] => Return errs
        | v :: rest =>
            err ← element canAddr v (validateCore ctx v);
            slice (i + 1) rest (record_error (Itoa i) err errs)
        end in
    let map_ :=
      fix map_ (entries : list (any * any)) (errs : gmap string Error)
        : result (gmap string Error) :=
        match entries with
        | [] => Return errs
        | (key, v) :: rest =>
            err ← element false v (validateCore ctx v);
            map_ rest (record_error (Sprint (Interface_of key)) err errs)
        end in
    let collection (canAddr : bool) (rv : any) : option (result (option Error)) :=
      match rv with
      | MapV t _ entries =>
          Some (e ← type_Elem t;
                if shouldAutoValidate e
                then errs ← map_ entries ∅; Return (errors_or_nil errs)
                else Return None)
      | SliceV t _ elems =>
          Some (e ← type_Elem t;
                if shouldAutoValidate e
                then errs ← slice true 0 elems ∅; Return (errors_or_nil errs)
                else Return None)
      | ArrayV t _ elems =>
          Some (e ← type_Elem t;
                if shouldAutoValidate e
                then errs ← slice canAddr 0 elems ∅; Return (errors_or_nil errs)
                else Return None)
      | _ => None
      end in
    match rv with
    | Pointer _ _ (Some rv) =>
        (* rv = reflect.Indirect(rv) *)
        match collection true rv with
        | Some r => r
        | None =>
            match rv with
            | Pointer _ _ (Some e) =>
                match e with
                | IfaceCell _ c => validateCore ctx c
                | _ => validateCore ctx e
                end
            | Pointer _ _ None => Panic
            | IfaceCell _ Nil => Panic
            | IfaceCell _ c => validateCore ctx c
            | _ => Return None
            end
        end
    | _ =>
        match collection false rv with
        | Some r => r
        | None =>
            match rv with
            | IfaceCell _ c => validateCore ctx c
            | _ => Return None
            end
        end
    end
  end end end.

(** [validateElement], [validateSlice] and [validateMap], as in the
    source.  [canAddr] is [v.CanAddr()]: the elements of a slice are
    addressable, those of a map are not, those of an array are when the
    array is. *)
Definition validateElement (ctx : Ctx) (canAddr : bool) (v : any)
  : result (option Error) :=
  validateElement_body (validateCore ctx) canAddr v.

Fixpoint validateSlice_from (ctx : Ctx) (canAddr : bool) (i : Z)
    (elems : list any) (errs : gmap string Error)
  : result (gmap string Error) :=
  match elems with
  | [] => Return errs
  | v :: rest =>
      err ← validateElement ctx canAddr v;
      validateSlice_from ctx canAddr (i + 1) rest (record_error (Itoa i) err errs)
  end.

Definition validateSlice (ctx : Ctx) (canAddr : bool) (elems : list any)
  : result (option Error) :=
  errs ← validateSlice_from ctx canAddr 0 elems ∅;
  Return (errors_or_nil errs).

(** The keys are visited in the order of [rv.MapKeys()], which Go leaves
    unspecified: the order of the list of entries. *)
Fixpoint validateMap_from (ctx : Ctx) (entries : list (any * any))
    (errs : gmap string Error) : result (gmap string Error) :=
  match entries with
  | [] => Return errs
  | (key, v) :: rest =>
      err ← validateElement ctx false v;
      validateMap_from ctx rest
        (record_error (Sprint (Interface_of key)) err errs)
  end.

Definition validateMap (ctx : Ctx) (entries : list (any * any))
  : result (option Error) :=
  errs ← validateMap_from ctx entries ∅;
  Return (errors_or_nil errs).

(** [validateCore] as the source writes it, with [validateMap],
    [validateSlice] and the recursive call in the [switch]; it is shown
    equal to [validateCore] below. *)
Definition validateCore_source (ctx : Ctx) (value : any)
  : result (option Error) :=
  let rv := value in
  if bool_decide (Kind_of rv = Ptr) && IsNil rv then Return None
  else
  match validateDeclared ctx value (as_Ruler value) with
  | Some r => r
  | None =>
  let pi := pointer_to rv in
  match (if bool_decide (Kind_of rv = Struct)
         then validateDeclared ctx pi (as_Ruler pi) else None) with
  | Some r => r
  | None =>
  match as_ValueRuler value with
  | Some rules => Return (validateValueRules value rules)
  | None =>
  if (bool_decide (Kind_of rv = Ptr) || bool_decide (Kind_of rv = Interface))
       && IsNil rv
  then Return None
  else
    let canAddr := Indirect_CanAddr rv in
    let rv := Indirect rv in
    match rv with
    | MapV t _ entries =>
        e ← type_Elem t;
        if shouldAutoValidate e then validateMap ctx entries else Return None
    | SliceV t _ elems =>
        e ← type_Elem t;
        if shouldAutoValidate e then validateSlice ctx true elems
        else Return None
    | ArrayV t _ elems =>
        e ← type_Elem t;
        if shouldAutoValidate e then validateSlice ctx canAddr elems
        else Return None
    | Pointer _ _ (Some e) => validateCore ctx (Interface_of e)
    | Pointer _ _ None => Panic
    | IfaceCell _ Nil => Panic
    | IfaceCell _ c => validateCore ctx c
    | _ => Return None
    end
  end end end.

(** [Validate], [ValidateCtx] and [ValidateStruct]. *)
Definition Validate (value : any) : result (option Error) :=
  validateCore Background value.

Definition ValidateCtx (ctx : Ctx) (value : any) : result (option Error) :=
  validateCore ctx value.

Definition ValidateStruct (structPtr : any) (fields : list FieldRules)
  : result (option Error) :=
  vFields ← convertFieldRules Background structPtr fields;
  validation_ValidateStruct structPtr vFields.

(** [rulerBridge.Validate]. *)
Definition rulerBridge_Validate (ctx : Ctx) (value : any)
  : result (option Error) :=
  match value with
  | Nil => Return None
  | _ => validateCore ctx value
  end.

End Validate.

(** *** Schema synthesis *)

Section Schema.

Context {Ctx Rule : Type} `{!Env Ctx Rule}.
#[local] Abbreviation any := (any Ctx Rule).
#[local] Abbreviation FieldRules := (FieldRules Ctx Rule).

(** [titleFirst]: [strings.ToUpper(s[:1]) + s[1:]], on ASCII. *)
Definition upper (a : ascii) : ascii :=
  let n := nat_of_ascii a in
  if ((97 <=? n) && (n <=? 122))%nat then ascii_of_nat (n - 32) else a.

Definition titleFirst (s : string) : string :=
  match s with
  | EmptyString => s
  | String.String a s' => String.String (upper a) s'
  end.

(** [getRulesForType]: [None] stands for the pair [(nil, nil)]. *)
Definition getRulesForType (t : type) : option (any * list FieldRules) :=
  let inst := New t in
  match as_Ruler inst with
  | IsRuler Rules => Some (inst, Rules)
  | IsContextRuler Rules => Some (inst, Rules Background)
  | NoRuler => None
  end.

(** [removeSkippedFields]. *)
Fixpoint removeSkippedFields (structVal : any) (schema : Schema)
  {struct structVal} : result Schema :=
  match structVal with
  | StructV _ _ fields =>
      (fix loop (fields : list (StructField * Z * any)) (schema : Schema)
         : result Schema :=
         match fields with
         | [] => Return schema
         | (sf, _, fi) :: rest =>
             schema ←
               (if Anonymous sf then
                  if bool_decide (type_Kind (Type_ sf) = Ptr) then
                    match fi with
                    | Pointer _ _ (Some e) =>
                        match e with
                        | StructV _ _ _ => removeSkippedFields e schema
                        | _ => Return schema
                        end
                    | Pointer _ _ None => Return schema
                    | IfaceCell _ c =>
                        match c with
                        | StructV _ _ _ => removeSkippedFields c schema
                        | _ => Return schema
                        end
                    | _ => Panic
                    end
                  else
                    match fi with
                    | StructV _ _ _ => removeSkippedFields fi schema
                    | _ => Return schema
                    end
                else if negb (String.eqb (before_comma (Tag_Get (Tag sf) "docs")) "skip")
                then Return schema
                else
                  let jsonTag := before_comma (Tag_Get (Tag sf) "json") in
                  Return (set_Properties (delete jsonTag (Properties schema)) schema));
             loop rest schema
         end) fields schema
  | _ => Panic
  end.

(** The statements of the loop of [removeSkippedFields] for one field,
    and the loop from a field on. *)
Definition removeSkipped_field (field : StructField * Z * any) (schema : Schema)
  : result Schema :=
  let '(sf, _, fi) := field in
  if Anonymous sf then
    if bool_decide (type_Kind (Type_ sf) = Ptr) then
      match fi with
      | Pointer _ _ (Some e) =>
          match e with
          | StructV _ _ _ => removeSkippedFields e schema
          | _ => Return schema
          end
      | Pointer _ _ None => Return schema
      | IfaceCell _ c =>
          match c with
          | StructV _ _ _ => removeSkippedFields c schema
          | _ => Return schema
          end
      | _ => Panic
      end
    else
      match fi with
      | StructV _ _ _ => removeSkippedFields fi schema
      | _ => Return schema
      end
  else if negb (String.eqb (before_comma (Tag_Get (Tag sf) "docs")) "skip")
  then Return schema
  else
    let jsonTag := before_comma (Tag_Get (Tag sf) "json") in
    Return (set_Properties (delete jsonTag (Properties schema)) schema).

Fixpoint removeSkipped_from (fields : list (StructField * Z * any))
    (schema : Schema) : result Schema :=
  match fields with
  | [] => Return schema
  | field :: rest =>
      schema ← removeSkipped_field field schema;
      removeSkipped_from rest schema
  end.

(** [mapFieldsToTags]: the bindings with the tags written so far, and the
    error.  The bindings are pointers ([[]*FieldRules]): a tag written
    before an error stays written. *)
Fixpoint mapFieldsToTags_from (i : Z) (fields : list FieldRules)
    (canAddr : bool) (structVal : any)
  : result (list FieldRules * option error) :=
  match fields with
  | [] => Return ([], None)
  | fr :: rest =>
      let fv := fieldPtr fr in
      if negb (bool_decide (Kind_of fv = Ptr)) then
        Return (fields,
          Some ("rule target for field index " +:+ Itoa i
                +:+ " must be a pointer, got " +:+ Kind_String (Kind_of fv)))
      else
        sf ← findStructField canAddr structVal fv;
        match sf with
        | None =>
            t ← TypeOf structVal;
            Return (fields,
              Some ("rule target for field index " +:+ Itoa i
                    +:+ " not found in struct " +:+ Type_String t))
        | Some sf =>
            let fr :=
              if Anonymous sf then
                (* Embedded fields are handled by recursion, not direct
                   rule application. *)
                Field_ (fieldPtr fr) "" (rules fr)
              else
                Field_ (fieldPtr fr)
                  (before_comma (Tag_Get (Tag sf) "json")) (rules fr) in
            '(rest, err) ← mapFieldsToTags_from (i + 1) rest canAddr structVal;
            Return (fr :: rest, err)
        end
  end.

Definition mapFieldsToTags (fields : list FieldRules) (canAddr : bool)
    (structVal : any) : result (list FieldRules * option error) :=
  mapFieldsToTags_from 0 fields canAddr structVal.

(** The error [mapFieldsToTags] makes for the binding of index [i]. *)
Definition tag_error (i : Z) (structVal : any) (fr : FieldRules) : error :=
  if bool_decide (Kind_of (fieldPtr fr) = Ptr) then
    "rule target for field index " +:+ Itoa i +:+ " not found in struct "
    +:+ match TypeOf structVal with Return t => Type_String t | Panic => "" end
  else
    "rule target for field index " +:+ Itoa i +:+ " must be a pointer, got "
    +:+ Kind_String (Kind_of (fieldPtr fr)).

(** The binding is a pointer that resolves to a field of the struct. *)
Definition resolves (canAddr : bool) (structVal : any) (fr : FieldRules) : Prop :=
  Kind_of (fieldPtr fr) = Ptr
  /\ exists sf, findStructField canAddr structVal (fieldPtr fr) = Return (Some sf).

(** The binding is no pointer, or a pointer that resolves to no field. *)
Definition unresolved (canAddr : bool) (structVal : any) (fr : FieldRules) : Prop :=
  Kind_of (fieldPtr fr) <> Ptr
  \/ findStructField canAddr structVal (fieldPtr fr) = Return None.

(** The rules of one binding described on the property [k]:
    [rule.Describe(k, schema, propRef)] for each rule, until an error. *)
Fixpoint describeRules (k : string) (rules : list Rule) (a : acc)
  : result (option error * acc) :=
  match rules with
  | [] => Return (None, a)
  | rule :: rest =>
      '(err, a) ← Rule_Describe rule k a;
      match err with
      | Some e => Return (Some e, a)
      | None => describeRules k rest a
      end
  end.

(** The loop over the bindings, for the property [k]. *)
Fixpoint describeFields (k : string) (fields : list FieldRules) (a : acc)
  : result (option error * acc) :=
  match fields with
  | [] => Return (None, a)
  | f :: rest =>
      if negb (String.eqb (tag f) k) then describeFields k rest a
      else
        '(err, a) ← describeRules k (rules f) a;
        match err with
        | Some e => Return (Some e, a)
        | None => describeFields k rest a
        end
  end.

(** The store after the calls made for the property [k]: [propRef] is
    the pointer found under [k], what was written through it is seen in
    the property. *)
Definition store_property (k : string) (a : acc) : Schema :=
  let schema := schema_of a in
  set_Properties (alter (fun _ => ref_Value a) k (Properties schema)) schema.

(** [applyRulesToSchema].  The properties are visited in the order of the
    Go map iteration, which is unspecified: here the order of
    [map_to_list]. *)
Fixpoint applyRulesToSchema_from (props : list (string * Schema))
    (fields : list FieldRules) (schema : Schema)
  : result (option error * Schema) :=
  match props with
  | [] => Return (None, schema)
  | (k, propRef) :: rest =>
      '(err, a) ← describeFields k fields (Separate schema propRef);
      let schema := store_property k a in
      match err with
      | Some e => Return (Some e, schema)
      | None => applyRulesToSchema_from rest fields schema
      end
  end.

Definition applyRulesToSchema (fields : list FieldRules) (schema : Schema)
  : result (option error * Schema) :=
  applyRulesToSchema_from (map_to_list (Properties schema)) fields schema.

(** [applyValueRulerSchema]: [ref] is [&openapi3.SchemaRef{Value: schema}]. *)
Definition applyValueRulerSchema (t : type) (name : string) (schema : Schema)
  : result (option error * Schema) :=
  let inst := New t in
  match as_ValueRuler inst with
  | None => Return (None, schema)
  | Some rules =>
      '(err, a) ← describeRules name rules (Shared schema);
      Return (err, schema_of a)
  end.

(** The customizer [schemaDoc(value)] past the resolution of
    interface-typed fields: the statements from [getRulesForType] on. *)
Definition schemaDoc_rules (name : string) (t : type) (schema : Schema)
  : result (option error * Schema) :=
  match getRulesForType t with
  | None => applyValueRulerSchema t name schema
  | Some (vi, fields) =>
      let structVal := indirect vi in
      (* Expand embedded Ruler fields into the parent's rule set. *)
      fields ← expandFields Background vi fields;
      schema ← removeSkippedFields structVal schema;
      '(fields, err) ← mapFieldsToTags fields (Indirect_CanAddr vi) structVal;
      match err with
      | Some e => Return (Some e, schema)
      | None => applyRulesToSchema fields schema
      end
  end.

(** The test that opens [schemaDoc(value)]: the field of [value] named
    after the property holds, in an interface, a concrete value
    ([fn.Elem().Interface()], returned here). *)
Definition interface_field (value : any) (name : string) : option any :=
  match value with
  | Nil => None
  | _ =>
      if bool_decide (Kind_of (indirect value) = Struct) then
        let fn := FieldByName (indirect value) (titleFirst name) in
        match fn with
        | IfaceCell _ c =>
            match c with
            | Nil | IfaceCell _ _ => None
            | _ => Some c
            end
        | _ => None
        end
      else None
  end.

(** [schemaDoc]. *)
Definition schemaDoc (value : any) : SchemaCustomizerFn :=
  fun name t schema =>
    (* Resolve interface-typed fields to their concrete types. *)
    match interface_field value name with
    | Some concrete =>
        ref ← NewSchemaRefForValue schemaDoc_rules concrete;
        match ref with
        | inl err => Return (Some err, schema)
        | inr ref_Value => Return (None, ref_Value)
        end
    | None => schemaDoc_rules name t schema
    end.

(** [newSchemaRefForValue]. *)
Definition newSchemaRefForValue (value : any) : result (error + Schema) :=
  NewSchemaRefForValue (schemaDoc value) value.

(** The loop of [NewRequest] over [vs], collecting [OneOf]. *)
Fixpoint NewRequest_from (vs : list any) (oneOf : list Schema)
  : result (error + list Schema) :=
  match vs with
  | [] => Return (inr oneOf)
  | v :: rest =>
      schema ← newSchemaRefForValue v;
      match schema with
      | inl err => Return (inl err)
      | inr schema => NewRequest_from rest (oneOf ++ [schema])
      end
  end.

(** [NewRequest]: the schema of the ["application/json"] content of the
    request body, or the error. *)
Definition NewRequest (vs : list any) : result (error + Schema) :=
  if bool_decide (length vs = 0%nat) then Return (inl "no values given")
  else
    oneOf ← NewRequest_from vs [];
    match oneOf with
    | inl err => Return (inl err)
    | inr [schema] => Return (inr schema)
    | inr oneOf => Return (inr (set_OneOf oneOf openapi3.empty))
    end.

End Schema.

End engine.

(** ** The normalization traversal *)

Module normalize.

(** A [reflect.Value] is a type and the data stored at that type.  The kind
    tests of [walkNormalize] are tests on the static type of a field or of
    an element, so the traversal is defined by recursion on the type.  A
    [Normalize] method may store any value of the type it works on, so on a
    recursive type definition the walk of the source need not end: types
    are finite trees here, and recursive type definitions are outside the
    model.

    Two more things are taken from the programs the package is written
    for.  The fields of kind struct, pointer, slice and map are exported
    (they are the fields [encoding/json] fills): on a value reached through
    an unexported field, [Interface] and [SetMapIndex] of package [reflect]
    panic.  And values are trees: no two places share storage, so a
    [Normalize] method changes nothing outside what its receiver points
    to. *)
Inductive type : Type :=
| TOther (k : Kind)                        (* no struct, pointer, slice, map *)
| TStruct (name : string) (fields : list type)
| TPtr (elem : type)
| TSlice (elem : type)
| TMap (key elem : type).

Definition type_Kind (t : type) : Kind :=
  match t with
  | TOther k => k
  | TStruct _ _ => Struct
  | TPtr _ => Ptr
  | TSlice _ => Slice
  | TMap _ _ => Map
  end.

Inductive value : Type :=
| VLeaf (d : value.any)
| VStruct (fields : list value)
| VPtr (target : option value)
| VSlice (elems : list value)
| VMap (entries : list (value.any * value)).

(** Where a value sits below the value being normalized: field [i] of a
    struct, element [j] of a slice, the value of the [n]-th key of
    [MapKeys()].  A pointer and what it points to share their place. *)
Inductive step : Set := Fld (i : nat) | Idx (j : nat) | Entry (n : nat).

#[global] Instance step_eq_dec : EqDecision step.
Proof. solve_decision. Defined.

Definition path := list step.

Definition step_index (s : step) : nat :=
  match s with Fld i | Idx i | Entry i => i end.

(** The order of a depth-first walk that visits a place before the places
    below it: a place comes before every place below it, and before its
    later siblings and every place below them. *)
Inductive before : path -> path -> Prop :=
| before_below_self (s : step) (q : path) : before [] (s :: q)
| before_sibling (s s' : step) (p q : path) :
    (step_index s < step_index s')%nat -> before (s :: p) (s' :: q)
| before_inside (s : step) (p q : path) :
    before p q -> before (s :: p) (s :: q).

(** [below p i q]: the place [q] is the child of [p] of an index from [i]
    on, or a place below such a child. *)
Definition below (p : path) (i : nat) (q : path) : Prop :=
  exists s r, q = p ++ s :: r /\ (i <= step_index s)%nat.

(** The calls made for the place [p] and below it, and the calls made
    below [p] from its child [i] on, in the order of the walk. *)
Definition place_ok (p : path) (calls : list path) : Prop :=
  StronglySorted before calls /\ Forall (fun q => p `prefix_of` q) calls.

Definition walk_ok (p : path) (i : nat) (calls : list path) : Prop :=
  StronglySorted before calls /\ Forall (below p i) calls.

Section Normalize.

Context {Ctx : Type}.

(** The method [Normalize] of a type that has one, as the function from
    the value the receiver points to before the call to that value after
    it. *)
Inductive hook : Type :=
| ContextNormalizer (Normalize : Ctx -> value -> value)
| Normalizer (Normalize : value -> value).

Definition run (h : hook) (ctx : Ctx) (x : value) : value :=
  match h with
  | ContextNormalizer Normalize => Normalize ctx x
  | Normalizer Normalize => Normalize x
  end.

(** [method_set t]: the [Normalize] in the method set of the type [t]. *)
Variable method_set : type -> option hook.

(** [callNormalize(ctx, v)] for [v] of dynamic type [t], at the place
    [p]: the value after the call, and the call made (the place of the
    receiver), if any.  A method called on a non-pointer works on a copy,
    and a nil pointer points to nothing: [v] is left as it is. *)
Definition callNormalize (ctx : Ctx) (t : type) (v : value) (p : path)
  : value * list path :=
  match method_set t with
  | None => (v, [])
  | Some n =>
      (match v with
       | VPtr (Some x) => VPtr (Some (run n ctx x))
       | _ => v
       end, [p])
  end.

(** [callNormalize(ctx, x.Addr().Interface())] for [x] of type [t]. *)
Definition callNormalize_Addr (ctx : Ctx) (t : type) (x : value) (p : path)
  : value * list path :=
  match callNormalize ctx (TPtr t) (VPtr (Some x)) p with
  | (VPtr (Some x), calls) => (x, calls)
  | (_, calls) => (x, calls)
  end.

(** The cases of the [switch] of [walkNormalize], with the recursive call
    left to [walk]: [walk canAddr p t rv] is [walkNormalize(ctx, rv)] for a
    struct [rv] of type [t] at the place [p]. *)
Section Cases.

Variable walk : bool -> path -> type -> value -> value * list path.
Variable ctx : Ctx.

(** [case reflect.Ptr], for a field or an element of type [TPtr e]:
[[
  if !field.IsNil() {
      callNormalize(ctx, field.Interface())
      if field.Elem().Kind() == reflect.Struct { walkNormalize(ctx, field.Elem()) }
  }
]] *)
Definition walk_ptr (p : path) (e : type) (field : value) : value * list path :=
  match field with
  | VPtr (Some _) =>
      let '(field, calls1) := callNormalize ctx (TPtr e) field p in
      match field with
      | VPtr (Some x) =>
          match e with
          | TStruct _ _ =>
              let '(x, calls2) := walk true p e x in
              (VPtr (Some x), calls1 ++ calls2)
          | _ => (field, calls1)
          end
      | _ => (field, calls1)
      end
  | _ => (field, [])
  end.

(** [case reflect.Struct], for a field or an element of type [ft]:
[[
  if field.CanAddr() { callNormalize(ctx, field.Addr().Interface()) }
  walkNormalize(ctx, field)
]] *)
Definition walk_struct (canAddr : bool) (p : path) (ft : type) (field : value)
  : value * list path :=
  let '(field, calls1) :=
    if canAddr then callNormalize_Addr ctx ft field p else (field, []) in
  let '(field, calls2) := walk canAddr p ft field in
  (field, calls1 ++ calls2).

(** An element of a slice of element type [e], at the place [q]; the
    elements of a slice are addressable. *)
Definition walk_elem (q : path) (e : type) (elem : value) : value * list path :=
  match e with
  | TStruct _ _ => walk_struct true q e elem
  | TPtr e' => walk_ptr q e' elem
  | _ => (elem, [])
  end.

(** [for j := range field.Len()], from the index [j] on. *)
Definition walk_elems (p' : path) (e : type)
  : nat -> list value -> list value * list path :=
  fix walk_elems (j : nat) (elems : list value) : list value * list path :=
    match elems with
    | [] => ([], [])
    | elem :: elems =>
        let '(elem, calls1) := walk_elem (p' ++ [Idx j]) e elem in
        let '(elems, calls2) := walk_elems (S j) elems in
        (elem :: elems, calls1 ++ calls2)
    end.

(** The value of a map of element type [e], at the place [q].  Map values
    aren't addressable; copy, normalize, put back:
[[
  if val.Kind() == reflect.Struct {
      cp := reflect.New(val.Type())
      cp.Elem().Set(val)
      callNormalize(ctx, cp.Interface())
      walkNormalize(ctx, cp.Elem())
      field.SetMapIndex(key, cp.Elem())
  }
]] *)
Definition walk_entry (q : path) (e : type) (val : value) : value * list path :=
  match e with
  | TStruct _ _ =>
      let cp := val in
      let '(cp, calls1) := callNormalize_Addr ctx e cp q in
      let '(cp, calls2) := walk true q e cp in
      (cp, calls1 ++ calls2)
  | _ => (val, [])
  end.

(** [for _, key := range field.MapKeys()], from the [n]-th key on. *)
Definition walk_entries (p' : path) (e : type)
  : nat -> list (value.any * value) -> list (value.any * value) * list path :=
  fix walk_entries (n : nat) (entries : list (value.any * value))
    : list (value.any * value) * list path :=
    match entries with
    | [] => ([], [])
    | (key, val) :: entries =>
        let '(val, calls1) := walk_entry (p' ++ [Entry n]) e val in
        let '(entries, calls2) := walk_entries (S n) entries in
        ((key, val) :: entries, calls1 ++ calls2)
    end.

(** [switch field.Kind()], for a field of type [ft] at the place [p']. *)
Definition walk_field (canAddr : bool) (p' : path) (ft : type) (field : value)
  : value * list path :=
  match ft with
  | TStruct _ _ => walk_struct canAddr p' ft field
  | TPtr e => walk_ptr p' e field
  | TSlice e =>
      match field with
      | VSlice elems =>
          let '(elems, calls) := walk_elems p' e O elems in
          (VSlice elems, calls)
      | _ => (field, [])
      end
  | TMap _ e =>
      match field with
      | VMap entries =>
          let '(entries, calls) := walk_entries p' e O entries in
          (VMap entries, calls)
      | _ => (field, [])
      end
  | TOther _ => (field, [])
  end.

(** [for i := range rv.NumField()], from the field [i] on. *)
Definition walk_fields (canAddr : bool) (p : path)
  : nat -> list type -> list value -> list value * list path :=
  fix walk_fields (i : nat) (ftypes : list type) (fields : list value)
      {struct ftypes} : list value * list path :=
    match ftypes, fields with
    | ft :: ftypes, field :: fields =>
        let '(field, calls) := walk_field canAddr (p ++ [Fld i]) ft field in
        let '(fields, calls') := walk_fields (S i) ftypes fields in
        (field :: fields, calls ++ calls')
    | _, _ => (fields, [])
    end.

End Cases.

(** [walkNormalize(ctx, rv)]: [rv] is a struct of type [t] at the place
    [p], addressable or not; the result is the struct after the walk and
    the calls of [Normalize] made, in order. *)
Fixpoint walkNormalize (ctx : Ctx) (canAddr : bool) (p : path) (t : type)
    (rv : value) {struct t} : value * list path :=
  match t, rv with
  | TStruct _ ftypes, VStruct fields =>
      let '(fields, calls) :=
        walk_fields (fun canAddr p t rv => walkNormalize ctx canAddr p t rv)
          ctx canAddr p O ftypes fields in
      (VStruct fields, calls)
  | _, _ => (rv, [])
  end.

(** [normalizeRecursive(ctx, a)], for [a] of dynamic type [t]; [None] is
    the nil interface.  The place of [a] is the empty path. *)
Definition normalizeRecursive (ctx : Ctx) (a : option (type * value))
  : option (type * value) * list path :=
  match a with
  | None => (None, [])
  | Some (t, v) =>
      let '(v, calls1) := callNormalize ctx t v [] in
      match t, v with
      | TPtr e, VPtr None => (Some (t, v), calls1)
      | TPtr e, VPtr (Some rv) =>
          match e with
          | TStruct _ _ =>
              let '(rv, calls2) := walkNormalize ctx true [] e rv in
              (Some (t, VPtr (Some rv)), calls1 ++ calls2)
          | _ => (Some (t, v), calls1)
          end
      | TStruct _ _, _ =>
          let '(rv, calls2) := walkNormalize ctx false [] t v in
          (Some (t, rv), calls1 ++ calls2)
      | _, _ => (Some (t, v), calls1)
      end
  end.

End Normalize.

End normalize.

(** ** Fixtures: the types of the tests of the package *)

Module fixtures.
Import engine.

(** A context is the background context or a request context asking for
    strict rules; a rule is known by its name. *)
Inductive context : Set := background | strict.
Definition rule : Type := string.

#[local] Abbreviation any := (engine.any context rule).
#[local] Abbreviation FieldRules := (engine.FieldRules context rule).

Definition T_string : type := Basic String.
Definition str (s : string) : any := Scalar T_string no_methods (SString s).
Definition field (name : string) (t : type) (anonymous : bool) : StructField :=
  {| Name := name; Type_ := t; Tag := []; Anonymous := anonymous |}.
Definition pointer_receiver (d : declarator context rule any)
  : methods context rule any :=
  {| ruler := NoRuler; ptr_ruler := d; valueRuler := None;
     ptr_valueRuler := None |}.

(** [type valItem struct { Name string }], with
    [Rules() = { Field(&i.Name, Required, Length(1, 50)) }], stored at the
    address [a]. *)
Definition T_valItem : type := Named "valItem" (StructOf "valItem").
Definition valItem (a : Z) (name : string) : any :=
  StructV T_valItem
    (pointer_receiver
       (IsRuler [Field (Pointer T_string a (Some (str name)))
                   ["Required"; "Length"]]))
    [(field "Name" T_string false, a, str name)].

(** [type valBase struct { ID string }], with
    [Rules() = { Field(&b.ID, Required) }]. *)
Definition T_valBase : type := Named "valBase" (StructOf "valBase").
Definition valBase_Rules (a : Z) (id : string) : list FieldRules :=
  [Field (Pointer T_string a (Some (str id))) ["Required"]].
Definition valBase (a : Z) (id : string) : any :=
  StructV T_valBase (pointer_receiver (IsRuler (valBase_Rules a id)))
    [(field "ID" T_string false, a, str id)].

(** [type valWithEmbed struct { valBase; Value string }], with
    [Rules() = { Field(&w.valBase), Field(&w.Value, Required) }]: the
    embedded struct sits at the address of the struct, [Value] 16 bytes
    further. *)
Definition T_valWithEmbed : type :=
  Named "valWithEmbed" (StructOf "valWithEmbed").
Definition valWithEmbed_Rules (a : Z) (id value : string) : list FieldRules :=
  [Field (Pointer T_valBase a (Some (valBase a id))) [];
   Field (Pointer T_string (a + 16) (Some (str value))) ["Required"]].
Definition valWithEmbed (a : Z) (id value : string) : any :=
  StructV T_valWithEmbed
    (pointer_receiver (IsRuler (valWithEmbed_Rules a id value)))
    [(field "valBase" T_valBase true, a, valBase a id);
     (field "Value" T_string false, a + 16, str value)].

(** A context-carrying declarator whose bindings depend on the context:
[[
  type audited struct { By, Reason string }
  func (x *audited) Rules(ctx context.Context) []*FieldRules {
      if strict(ctx) {
          return []*FieldRules{Field(&x.By, Required), Field(&x.Reason, Required)}
      }
      return []*FieldRules{Field(&x.By, Required)}
  }
  type order struct { audited; Name string }
  func (o *order) Rules(context.Context) []*FieldRules {
      return []*FieldRules{Field(&o.audited), Field(&o.Name, Required)}
  }
]] *)
Definition T_audited : type := Named "audited" (StructOf "audited").
Definition audited_By (a : Z) : FieldRules :=
  Field (Pointer T_string a (Some (str ""))) ["Required"].
Definition audited_Reason (a : Z) : FieldRules :=
  Field (Pointer T_string (a + 16) (Some (str ""))) ["Required"].
Definition audited_Rules (a : Z) (ctx : context) : list FieldRules :=
  match ctx with
  | strict => [audited_By a; audited_Reason a]
  | background => [audited_By a]
  end.
Definition audited (a : Z) : any :=
  StructV T_audited (pointer_receiver (IsContextRuler (audited_Rules a)))
    [(field "By" T_string false, a, str "");
     (field "Reason" T_string false, a + 16, str "")].

Definition T_order : type := Named "order" (StructOf "order").
Definition order_Name (a : Z) : FieldRules :=
  Field (Pointer T_string (a + 32) (Some (str ""))) ["Required"].
Definition order_Rules (a : Z) (ctx : context) : list FieldRules :=
  [Field (Pointer T_audited a (Some (audited a))) []; order_Name a].
Definition order (a : Z) : any :=
  StructV T_order (pointer_receiver (IsContextRuler (order_Rules a)))
    [(field "audited" T_audited true, a, audited a);
     (field "Name" T_string false, a + 32, str "")].

(** A declarator that binds a field of another instance: the binding
    points 4096 bytes away from the struct.
[[
  type stray struct { Name string }
  func (s *stray) Rules() []*FieldRules {
      return []*FieldRules{Field(&other.Name, Required)}
  }
]] *)
Definition T_stray : type := Named "stray" (StructOf "stray").
Definition stray (a : Z) : any :=
  StructV T_stray
    (pointer_receiver
       (IsRuler [Field (Pointer T_string (a + 4096) (Some (str ""))) ["Required"]]))
    [(field "Name" T_string false, a, str "")].

(** The rule [Required] on a string; the other rules accept everything. *)
Definition Rule_Validate (r : rule) (v : any) : option Error :=
  if String.eqb r "Required" then
    match v with
    | Scalar _ _ (SString "") | Nil => Some (ErrMsg "cannot be blank")
    | _ => None
    end
  else None.

(** A stand-in for [ValidateStruct] of ozzo-validation in the examples:
    the rules of each binding are applied in order to the value the
    binding points to, the first error is stored under the key of the
    binding, and the bridge rule is left out. *)
Fixpoint apply_rules (v : any) (rs : list (vRule context rule)) : option Error :=
  match rs with
  | [] => None
  | validation_Rule r :: rs =>
      match Rule_Validate r v with
      | Some e => Some e
      | None => apply_rules v rs
      end
  | rulerBridge _ :: rs => apply_rules v rs
  end.

Fixpoint apply_fields (structPtr : any) (fs : list (vFieldRules context rule))
    (errs : gmap string Error) : result (gmap string Error) :=
  match fs with
  | [] => Return errs
  | f :: fs =>
      k ← errorKey (Indirect_CanAddr structPtr) (Indirect structPtr) (vfieldPtr f);
      match k with
      | Some k =>
          apply_fields structPtr fs
            (record_error k (apply_rules (Indirect (vfieldPtr f)) (vrules f)) errs)
      | None => Return (<[ "" := ErrMsg "field not found" ]> errs)
      end
  end.

Definition validation_ValidateStruct (structPtr : any)
    (fs : list (vFieldRules context rule)) : result (option Error) :=
  errs ← apply_fields structPtr fs ∅;
  Return (errors_or_nil errs).

(** [reflect.New] on the types above, at the address 4096. *)
Definition New (t : type) : any :=
  if bool_decide (t = T_valItem) then pointer_to (valItem 4096 "")
  else if bool_decide (t = T_valBase) then pointer_to (valBase 4096 "")
  else if bool_decide (t = T_valWithEmbed) then pointer_to (valWithEmbed 4096 "" "")
  else if bool_decide (t = T_audited) then pointer_to (audited 4096)
  else if bool_decide (t = T_order) then pointer_to (order 4096)
  else if bool_decide (t = T_stray) then pointer_to (stray 4096)
  else Pointer t 4096 (Some (str "")).

Fixpoint lookup_field (fields : list (StructField * Z * any)) (name : string)
  : any :=
  match fields with
  | [] => Nil
  | (sf, _, v) :: rest =>
      if String.eqb (Name sf) name then v else lookup_field rest name
  end.

#[global] Instance env : Env context rule := {|
  Background := background;
  engine.Rule_Validate := Rule_Validate;
  Rule_Describe := fun r name a =>
    Return (None,
      if String.eqb r "Required"
      then openapi3.on_schema
             (fun s => openapi3.set_Required (openapi3.Required s ++ [name]) s) a
      else a);
  engine.validation_ValidateStruct := validation_ValidateStruct;
  engine.New := New;
  Implements_Ruler := fun t =>
    bool_decide (t ∈ [T_valItem; T_valBase; T_valWithEmbed; T_stray]);
  Implements_ContextRuler := fun t => bool_decide (t ∈ [T_audited; T_order]);
  Sprint := fun v =>
    match v with Scalar _ _ (SString s) => s | _ => "" end;
  Type_String := fun t => match t with Named n _ => n | _ => "" end;
  FieldByName := fun v name =>
    match v with StructV _ _ fields => lookup_field fields name | _ => Nil end;
  NewSchemaRefForValue := fun customizer v =>
    match TypeOf (indirect v) with
    | Return t =>
        '(err, s) ← customizer "_root" t openapi3.empty;
        Return (match err with Some e => inl e | None => inr s end)
    | Panic => Panic
    end;
|}.

(** Types with [Normalize] methods:
[[
  type tag struct { Label string }
  func (t *tag) Normalize() { t.Label = strings.TrimSpace(t.Label) }

  type post struct {
      Title  string
      Main   tag
      Tags   map[string]tag
      Shared map[string]*tag
  }
  func (p *post) Normalize(context.Context) { p.Title = strings.TrimSpace(p.Title) }
]] *)
Definition T_tag : normalize.type :=
  normalize.TStruct "tag" [normalize.TOther String].
Definition T_post : normalize.type :=
  normalize.TStruct "post"
    [normalize.TOther String; T_tag;
     normalize.TMap (normalize.TOther String) T_tag;
     normalize.TMap (normalize.TOther String) (normalize.TPtr T_tag)].

Definition text (s : string) : normalize.value :=
  normalize.VLeaf (value.VString None s).
Definition tag (label : string) : normalize.value := normalize.VStruct [text label].
Definition post (title main first shared : string) : normalize.value :=
  normalize.VStruct
    [text title; tag main;
     normalize.VMap [(value.VString None "first", tag first)];
     normalize.VMap
       [(value.VString None "shared", normalize.VPtr (Some (tag shared)))]].

(** The receiver after [Normalize]: the first field is trimmed. *)
Definition trim_first (v : normalize.value) : normalize.value :=
  match v with
  | normalize.VStruct (normalize.VLeaf (value.VString t s) :: rest) =>
      normalize.VStruct
        (normalize.VLeaf (value.VString t (rules.TrimSpace s)) :: rest)
  | _ => v
  end.

Definition method_set (t : normalize.type) : option (@normalize.hook context) :=
  match t with
  | normalize.TPtr (normalize.TStruct name _) =>
      if String.eqb name "tag" then Some (normalize.Normalizer trim_first)
      else if String.eqb name "post"
      then Some (normalize.ContextNormalizer (fun _ => trim_first))
      else None
  | _ => None
  end.

(** A struct with a field kept out of the documentation, stored at the
    address [a], and the schema generated for its two properties:
[[
  type account struct {
      Name   string `json:"name,omitempty"`
      Secret string `json:"secret" docs:"skip"`
  }
]] *)
Definition T_account : type := Named "account" (StructOf "account").
Definition account_Name : StructField :=
  {| Name := "Name"; Type_ := T_string; Tag := [("json", "name,omitempty")];
     Anonymous := false |}.
Definition account_Secret : StructField :=
  {| Name := "Secret"; Type_ := T_string;
     Tag := [("json", "secret"); ("docs", "skip")]; Anonymous := false |}.
Definition account (a : Z) : any :=
  StructV T_account no_methods
    [(account_Name, a, str ""); (account_Secret, a + 16, str "")].
Definition account_schema : openapi3.Schema :=
  openapi3.set_Properties
    {[ "name" := openapi3.empty; "secret" := openapi3.empty ]} openapi3.empty.

End fixtures.

(** ** String transformations on structs (package transform) *)

Module transform.

(** A value as [stringFunc] sees it: the kind decides the case of each
    [switch].  A string knows whether its type is [string] itself or a
    defined string type; a field of a struct knows whether it is exported
    (an addressable field can be set when it is).  The kinds the function
    has no case for are leaves: what an interface holds and the elements
    of an array are never looked at.  Values are trees: no two places
    share storage. *)
Inductive leaf : Type :=
| LBool (b : bool)
| LInt (k : value.intKind) (n : Z)
| LUint (k : value.uintKind) (n : Z)
| LFloat (k : value.floatKind) (bits : Z)
| LComplex (wide : bool)
| LInterface (content : value.any)
| LArray (elems : list value.any)
| LFunc
| LChan
| LUnsafePointer.

Inductive value : Type :=
| VString (defined : option string) (s : string)
| VLeaf (d : leaf)
| VStruct (fields : list (bool * value))
| VPtr (target : option value)
| VSlice (elems : list value)
| VMap (entries : list (value.any * value)).

(** A [for] loop that rewrites the items of a list in turn; a panic ends
    it. *)
Definition each {A : Type} (g : A -> result A) : list A -> result (list A) :=
  fix each (l : list A) : result (list A) :=
    match l with
    | [] => Return []
    | x :: l => x' ← g x; l' ← each l; Return (x' :: l')
    end.

Section StringFunc.

Variable f : string -> string.

(** The cases of [stringFunc], with the recursive call left to [walk]:
    [walk x] is the struct [x] after [stringFunc(p, f)] for a pointer [p]
    to it. *)
Section Cases.

Variable walk : value -> result value.

(** [switch field.Elem().Kind()], for a pointer that is not nil:
[[
  case reflect.String: field.Elem().SetString(f(field.Elem().String()))
  case reflect.Struct: stringFunc(field.Interface(), f)
]] *)
Definition through_ptr (x : value) : result value :=
  match x with
  | VString t s => Return (VString t (f s))
  | VStruct _ => walk x
  | _ => Return x
  end.

(** [switch elem.Kind()], for an element of a slice. *)
Definition elem_case (elem : value) : result value :=
  match elem with
  | VString t s => Return (VString t (f s))
  | VStruct _ => walk elem
  | VPtr (Some x) => x' ← through_ptr x; Return (VPtr (Some x'))
  | _ => Return elem
  end.

(** [switch val.Kind()], for the value of a key of a map:
[[
  case reflect.String:
      field.SetMapIndex(key, reflect.ValueOf(f(val.String())))
  case reflect.Struct:
      cp := reflect.New(val.Type()).Elem()
      cp.Set(val)
      stringFunc(cp.Addr().Interface(), f)
      field.SetMapIndex(key, cp)
]]
    [reflect.ValueOf(f(...))] is of type [string]: [SetMapIndex] panics
    when the values of the map are of a defined string type, to which a
    [string] is not assignable. *)
Definition entry_case (entry : value.any * value)
  : result (value.any * value) :=
  let '(key, val) := entry in
  match val with
  | VString None s => Return (key, VString None (f s))
  | VString (Some _) _ => Panic
  | VStruct _ => cp ← walk val; Return (key, cp)
  | _ => Return entry
  end.

(** The body of the loop over the fields: [if !field.CanSet() { continue }]
    and [switch field.Kind()]. *)
Definition field_case (field : bool * value) : result (bool * value) :=
  let '(exported, v) := field in
  if negb exported then Return field
  else
    match v with
    | VString t s => Return (exported, VString t (f s))
    | VStruct _ => v' ← walk v; Return (exported, v')
    | VPtr None => Return field
    | VPtr (Some x) => x' ← through_ptr x; Return (exported, VPtr (Some x'))
    | VLeaf _ => Return field
    | VSlice elems => elems' ← each elem_case elems; Return (exported, VSlice elems')
    | VMap entries =>
        entries' ← each entry_case entries; Return (exported, VMap entries')
    end.

End Cases.

(** The loop of [stringFunc] over the fields of an addressable struct. *)
Fixpoint walk (v : value) {struct v} : result value :=
  match v with
  | VStruct fields =>
      fields' ← each (field_case (fun x => walk x)) fields;
      Return (VStruct fields')
  | _ => Return v
  end.

(** [stringFunc(a, f)]: what [a] is after the call.  A struct passed by
    value is not addressable, so none of its fields can be set. *)
Definition stringFunc (a : value) : result value :=
  match a with
  | VPtr (Some v) =>
      match v with
      | VStruct _ => v' ← walk v; Return (VPtr (Some v'))
      | _ => Return a
      end
  | _ => Return a
  end.

End StringFunc.

(** [StructStringFunc] and [StructTrimSpace] ([strings.TrimSpace] within
    ASCII, as in [rules.TrimSpace]). *)
Definition StructStringFunc (v : value) (f : string -> string) : result value :=
  stringFunc f v.

Definition StructTrimSpace (v : value) : result value :=
  stringFunc rules.TrimSpace v.

(** [StructMulti]: each function is given the value the one before left. *)
Fixpoint StructMulti (v : value) (fns : list (value -> result value))
  : result value :=
  match fns with
  | [] => Return v
  | fn :: fns => v' ← fn v; StructMulti v' fns
  end.

(** The strings [stringFunc] reaches, in the order of the walk: the
    strings of the exported fields, of what their pointers point to, of
    the elements of their slices and of the values of their maps, and the
    strings the structs found there hold in the same way. *)
Section Reached.

Variable reached : value -> list string.

Definition reached_ptr (x : value) : list string :=
  match x with
  | VString _ s => [s]
  | VStruct _ => reached x
  | _ => []
  end.

Definition reached_elem (elem : value) : list string :=
  match elem with
  | VString _ s => [s]
  | VStruct _ => reached elem
  | VPtr (Some x) => reached_ptr x
  | _ => []
  end.

Definition reached_entry (entry : value.any * value) : list string :=
  match entry.2 with
  | VString _ s => [s]
  | VStruct _ => reached entry.2
  | _ => []
  end.

Definition reached_field (field : bool * value) : list string :=
  if negb field.1 then []
  else
    match field.2 with
    | VString _ s => [s]
    | VStruct _ => reached field.2
    | VPtr (Some x) => reached_ptr x
    | VSlice elems => flat_map reached_elem elems
    | VMap entries => flat_map reached_entry entries
    | _ => []
    end.

End Reached.

Fixpoint reached_struct (v : value) {struct v} : list string :=
  match v with
  | VStruct fields => flat_map (reached_field (fun x => reached_struct x)) fields
  | _ => []
  end.

Definition reached (a : value) : list string :=
  match a with
  | VPtr (Some v) => reached_struct v
  | _ => []
  end.

(** The walk meets a map that has a value of a defined string type. *)
Section Blocked.

Variable blocked : value -> bool.

Definition blocked_ptr (x : value) : bool :=
  match x with
  | VStruct _ => blocked x
  | _ => false
  end.

Definition blocked_elem (elem : value) : bool :=
  match elem with
  | VStruct _ => blocked elem
  | VPtr (Some x) => blocked_ptr x
  | _ => false
  end.

Definition blocked_entry (entry : value.any * value) : bool :=
  match entry.2 with
  | VString (Some _) _ => true
  | VStruct _ => blocked entry.2
  | _ => false
  end.

Definition blocked_field (field : bool * value) : bool :=
  field.1 &&
  match field.2 with
  | VStruct _ => blocked field.2
  | VPtr (Some x) => blocked_ptr x
  | VSlice elems => existsb blocked_elem elems
  | VMap entries => existsb blocked_entry entries
  | _ => false
  end.

End Blocked.

Fixpoint blocked_struct (v : value) {struct v} : bool :=
  match v with
  | VStruct fields => existsb (blocked_field (fun x => blocked_struct x)) fields
  | _ => false
  end.

Definition blocked (a : value) : bool :=
  match a with
  | VPtr (Some v) => blocked_struct v
  | _ => false
  end.

(** The values [stringFunc] has no case for, at each [switch]: behind a
    pointer, as an element of a slice, as a value of a map, as a field. *)
Definition no_case_ptr (x : value) : bool :=
  match x with
  | VString _ _ | VStruct _ => false
  | _ => true
  end.

Definition no_case_elem (elem : value) : bool :=
  match elem with
  | VString _ _ | VStruct _ => false
  | VPtr (Some x) => no_case_ptr x
  | _ => true
  end.

Definition no_case_entry (val : value) : bool :=
  match val with
  | VString _ _ | VStruct _ => false
  | _ => true
  end.

Definition no_case_field (v : value) : bool :=
  match v with
  | VString _ _ | VStruct _ => false
  | VPtr (Some x) => no_case_ptr x
  | VPtr None | VLeaf _ => true
  | VSlice elems => forallb no_case_elem elems
  | VMap entries => forallb (fun e => no_case_entry e.2) entries
  end.

(** Examples.
[[
  type Label string
  type inner struct { Tag Label }
  type person struct {
      Name   string
      secret string
      Inner  *inner
      Notes  []string
      Attrs  map[string]string
      Extra  any
  }
  type labelled struct { Labels map[string]Label }
]] *)
Definition person_fields (name secret tag note attr : string)
  : list (bool * value) :=
  [(true, VString None name);
   (false, VString None secret);
   (true, VPtr (Some (VStruct [(true, VString (Some "Label") tag)])));
   (true, VSlice [VString None note]);
   (true, VMap [(value.VString None "k", VString None attr)]);
   (true, VLeaf (LInterface (value.VString None " kept ")))].

Definition person (name secret tag note attr : string) : value :=
  VPtr (Some (VStruct (person_fields name secret tag note attr))).

Definition labelled (label : string) : value :=
  VPtr (Some (VStruct
    [(true, VMap [(value.VString None "k", VString (Some "Label") label)])])).

End transform.

(** ** Registering operations (package openapi) *)

Module openapi.

Section Paths.

(** [openapi3.Operation], and what [openapi3.PathItem] holds besides the
    five operations [AddPath] sets, are not looked into. *)
Variables Operation Rest : Type.
Variable no_rest : Rest.       (* in the zero [openapi3.PathItem] *)

(** [openapi3.PathItem]; an operation is a pointer, [None] when nil. *)
Record PathItem := {
  Get : option Operation;
  Post : option Operation;
  Put : option Operation;
  Patch : option Operation;
  Delete : option Operation;
  rest : Rest;
}.

(** [&openapi3.PathItem{}]. *)
Definition new_PathItem : PathItem :=
  {| Get := None; Post := None; Put := None; Patch := None; Delete := None;
     rest := no_rest |}.

(** [openapi3.T], with [Paths] as the map [Value] reads and [Set]
    writes.  Every path has an item of its own (the documents are made by
    [DocBase] and filled by [AddPath]). *)
Record T := {
  OpenAPI : string;
  Title : string;
  Description : string;
  Version : string;
  Paths : gmap string PathItem;
}.

(** [DocBase]. *)
Definition DocBase (serviceName description version : string) : T :=
  {| OpenAPI := "3.0.3"; Title := serviceName; Description := description;
     Version := version; Paths := ∅ |}.

(** [http.MethodGet] and the like. *)
Definition MethodGet : string := "GET".
Definition MethodPost : string := "POST".
Definition MethodPut : string := "PUT".
Definition MethodPatch : string := "PATCH".
Definition MethodDelete : string := "DELETE".

(** [AddPath]. *)
Definition AddPath (path method : string) (s : T) (op : option Operation) : T :=
  let p :=
    match Paths s !! path with
    | Some p => p
    | None => new_PathItem
    end in
  let p :=
    if String.eqb method MethodGet then
      {| Get := op; Post := Post p; Put := Put p; Patch := Patch p;
         Delete := Delete p; rest := rest p |}
    else if String.eqb method MethodPost then
      {| Get := Get p; Post := op; Put := Put p; Patch := Patch p;
         Delete := Delete p; rest := rest p |}
    else if String.eqb method MethodPut then
      {| Get := Get p; Post := Post p; Put := op; Patch := Patch p;
         Delete := Delete p; rest := rest p |}
    else if String.eqb method MethodPatch then
      {| Get := Get p; Post := Post p; Put := Put p; Patch := op;
         Delete := Delete p; rest := rest p |}
    else if String.eqb method MethodDelete then
      {| Get := Get p; Post := Post p; Put := Put p; Patch := Patch p;
         Delete := op; rest := rest p |}
    else p in
  {| OpenAPI := OpenAPI s; Title := Title s; Description := Description s;
     Version := Version s; Paths := <[ path := p ]> (Paths s) |}.

(** The operation a document has for a path and a method: what a reader
    of the document finds. *)
Definition operation (s : T) (path method : string) : option Operation :=
  match Paths s !! path with
  | None => None
  | Some p =>
      if String.eqb method MethodGet then Get p
      else if String.eqb method MethodPost then Post p
      else if String.eqb method MethodPut then Put p
      else if String.eqb method MethodPatch then Patch p
      else if String.eqb method MethodDelete then Delete p
      else None
  end.

(** The methods [AddPath] has a case for. *)
Definition known (method : string) : bool :=
  String.eqb method MethodGet || String.eqb method MethodPost
  || String.eqb method MethodPut || String.eqb method MethodPatch
  || String.eqb method MethodDelete.

End Paths.

Arguments Get {Operation Rest} _.
Arguments Post {Operation Rest} _.
Arguments Put {Operation Rest} _.
Arguments Patch {Operation Rest} _.
Arguments Delete {Operation Rest} _.
Arguments rest {Operation Rest} _.
Arguments OpenAPI {Operation Rest} _.
Arguments Title {Operation Rest} _.
Arguments Description {Operation Rest} _.
Arguments Version {Operation Rest} _.
Arguments Paths {Operation Rest} _.
Arguments DocBase {Operation Rest} _ _ _.
Arguments operation {Operation Rest} _ _ _.

End openapi.

(** ** Fields without rules (check.go) *)

Module check.
Import engine.

(** A [reflect.StructField] as [collectUncovered] reads it, and a
    [reflect.Type] with the fields of its struct types.  Types are finite
    trees: a struct type that embeds itself through a pointer, on which
    the function of the source does not end, is outside the model. *)
Record FieldInfo := {
  Name : string;
  PkgPath : string;
  Tag : StructTag;
  Anonymous : bool;
}.

Inductive rtype : Type :=
| RStruct (fields : list (FieldInfo * rtype))
| RPtr (elem : rtype)
| ROther (k : Kind).

(** [sf.IsExported()]. *)
Definition IsExported (sf : FieldInfo) : bool := String.eqb (PkgPath sf) "".

(** [fieldKey]: the json tag name if present, otherwise the Go field
    name. *)
Definition fieldKey (sf : FieldInfo) : string :=
  let tag := before_comma (Tag_Get (Tag sf) "json") in
  if negb (String.eqb tag "") && negb (String.eqb tag "-") then tag
  else Name sf.

(** The struct type an embedded field is walked as:
[[
  inner := sf.Type
  if inner.Kind() == reflect.Ptr { inner = inner.Elem() }
  if inner.Kind() == reflect.Struct { ... }
]] *)
Definition inner_struct (ft : rtype) : option rtype :=
  let inner := match ft with RPtr e => e | _ => ft end in
  match inner with
  | RStruct _ => Some inner
  | _ => None
  end.

(** The tests a field that is not embedded passes before its key is
    looked up: exported, no [json:"-"], no [docs:"skip"], no
    [validate:"-"]. *)
Definition reportable (sf : FieldInfo) : bool :=
  IsExported sf
  && negb (String.eqb (before_comma (Tag_Get (Tag sf) "json")) "-")
  && negb (String.eqb (before_comma (Tag_Get (Tag sf) "docs")) "skip")
  && negb (String.eqb (Tag_Get (Tag sf) "validate") "-").

(** The body of the loop of [collectUncovered] for one field, with the
    recursive call left to [collect]: the list [*missing] after it. *)
Definition uncovered_field
    (collect : rtype -> list string -> result (list string))
    (excl covered : gset string) (field : FieldInfo * rtype)
    (missing : list string) : result (list string) :=
  let '(sf, ft) := field in
  if Anonymous sf then
    match ft with
    | RPtr (RStruct _ as inner) | (RStruct _ as inner) => collect inner missing
    | _ => Return missing
    end
  else if negb (IsExported sf) then Return missing
  else if String.eqb (before_comma (Tag_Get (Tag sf) "json")) "-"
  then Return missing
  else if String.eqb (before_comma (Tag_Get (Tag sf) "docs")) "skip"
  then Return missing
  else if String.eqb (Tag_Get (Tag sf) "validate") "-" then Return missing
  else
    let key := fieldKey sf in
    if bool_decide (key ∈ excl) || bool_decide (Name sf ∈ excl)
    then Return missing
    else if negb (bool_decide (key ∈ covered)) then Return (missing ++ [key])
    else Return missing.

(** [for i := range t.NumField()]. *)
Definition over_fields {A : Type}
    (g : A -> list string -> result (list string))
  : list A -> list string -> result (list string) :=
  fix over_fields (fields : list A) (missing : list string)
    : result (list string) :=
    match fields with
    | [] => Return missing
    | field :: rest => missing ← g field missing; over_fields rest missing
    end.

(** [collectUncovered]: the list [*missing] after the call.  [NumField]
    panics on a type that is no struct. *)
Fixpoint collectUncovered (t : rtype) (excl covered : gset string)
    (missing : list string) {struct t} : result (list string) :=
  match t with
  | RStruct fields =>
      over_fields
        (uncovered_field
           (fun inner missing => collectUncovered inner excl covered missing)
           excl covered)
        fields missing
  | _ => Panic
  end.

(** The fields the walk looks at: the fields of the struct that are not
    embedded, and those of the structs it embeds, directly or through a
    pointer. *)
Inductive field_of : rtype -> FieldInfo -> Prop :=
| field_own (fields : list (FieldInfo * rtype)) (sf : FieldInfo) (ft : rtype) :
    (sf, ft) ∈ fields -> Anonymous sf = false ->
    field_of (RStruct fields) sf
| field_embedded (fields : list (FieldInfo * rtype)) (sf : FieldInfo)
    (ft inner : rtype) (sf' : FieldInfo) :
    (sf, ft) ∈ fields -> Anonymous sf = true ->
    inner_struct ft = Some inner -> field_of inner sf' ->
    field_of (RStruct fields) sf'.

(** Examples.
[[
  type base struct { ID string `json:"id"` }
  type item struct {
      base
      Name   string `json:"name"`
      Secret string `json:"-"`
      Note   string `validate:"-"`
      count  int
      Price  float64
  }
]] *)
Definition T_base : rtype :=
  RStruct [({| Name := "ID"; PkgPath := ""; Tag := [("json", "id")];
               Anonymous := false |}, ROther String)].

Definition T_item : rtype :=
  RStruct
    [({| Name := "base"; PkgPath := "main"; Tag := []; Anonymous := true |},
      T_base);
     ({| Name := "Name"; PkgPath := ""; Tag := [("json", "name")];
         Anonymous := false |}, ROther String);
     ({| Name := "Secret"; PkgPath := ""; Tag := [("json", "-")];
         Anonymous := false |}, ROther String);
     ({| Name := "Note"; PkgPath := ""; Tag := [("validate", "-")];
         Anonymous := false |}, ROther String);
     ({| Name := "count"; PkgPath := "main"; Tag := []; Anonymous := false |},
      ROther Int);
     ({| Name := "Price"; PkgPath := ""; Tag := []; Anonymous := false |},
      ROther Float64)].

End check.

(** * Part II: the properties *)

(** ** The Unique rule *)

Section UniqueProperties.

Import value uniqueRule.
Context {Key : Type} `{Countable Key}.

(** Closes a goal that holds by computation on a slice or an array, given
    [Hk : Kind_of c = Slice \/ Kind_of c = Array]. *)
Ltac not_a_collection c Hk :=
  destruct c as [| |k ?|k ?|k ?| | | | | | | | | |]; cbn in *;
  try reflexivity;
  destruct Hk as [Hk|Hk]; try discriminate; destruct k; discriminate.

(** The map filled by the loop holds the keys it started with and the
    keys of the indices visited. *)
Lemma dom_fill (r : uniqueRule Key) (n : nat) (i : Z) (m : gmap Key unit) :
  dom (fill r i n m)
  = dom m ∪ list_to_set ((fun k : nat => f r (i + Z.of_nat k)) <$> seq 0 n).
Proof.
  revert i m. induction n as [|n IH]; intros i m.
  - cbn. set_solver.
  - cbn [fill]. rewrite IH, dom_insert_L.
    rewrite <- cons_seq, <- fmap_S_seq. cbn [fmap list_fmap list_to_set].
    rewrite <- list_fmap_compose.
    replace (i + Z.of_nat 0) with i by lia.
    assert (Heq : ((fun k : nat => f r (i + 1 + Z.of_nat k)) <$> seq 0 n)
                  = ((fun k : nat => f r (i + Z.of_nat k)) ∘ S <$> seq 0 n)).
    { apply list_fmap_ext. intros _ k _. cbn. f_equal. lia. }
    rewrite Heq. set_solver.
Qed.

Lemma size_fill (r : uniqueRule Key) (l : nat) :
  size (fill r 0 l ∅) = size (list_to_set (C := gset Key) (keys r l)).
Proof.
  rewrite <- size_dom, dom_fill, dom_empty_L, (left_id_L ∅ (∪)).
  unfold keys. reflexivity.
Qed.

Lemma size_list_to_set_le (l : list Key) :
  (size (list_to_set (C := gset Key) l) <= length l)%nat.
Proof.
  induction l as [|x l IH]; cbn.
  - rewrite size_empty. lia.
  - rewrite size_union_alt, size_singleton.
    assert (size (list_to_set (C := gset Key) l ∖ {[x]})
            <= size (list_to_set (C := gset Key) l))%nat
      by (apply subseteq_size; set_solver).
    lia.
Qed.

(** A list has no duplicate exactly when the set of its elements has as
    many elements as the list. *)
Lemma NoDup_iff_size (l : list Key) :
  NoDup l <-> size (list_to_set (C := gset Key) l) = length l.
Proof.
  split; [apply size_list_to_set|].
  induction l as [|x l IH]; cbn; intros Hsize; [constructor|].
  destruct (decide (x ∈ l)) as [Hin|Hin].
  - exfalso.
    assert (Hsub : {[x]} ∪ list_to_set (C := gset Key) l
                   = list_to_set (C := gset Key) l) by set_solver.
    rewrite Hsub in Hsize. pose proof (size_list_to_set_le l). lia.
  - constructor; [exact Hin|]. apply IH.
    rewrite size_union in Hsize by set_solver.
    rewrite size_singleton in Hsize. lia.
Qed.

(** The [switch] of [Validate], on a slice or an array. *)
Lemma Validate_switch (r : uniqueRule Key) (c : any) :
  Kind_of c = Slice \/ Kind_of c = Array ->
  match Kind_of c with
  | Slice | Array =>
      if bool_decide (size (fill r 0 (Len c) ∅) ≠ Len c)
      then Some "not unique" else None
  | _ => Some "must be slice"
  end
  = if decide (NoDup (keys r (Len c))) then None else Some "not unique".
Proof.
  intros Hk.
  assert (Hbody : (if bool_decide (size (fill r 0 (Len c) ∅) ≠ Len c)
                   then Some "not unique" else None)
                  = if decide (NoDup (keys r (Len c))) then None
                    else Some "not unique").
  { rewrite size_fill.
    pose proof (NoDup_iff_size (keys r (Len c))) as Hiff.
    assert (Hlen : length (keys r (Len c)) = Len c)
      by (unfold keys; rewrite length_fmap, length_seq; reflexivity).
    rewrite Hlen in Hiff.
    destruct (decide (NoDup (keys r (Len c)))) as [Hnd|Hnd].
    - rewrite bool_decide_eq_false_2; [reflexivity|]. intros Hne. tauto.
    - rewrite bool_decide_eq_true_2; [reflexivity|]. tauto. }
  destruct Hk as [Hk|Hk]; rewrite Hk; exact Hbody.
Qed.

(** On a slice or an array the rule fails exactly when two indices have
    the same key. *)
Lemma Validate_collection (r : uniqueRule Key) (c : any) :
  Kind_of c = Slice \/ Kind_of c = Array ->
  Validate r c = if decide (NoDup (keys r (Len c))) then None
                 else Some "not unique".
Proof.
  intros Hk. unfold Validate.
  assert (Hnil : (bool_decide (Kind_of c = Ptr)
                  || bool_decide (Kind_of c = Interface)) && IsNil c = false).
  { not_a_collection c Hk. }
  rewrite Hnil.
  assert (Hind : reflect_Indirect c = c).
  { not_a_collection c Hk. }
  rewrite Hind. apply Validate_switch, Hk.
Qed.

(** C9. For a slice or an array, reached directly or through a pointer,
    and a key function [f], the Unique rule fails, with "not unique",
    exactly when the keys [f(0), ..., f(len-1)] contain a duplicate, and
    succeeds exactly when they do not; a nil pointer validates
    successfully; a value that is neither a slice nor an array fails with
    "must be slice". *)
Theorem Unique_fails_iff_duplicate (r : uniqueRule Key) :
  (forall c : any, Kind_of c = Slice \/ Kind_of c = Array ->
     (Validate r c = Some "not unique" <-> ~ NoDup (keys r (Len c)))
     /\ (Validate r c = None <-> NoDup (keys r (Len c)))
     /\ Validate r (VPtr (Some c)) = Validate r c)
  /\ Validate r (VPtr None) = None
  /\ (forall v : any,
        Kind_of (reflect_Indirect v) <> Slice ->
        Kind_of (reflect_Indirect v) <> Array ->
        v <> VPtr None -> v <> VIface Nil ->
        Validate r v = Some "must be slice").
Proof.
  split; [|split].
  - intros c Hk. rewrite (Validate_collection r c Hk).
    split; [|split].
    + destruct (decide (NoDup (keys r (Len c)))); split; intros; try tauto;
        discriminate.
    + destruct (decide (NoDup (keys r (Len c)))); split; intros; try tauto;
        discriminate.
    + unfold Validate. cbn [Kind_of IsNil reflect_Indirect].
      rewrite andb_false_r. apply Validate_switch, Hk.
  - reflexivity.
  - intros v Hs Ha Hp Hi. unfold Validate.
    assert (Hnil : IsNil v = false).
    { destruct v as [| | | | | |[t|]|c| | | | | | |]; try reflexivity.
      - congruence.
      - destruct c; try reflexivity. congruence. }
    rewrite Hnil, andb_false_r.
    destruct (Kind_of (reflect_Indirect v)); try reflexivity; congruence.
Qed.

End UniqueProperties.

(** The example of the specification: the payment types ["ach"; "ach"]
    fail, ["ach"; "cc"] pass. *)
Lemma Unique_payment_types :
  uniqueRule.Validate
    (uniqueRule.Unique (fun i => if i =? 0 then "ach" else "ach") "no duplicates")
    (value.VPtr (Some (value.VSlice (Some [value.VStruct []; value.VStruct []]))))
  = Some "not unique"
  /\ uniqueRule.Validate
    (uniqueRule.Unique (fun i => if i =? 0 then "ach" else "cc") "no duplicates")
    (value.VPtr (Some (value.VSlice (Some [value.VStruct []; value.VStruct []]))))
  = None.
Proof. split; vm_compute; reflexivity. Qed.

(** ** [Describe] *)

Section DescribeProperties.

Import value openapi3 describe.

Variable typeName : any -> string.
Variable Convert_float64 : any -> Z.
Variable float64_of_int : Z -> Z.

#[local] Abbreviation Describe := (Describe typeName Convert_float64 float64_of_int).
#[local] Abbreviation Describe_twice :=
  (Describe_twice typeName Convert_float64 float64_of_int).

(** A write of a field does not change the type of the schema. *)
Lemma Is_on_ref_set_Format (a : acc) (x typ : string) :
  Is (ref_Value (on_ref (set_Format x) a)) typ = Is (ref_Value a) typ.
Proof. destruct a as [s|s r]; reflexivity. Qed.

(** Writing the same value twice through [ref.Value] is writing it once. *)
Lemma on_ref_twice (f : Schema -> Schema) (a : acc) :
  (forall s, f (f s) = f s) -> on_ref f (on_ref f a) = on_ref f a.
Proof. intros Hf. destruct a as [s|s r]; cbn; rewrite Hf; reflexivity. Qed.

(** C6, as amended. For every rule whose [Describe] only assigns fields of
    the accumulator (Unique, Min and Max, Deprecate, NotNil, Default,
    Length, Example, In, and Date with neither bound set), two calls of
    [Describe] in succession return what one call returns and leave the
    schema and the accumulator as one call leaves them. *)
Theorem Describe_idempotent_when_assigning (r : Rule) (name : string) (a : acc) :
  assigns r = true -> Describe_twice r name a = Describe r name a.
Proof.
  intros Hr. unfold describe.Describe_twice.
  destruct r as [d|vs|d| |t m| | |rs|d|layout tmin tmax|d|d|d|lo hi|c|d|ex|vs|sk];
    try discriminate Hr.
  - (* Unique *)
    cbn. rewrite on_ref_twice; [reflexivity|]. intros []; reflexivity.
  - (* Threshold *)
    cbn [describe.Describe].
    set (a1 := if Is (ref_Value a) TypeString
               then on_ref (set_Format (typeName t)) a else a).
    assert (Ha1 : (if Is (ref_Value a1) TypeString
                   then on_ref (set_Format (typeName t)) a1 else a1) = a1).
    { subst a1. destruct (Is (ref_Value a) TypeString) eqn:E.
      - rewrite Is_on_ref_set_Format, E.
        apply on_ref_twice. intros []; reflexivity.
      - rewrite E. reflexivity. }
    destruct (getFloat typeName Convert_float64 t) as [[err|x]|] eqn:Ef;
      cbn; [| |reflexivity].
    + rewrite Ha1. reflexivity.
    + destruct m; cbn.
      * assert (Hm : Is (ref_Value (on_ref (set_Min (Some x)) a1)) TypeString
                     = Is (ref_Value a1) TypeString)
          by (destruct a1 as [s|s r]; reflexivity).
        rewrite Hm.
        destruct (Is (ref_Value a1) TypeString) eqn:E1.
        -- assert (Hc : on_ref (set_Format (typeName t))
                          (on_ref (set_Min (Some x)) a1)
                        = on_ref (set_Min (Some x))
                            (on_ref (set_Format (typeName t)) a1))
             by (destruct a1 as [s|s r]; reflexivity).
           rewrite Hc, Ha1.
           rewrite on_ref_twice; [reflexivity|]. intros []; reflexivity.
        -- rewrite on_ref_twice; [reflexivity|]. intros []; reflexivity.
      * assert (Hm : Is (ref_Value (on_ref (set_Max (Some x)) a1)) TypeString
                     = Is (ref_Value a1) TypeString)
          by (destruct a1 as [s|s r]; reflexivity).
        rewrite Hm.
        destruct (Is (ref_Value a1) TypeString) eqn:E1.
        -- assert (Hc : on_ref (set_Format (typeName t))
                          (on_ref (set_Max (Some x)) a1)
                        = on_ref (set_Max (Some x))
                            (on_ref (set_Format (typeName t)) a1))
             by (destruct a1 as [s|s r]; reflexivity).
           rewrite Hc, Ha1.
           rewrite on_ref_twice; [reflexivity|]. intros []; reflexivity.
        -- rewrite on_ref_twice; [reflexivity|]. intros []; reflexivity.
  - (* Deprecate *)
    cbn. rewrite on_ref_twice; [reflexivity|]. intros []; reflexivity.
  - (* NotNil *)
    cbn. rewrite on_ref_twice; [reflexivity|]. intros []; reflexivity.
  - (* Default *)
    cbn. rewrite on_ref_twice; [reflexivity|]. intros []; reflexivity.
  - (* Date, no bound *)
    cbn in Hr. apply andb_prop in Hr as [Hmin Hmax].
    cbn. rewrite Hmin, Hmax. cbn.
    rewrite on_ref_twice; [reflexivity|]. intros []; reflexivity.
  - (* Length *)
    cbn. destruct a as [s|s r]; destruct s; reflexivity.
  - (* Example *)
    cbn. rewrite on_ref_twice; [reflexivity|]. intros []; reflexivity.
  - (* In *)
    cbn. rewrite on_ref_twice; [reflexivity|]. intros []; reflexivity.
Qed.

End DescribeProperties.

(** A use of the theorem: [Deprecate] described twice on a fresh property. *)
Lemma Describe_idempotent_witness :
  describe.Describe_twice (fun _ => "") (fun _ => 0) (fun n => n)
    describe.Deprecate "name" (openapi3.Separate openapi3.empty openapi3.empty)
  = describe.Describe (fun _ => "") (fun _ => 0) (fun n => n)
      describe.Deprecate "name" (openapi3.Separate openapi3.empty openapi3.empty).
Proof.
  apply (Describe_idempotent_when_assigning (fun _ => "") (fun _ => 0) (fun n => n)
           describe.Deprecate "name"
           (openapi3.Separate openapi3.empty openapi3.empty)).
  reflexivity.
Defined.

(** C6 fails as stated: [Describe("x")] (the rule [describe]) called twice
    on a fresh property writes the description "x x", where one call
    writes "x"; [Required] called twice lists the name twice. *)
Lemma Describe_appends_twice :
  let D := describe.Describe (fun _ => "") (fun _ => 0) (fun n => n) in
  let D2 := describe.Describe_twice (fun _ => "") (fun _ => 0) (fun n => n) in
  let fresh := openapi3.Separate openapi3.empty openapi3.empty in
  D (describe.Describe_ "x") "name" fresh
    = Return (None, openapi3.Separate openapi3.empty
                      (openapi3.set_Description "x" openapi3.empty))
  /\ D2 (describe.Describe_ "x") "name" fresh
    = Return (None, openapi3.Separate openapi3.empty
                      (openapi3.set_Description "x x" openapi3.empty))
  /\ D describe.Required_ "name" fresh
    = Return (None, openapi3.Separate
                      (openapi3.set_Required ["name"] openapi3.empty)
                      openapi3.empty)
  /\ D2 describe.Required_ "name" fresh
    = Return (None, openapi3.Separate
                      (openapi3.set_Required ["name"; "name"] openapi3.empty)
                      openapi3.empty).
Proof. repeat split. Qed.

(** ** Skip on empty *)

Section RulesProperties.

Import value rules.

Variable typeName : any -> string.
Variable Sprint : any -> string.
Variable ThresholdRule_Validate : any -> bool -> any -> option error.
Variable InRule_Validate : list any -> any -> option error.
Variables ParseInt ParseUint ParseFloat : string -> option any.

#[local] Abbreviation Validate :=
  (Validate typeName Sprint ThresholdRule_Validate InRule_Validate
     ParseInt ParseUint ParseFloat).

(** Indirection goes through a pointer. *)
Lemma Indirect_VPtr (v : any) : Indirect (VPtr (Some v)) = Indirect v.
Proof. destruct v; reflexivity. Qed.

Lemma IsEmpty_VPtr (v : any) : IsEmpty (VPtr (Some v)) = IsEmpty v.
Proof. destruct v; reflexivity. Qed.

(** The test [isNil || validation.IsEmpty(value)] that opens the
    skip-on-empty rules holds of every empty value. *)
Lemma Empty_is_skipped (v : any) :
  Empty v -> (Indirect v).2 || IsEmpty (Indirect v).1 = true.
Proof.
  induction 1 as [| | |k|k|k|t| | | | | | |v Hv IH|v Hv IH];
    try reflexivity.
  - destruct k; reflexivity.
  - rewrite Indirect_VPtr. exact IH.
  - exact IH.
Qed.


(** A string of white space only passes HasAlphabetic and
    NonCreditCardNumber as the empty string does. *)
Lemma hasAlphabetic_blank (r : hasAlphabetic) (s : string) :
  TrimSpace s = "" -> hasAlphabetic_Validate typeName r (VString None s) = None.
Proof. intros Hs. cbn. rewrite Hs. reflexivity. Qed.

End RulesProperties.



(** ** The embedding expander *)

Section ExpandProperties.

Import engine.
Context {Ctx Rule : Type}.
#[local] Abbreviation any := (any Ctx Rule).
#[local] Abbreviation FieldRules := (FieldRules Ctx Rule).

(** Sequencing two computations that return. *)
Lemma bind_Return_r {A} (r : result A) : (x ← r; Return x) = r.
Proof. destruct r; reflexivity. Qed.

(** The loop over the fields of a struct, one field at a time. *)
Lemma findStructField_nil (canAddr : bool) t m (fieldValue : any) :
  findStructField canAddr (StructV t m []) fieldValue = Return None.
Proof. reflexivity. Qed.

Lemma findStructField_cons (canAddr : bool) t m sf a fi rest (fieldValue : any) :
  findStructField canAddr (StructV t m ((sf, a, fi) :: rest)) fieldValue
  = found ← findStructField canAddr (StructV t m rest) fieldValue;
    match found with
    | Some f => Return (Some f)
    | None =>
        hit ← field_matches canAddr sf a fieldValue;
        if hit : bool then Return (Some sf)
        else if Anonymous sf then
          delve (fun canAddr fi => findStructField canAddr fi fieldValue)
            canAddr sf fi
        else Return None
    end.
Proof. reflexivity. Qed.

(** The fields after a field are searched first: what they give is the
    result, and the fields before are searched only when they and the
    field give nothing. *)
Lemma findStructField_app (canAddr : bool) t m before after (fieldValue : any) :
  findStructField canAddr (StructV t m (before ++ after)) fieldValue
  = found ← findStructField canAddr (StructV t m after) fieldValue;
    match found with
    | Some f => Return (Some f)
    | None => findStructField canAddr (StructV t m before) fieldValue
    end.
Proof.
  induction before as [|[[sf a] fi] before IH].
  - cbn [app]. rewrite findStructField_nil.
    destruct (findStructField canAddr (StructV t m after) fieldValue)
      as [[f|]|]; reflexivity.
  - cbn [app]. rewrite !findStructField_cons, IH.
    destruct (findStructField canAddr (StructV t m after) fieldValue)
      as [[f|]|]; reflexivity.
Qed.

(** The loop of [expandFields] distributes over the list of bindings: each
    binding is expanded in its place. *)
Lemma expandLoop_app expand (canAddr : bool) (structVal : any)
    (l1 l2 : list FieldRules) :
  expandLoop expand canAddr structVal (l1 ++ l2)
  = r1 ← expandLoop expand canAddr structVal l1;
    r2 ← expandLoop expand canAddr structVal l2;
    Return (r1 ++ r2).
Proof.
  induction l1 as [|fr l1 IH]; cbn [app expandLoop].
  - cbn. rewrite bind_Return_r. reflexivity.
  - rewrite IH.
    destruct (expandOne expand canAddr structVal fr) as [h|]; [|reflexivity].
    cbn.
    destruct (expandLoop expand canAddr structVal l1) as [r1|]; [|reflexivity].
    cbn.
    destruct (expandLoop expand canAddr structVal l2) as [r2|]; [|reflexivity].
    cbn. rewrite app_assoc. reflexivity.
Qed.

(** The loop depends on [expand] only at the pointers of the bindings. *)
Lemma expandLoop_ext expand1 expand2 (canAddr : bool) (structVal : any)
    (fields : list FieldRules) :
  (forall fr, fr ∈ fields ->
     expand1 (Interface_of (fieldPtr fr)) = expand2 (Interface_of (fieldPtr fr))) ->
  expandLoop expand1 canAddr structVal fields
  = expandLoop expand2 canAddr structVal fields.
Proof.
  induction fields as [|fr fields IH]; intros Hext; [reflexivity|].
  cbn [expandLoop]. rewrite IH by (intros; apply Hext; set_solver).
  assert (Hone : expandOne expand1 canAddr structVal fr
                 = expandOne expand2 canAddr structVal fr).
  { unfold expandOne. rewrite (Hext fr) by set_solver. reflexivity. }
  rewrite Hone. reflexivity.
Qed.

(** The recursion of [expandFields], as the source writes it:
    [expandEmbedded] is [expandFields] on the bindings the embedded pointer
    declares. *)
Lemma expandEmbedded_Ruler (ctx : Ctx) elem addr target
    (Rules : list FieldRules) :
  as_Ruler (Pointer elem addr target) = IsRuler Rules ->
  expandEmbedded ctx (Pointer elem addr target)
  = expandFields ctx (Pointer elem addr target) Rules.
Proof.
  intros Hr. destruct target as [structVal|]; [|discriminate Hr].
  destruct structVal as [|t m d| | | | | |]; cbn in Hr |- *;
    try discriminate Hr; rewrite ?Hr; try reflexivity.
  unfold expandFields. cbn.
  destruct d as [?|k ?|k ?|k ?|w|?| | |]; try destruct k; try destruct w;
    reflexivity.
Qed.

Lemma expandEmbedded_ContextRuler (ctx : Ctx) elem addr target
    (Rules : Ctx -> list FieldRules) :
  as_Ruler (Pointer elem addr target) = IsContextRuler Rules ->
  expandEmbedded ctx (Pointer elem addr target)
  = expandFields ctx (Pointer elem addr target) (Rules ctx).
Proof.
  intros Hr. destruct target as [structVal|]; [|discriminate Hr].
  destruct structVal as [|t m d| | | | | |]; cbn in Hr |- *;
    try discriminate Hr; rewrite ?Hr; try reflexivity.
  unfold expandFields. cbn.
  destruct d as [?|k ?|k ?|k ?|w|?| | |]; try destruct k; try destruct w;
    reflexivity.
Qed.

End ExpandProperties.

(** ** The two call sites of the expander *)

Section CallSites.

Import engine.
Context {Ctx Rule : Type} `{!Env Ctx Rule}.
#[local] Abbreviation any := (any Ctx Rule).
#[local] Abbreviation FieldRules := (FieldRules Ctx Rule).

(** The recursive call of the loop, for a pointer that implements a
    declarator, is [expandFields] on the bindings it declares. *)
Lemma expandEmbedded_declared (ctx : Ctx) (p : any) :
  Kind_of p = Ptr -> as_Ruler p <> NoRuler ->
  expandEmbedded ctx p = expandFields ctx p (declared ctx p).
Proof.
  intros Hk Hr. destruct p as [| |elem addr target| | | | |]; try discriminate Hk.
  - destruct d as [?|k ?|k ?|k ?|w|?| | |]; try destruct k; try destruct w;
      discriminate Hk.
  - unfold declared.
    destruct (as_Ruler (Pointer elem addr target)) as [|Rules|Rules] eqn:E.
    + congruence.
    + apply expandEmbedded_Ruler, E.
    + apply expandEmbedded_ContextRuler, E.
Qed.

(** One binding expands the same under two contexts when the embedded
    sub-container it binds, if any, does. *)
Lemma expandOne_ctx (ctx1 ctx2 : Ctx) (canAddr : bool) (structVal : any)
    (fr : FieldRules) :
  expandFields ctx1 (fieldPtr fr) (declared ctx1 (fieldPtr fr))
  = expandFields ctx2 (fieldPtr fr) (declared ctx2 (fieldPtr fr)) ->
  expandOne (expandEmbedded ctx1) canAddr structVal fr
  = expandOne (expandEmbedded ctx2) canAddr structVal fr.
Proof.
  intros Hfr. unfold expandOne.
  destruct (bool_decide (Kind_of (fieldPtr fr) = Ptr)) eqn:Hk; [|reflexivity].
  apply bool_decide_eq_true_1 in Hk.
  assert (Hi : Interface_of (fieldPtr fr) = fieldPtr fr)
    by (destruct (fieldPtr fr); try reflexivity; discriminate Hk).
  rewrite Hi.
  destruct (findStructField canAddr structVal (fieldPtr fr)) as [[sf|]|];
    try reflexivity.
  cbn. destruct (Anonymous sf); [|reflexivity].
  destruct (as_Ruler (fieldPtr fr)) as [|Rules|Rules] eqn:E; [reflexivity| |];
    rewrite !expandEmbedded_declared by (try exact Hk; rewrite E; discriminate);
    exact Hfr.
Qed.

Lemma expandFields_ctx (ctx1 ctx2 : Ctx) (structPtr : any)
    (fields : list FieldRules) :
  (forall fr, fr ∈ fields ->
     expandFields ctx1 (fieldPtr fr) (declared ctx1 (fieldPtr fr))
     = expandFields ctx2 (fieldPtr fr) (declared ctx2 (fieldPtr fr))) ->
  expandFields ctx1 structPtr fields = expandFields ctx2 structPtr fields.
Proof.
  intros Hall. unfold expandFields.
  destruct (negb (IsValid (Indirect structPtr))
            || negb (bool_decide (Kind_of (Indirect structPtr) = Struct)));
    [reflexivity|].
  induction fields as [|fr fields IH]; [reflexivity|].
  cbn [expandLoop].
  rewrite (expandOne_ctx ctx1 ctx2) by (apply Hall; set_solver).
  rewrite IH by (intros; apply Hall; set_solver).
  reflexivity.
Qed.


End CallSites.



(** ** Expansion in place, and the keys of the flat bindings *)

Section Embedding.

Import engine.
Context {Ctx Rule : Type}.
#[local] Abbreviation any := (any Ctx Rule).
#[local] Abbreviation FieldRules := (FieldRules Ctx Rule).

(** [expandFields] on a pointer to a struct is the loop. *)
Lemma expandFields_struct (ctx : Ctx) (structPtr : any)
    (fields : list FieldRules) :
  Kind_of (Indirect structPtr) = Struct ->
  expandFields ctx structPtr fields
  = expandLoop (expandEmbedded ctx) (Indirect_CanAddr structPtr)
      (Indirect structPtr) fields.
Proof.
  intros Hk. unfold expandFields, IsValid. rewrite Hk. reflexivity.
Qed.

(** The loop around one binding: what comes before and after it is
    expanded for itself. *)
Lemma expandFields_middle (ctx : Ctx) (structPtr : any)
    (pre post : list FieldRules) (fr : FieldRules) :
  Kind_of (Indirect structPtr) = Struct ->
  expandFields ctx structPtr (pre ++ fr :: post)
  = (a ← expandFields ctx structPtr pre;
     b ← expandOne (expandEmbedded ctx) (Indirect_CanAddr structPtr)
           (Indirect structPtr) fr;
     c ← expandFields ctx structPtr post;
     Return (a ++ b ++ c)).
Proof.
  intros Hk. rewrite !expandFields_struct by exact Hk.
  rewrite expandLoop_app. cbn [expandLoop].
  destruct (expandLoop (expandEmbedded ctx) (Indirect_CanAddr structPtr)
              (Indirect structPtr) pre) as [a|]; [|reflexivity].
  cbn.
  destruct (expandOne (expandEmbedded ctx) (Indirect_CanAddr structPtr)
              (Indirect structPtr) fr) as [b|]; [|reflexivity].
  cbn.
  destruct (expandLoop (expandEmbedded ctx) (Indirect_CanAddr structPtr)
              (Indirect structPtr) post) as [c|]; reflexivity.
Qed.

(** A field found inside an embedded struct is the field found from the
    enclosing struct, when no field after the embedded one answers and the
    embedded struct itself is not what the pointer points to. *)
Lemma findStructField_embedded t m before sfE aE (E : any) after
    (fieldValue : any) (sf : StructField) :
  Anonymous sfE = true ->
  type_Kind (Type_ sfE) <> Ptr ->
  Kind_of E = Struct ->
  findStructField true (StructV t m after) fieldValue = Return None ->
  field_matches true sfE aE fieldValue = Return false ->
  findStructField true E fieldValue = Return (Some sf) ->
  findStructField true (StructV t m (before ++ (sfE, aE, E) :: after)) fieldValue
  = Return (Some sf).
Proof.
  intros Hanon Hptr HE Hafter Hhit Hin.
  rewrite findStructField_app, findStructField_cons, Hafter. cbn.
  rewrite Hhit. cbn. rewrite Hanon. unfold delve.
  rewrite bool_decide_eq_false_2 by exact Hptr.
  destruct E as [|t' m' d| | | | | |];
    try discriminate HE.
  - destruct d as [?|k ?|k ?|k ?|w|?| | |]; try destruct k; try destruct w;
      discriminate HE.
  - rewrite Hin. reflexivity.
Qed.


End Embedding.


(** ** Tag resolution failures at schema generation *)

Section TagResolution.

Import engine.
Context {Ctx Rule : Type} `{!Env Ctx Rule}.
#[local] Abbreviation any := (any Ctx Rule).
#[local] Abbreviation FieldRules := (FieldRules Ctx Rule).

(** The first binding that does not resolve ends [mapFieldsToTags] with
    its error: no binding is skipped. *)
Lemma mapFieldsToTags_from_unresolved (canAddr : bool) (structVal : any)
    (good : list FieldRules) (bad : FieldRules) (rest : list FieldRules) (i : Z) :
  Forall (resolves canAddr structVal) good ->
  unresolved canAddr structVal bad ->
  exists fields',
    mapFieldsToTags_from i (good ++ bad :: rest) canAddr structVal
    = Return (fields',
              Some (tag_error (i + Z.of_nat (length good)) structVal bad)).
Proof.
  intros Hgood Hbad. revert i.
  induction Hgood as [|fr good [Hptr [sf Hsf]] _ IH]; intros i.
  - cbn [app length]. replace (i + Z.of_nat 0) with i by lia.
    cbn [mapFieldsToTags_from]. unfold tag_error.
    destruct Hbad as [Hptr|Hnone].
    + rewrite bool_decide_eq_false_2 by exact Hptr. cbn. eauto.
    + destruct (bool_decide (Kind_of (fieldPtr bad) = Ptr)) eqn:Hk.
      * cbn. rewrite Hnone. cbn.
        assert (Ht : exists t, TypeOf structVal = Return t).
        { destruct structVal; try discriminate Hnone; eauto. }
        destruct Ht as [t Ht]. rewrite Ht. cbn. eauto.
      * cbn. eauto.
  - cbn [app length mapFieldsToTags_from].
    rewrite bool_decide_eq_true_2 by exact Hptr. cbn.
    rewrite Hsf. cbn.
    destruct (IH (i + 1)) as [fields' Hfields']. rewrite Hfields'. cbn.
    replace (i + 1 + Z.of_nat (length good))
      with (i + Z.of_nat (S (length good))) by lia.
    eauto.
Qed.

(** The loop of [NewRequest] stops at the first value whose schema
    generation fails, with its error. *)
Lemma NewRequest_from_error (ok : list any) (v : any) (rest : list any)
    (err : error) (oneOf : list openapi3.Schema) :
  Forall (fun v' => exists s, newSchemaRefForValue v' = Return (inr s)) ok ->
  newSchemaRefForValue v = Return (inl err) ->
  NewRequest_from (ok ++ v :: rest) oneOf = Return (inl err).
Proof.
  intros Hok Hv. revert oneOf.
  induction Hok as [|v' ok [s Hs] _ IH]; intros oneOf; cbn [app NewRequest_from].
  - rewrite Hv. reflexivity.
  - rewrite Hs. cbn. apply IH.
Qed.


End TagResolution.


(** ** The validation traversal *)

Section ValidateProperties.

Import engine.
Context {Ctx Rule : Type} `{!Env Ctx Rule}.
#[local] Abbreviation any := (any Ctx Rule).
#[local] Abbreviation FieldRules := (FieldRules Ctx Rule).

(** The kind of a scalar is none of the composite kinds. *)
Lemma scalar_Kind_not_composite (d : scalar) :
  scalar_Kind d <> Ptr /\ scalar_Kind d <> Struct /\ scalar_Kind d <> Slice
  /\ scalar_Kind d <> Array /\ scalar_Kind d <> Map
  /\ scalar_Kind d <> Interface /\ scalar_Kind d <> Invalid.
Proof.
  destruct d as [?|k ?|k ?|k ?|w|?| | |]; try destruct k; try destruct w;
    repeat split; discriminate.
Qed.

(** A value that implements a declarator, and is not a nil pointer, is
    validated by the first branches of [validateCore]. *)
Lemma validateCore_declared (ctx : Ctx) (value : any) r :
  validateDeclared ctx value (as_Ruler value) = Some r ->
  validateCore ctx value = r.
Proof.
  intros Hd.
  assert (Hnil : bool_decide (Kind_of value = Ptr) && IsNil value = false).
  { destruct value as [| |elem addr [t|]| | | | |]; try reflexivity.
    - cbn. apply andb_false_r.
    - discriminate Hd. }
  destruct value; cbn [validateCore]; rewrite Hnil, Hd; reflexivity.
Qed.

(** The function [validateElement] hands to its body is [validateCore] on
    the two values the body passes to it. *)
Lemma validateElement_body_near (ctx : Ctx) (canAddr : bool) (v : any) :
  validateElement_body (core_near ctx (validateCore ctx v)) canAddr v
  = validateElement ctx canAddr v.
Proof.
  unfold validateElement, validateElement_body.
  destruct ((bool_decide (Kind_of v = Ptr) || bool_decide (Kind_of v = Interface))
            && IsNil v); [reflexivity|].
  assert (Hnear : forall x, as_Ruler x <> NoRuler ->
                    core_near ctx (validateCore ctx v) x = validateCore ctx x).
  { intros x Hx. unfold core_near.
    destruct (validateDeclared ctx x (as_Ruler x)) as [r|] eqn:E.
    - symmetry. apply validateCore_declared, E.
    - destruct (as_Ruler x); [congruence|discriminate E|discriminate E]. }
  assert (Hself : forall x, x = v ->
                    core_near ctx (validateCore ctx v) x = validateCore ctx x).
  { intros x ->. unfold core_near.
    destruct (validateDeclared ctx v (as_Ruler v)) as [r|] eqn:E.
    - symmetry. apply validateCore_declared, E.
    - reflexivity. }
  assert (Hnested :
            match Kind_of v with
            | Slice | Array | Map =>
                core_near ctx (validateCore ctx v) (Interface_of v)
            | _ => Return None
            end
            = match Kind_of v with
              | Slice | Array | Map => validateCore ctx (Interface_of v)
              | _ => Return None
              end).
  { destruct v; cbn [Kind_of Interface_of]; try reflexivity;
      try (apply Hself; reflexivity).
    destruct (scalar_Kind d); try reflexivity; apply Hself; reflexivity. }
  rewrite Hnested.
  destruct (if canAddr then Some (pointer_to v)
            else if bool_decide (Kind_of v = Struct) then Some (pointer_to v)
                 else None) as [pi|]; [|reflexivity].
  destruct (as_Ruler pi) eqn:E; [reflexivity| |];
    apply Hnear; rewrite E; discriminate.
Qed.

(** [validateCore] is the function the source writes. *)
Lemma validateCore_eq_source (ctx : Ctx) (value : any) :
  validateCore ctx value = validateCore_source ctx value.
Proof.
  assert (Hslice : forall canAddr elems i errs,
            (fix slice (i : Z) (elems : list any) (errs : gmap string Error)
               {struct elems} : result (gmap string Error) :=
               match elems with
               | [] => Return errs
               | v :: rest =>
                   err ← validateElement_body
                           (core_near ctx (validateCore ctx v)) canAddr v;
                   slice (i + 1) rest (record_error (Itoa i) err errs)
               end) i elems errs
            = validateSlice_from ctx canAddr i elems errs).
  { intros canAddr elems. induction elems as [|v rest IH]; intros i errs;
      [reflexivity|].
    cbn [validateSlice_from]. rewrite validateElement_body_near.
    destruct (validateElement ctx canAddr v) as [err|]; [|reflexivity].
    cbn. apply IH. }
  assert (Hmap : forall entries errs,
            (fix map_ (entries : list (any * any)) (errs : gmap string Error)
               {struct entries} : result (gmap string Error) :=
               match entries with
               | [] => Return errs
               | (key, v) :: rest =>
                   err ← validateElement_body
                           (core_near ctx (validateCore ctx v)) false v;
                   map_ rest (record_error (Sprint (Interface_of key)) err errs)
               end) entries errs
            = validateMap_from ctx entries errs).
  { intros entries. induction entries as [|[key v] rest IH]; intros errs;
      [reflexivity|].
    cbn [validateMap_from]. rewrite validateElement_body_near.
    destruct (validateElement ctx false v) as [err|]; [|reflexivity].
    cbn. apply IH. }
  unfold validateCore_source.
  destruct value as [|t m d|elem addr [rv|]|t c|t m elems|t m elems|t m entries
                     |t m fields];
    cbn [validateCore Indirect Indirect_CanAddr];
    repeat match goal with
      | |- (if ?b then _ else _) = (if ?b then _ else _) =>
          destruct b eqn:?; [reflexivity|]
      | |- match ?x with Some _ => _ | None => _ end
           = match ?x with Some _ => _ | None => _ end =>
          destruct x; [reflexivity|]
      end;
    try reflexivity.
  - (* a pointer *)
    destruct rv as [|t' m' d'|elem' addr' [e|]|t' c|t' m' elems|t' m' elems
                    |t' m' entries|t' m' fields]; try reflexivity.
    + destruct e; reflexivity.
    + destruct (type_Elem t') as [e|]; [|reflexivity]. cbn.
      destruct (shouldAutoValidate e); [|reflexivity].
      unfold validateSlice. rewrite Hslice. reflexivity.
    + destruct (type_Elem t') as [e|]; [|reflexivity]. cbn.
      destruct (shouldAutoValidate e); [|reflexivity].
      unfold validateSlice. rewrite Hslice. reflexivity.
    + destruct (type_Elem t') as [e|]; [|reflexivity]. cbn.
      destruct (shouldAutoValidate e); [|reflexivity].
      unfold validateMap. rewrite Hmap. reflexivity.
  - (* an interface cell *)
    destruct c; try reflexivity.
    match goal with
    | H : (_ || _) && _ = false |- _ => vm_compute in H; discriminate H
    end.
  - destruct (type_Elem t) as [e|]; [|reflexivity]. cbn.
    destruct (shouldAutoValidate e); [|reflexivity].
    unfold validateSlice. rewrite Hslice. reflexivity.
  - destruct (type_Elem t) as [e|]; [|reflexivity]. cbn.
    destruct (shouldAutoValidate e); [|reflexivity].
    unfold validateSlice. rewrite Hslice. reflexivity.
  - destruct (type_Elem t) as [e|]; [|reflexivity]. cbn.
    destruct (shouldAutoValidate e); [|reflexivity].
    unfold validateMap. rewrite Hmap. reflexivity.
Qed.

End ValidateProperties.

(** ** The keys of the errors of a collection *)

Section CollectionKeys.

Import engine.
Context {Ctx Rule : Type} `{!Env Ctx Rule}.
#[local] Abbreviation any := (any Ctx Rule).

(** [strconv.Itoa] gives different strings for different integers. *)
Lemma Itoa_inj (i j : Z) : Itoa i = Itoa j -> i = j.
Proof.
  unfold Itoa. intros H.
  assert (Hnonnil : forall z, Z.to_int z <> Decimal.Pos Decimal.Nil
                              /\ Z.to_int z <> Decimal.Neg Decimal.Nil).
  { intros [|p|p]; cbn; split; try discriminate;
      intros [=E]; exact (DecimalPos.Unsigned.to_uint_nonnil p E). }
  apply (f_equal NilZero.int_of_string) in H.
  rewrite !NilZero.isi in H by apply Hnonnil.
  injection H as H. apply (f_equal Z.of_int) in H.
  rewrite !DecimalZ.of_to in H. exact H.
Qed.

(** The loop of [validateSlice] from the index [i] on: the element at
    [i + j] stores its error under [Itoa (i + j)], and no other key is
    touched. *)
Lemma validateSlice_from_keys (ctx : Ctx) (canAddr : bool)
    (elems : list any) (rs : list (option Error)) :
  Forall2 (fun v r => validateElement ctx canAddr v = Return r) elems rs ->
  forall (i : Z) (errs0 : gmap string Error),
  exists errs,
    validateSlice_from ctx canAddr i elems errs0 = Return errs
    /\ (forall (j : nat) r, rs !! j = Some r ->
          errs !! Itoa (i + Z.of_nat j)
          = match r with
            | Some e => Some e
            | None => errs0 !! Itoa (i + Z.of_nat j)
            end)
    /\ (forall k, (forall j : nat, (j < length rs)%nat ->
                     k <> Itoa (i + Z.of_nat j)) ->
          errs !! k = errs0 !! k).
Proof.
  induction 1 as [|v r elems rs Hv _ IH]; intros i errs0.
  - exists errs0. split; [reflexivity|]. split; [|reflexivity].
    intros j r Hj. rewrite lookup_nil in Hj. discriminate.
  - destruct (IH (i + 1) (record_error (Itoa i) r errs0))
      as (errs & Hrun & Hat & Hother).
    exists errs. cbn [validateSlice_from]. rewrite Hv. cbn.
    split; [exact Hrun|]. split.
    + intros [|j] r' Hj.
      * cbn in Hj. injection Hj as <-.
        rewrite Hother.
        -- replace (i + Z.of_nat 0) with i by lia.
           destruct r as [e|]; cbn; [apply lookup_insert_eq|reflexivity].
        -- intros j _ E. apply Itoa_inj in E. lia.
      * cbn in Hj. specialize (Hat j r' Hj).
        replace (i + Z.of_nat (S j)) with (i + 1 + Z.of_nat j) by lia.
        rewrite Hat. destruct r' as [e'|]; [reflexivity|].
        destruct r as [e|]; cbn; [|reflexivity].
        apply lookup_insert_ne. intros E. apply Itoa_inj in E. lia.
    + intros k Hk. rewrite Hother.
      * destruct r as [e|]; cbn; [|reflexivity].
        apply lookup_insert_ne. intros <-.
        apply (Hk 0%nat); [cbn; lia|]. f_equal. lia.
      * intros j Hj E. apply (Hk (S j)); [cbn; lia|].
        rewrite E. f_equal. lia.
Qed.

(** The loop of [validateMap]: every key of the result that was not there
    before is the printed key of an entry and holds the error of that
    entry; the error of an entry is stored under its printed key, and stays
    there unless a later entry prints the same key; the other keys are not
    touched. *)
Lemma validateMap_from_keys (ctx : Ctx) (entries : list (any * any))
    (rs : list (option Error)) :
  Forall2 (fun kv r => validateElement ctx false kv.2 = Return r) entries rs ->
  forall errs0 : gmap string Error,
  exists errs,
    validateMap_from ctx entries errs0 = Return errs
    /\ (forall k e, errs !! k = Some e ->
          (exists (j : nat) key v,
              entries !! j = Some (key, v)
              /\ Sprint (Interface_of key) = k
              /\ rs !! j = Some (Some e))
          \/ errs0 !! k = Some e)
    /\ (forall (j : nat) key v e,
          entries !! j = Some (key, v) -> rs !! j = Some (Some e) ->
          (forall (j' : nat) key' v', (j < j')%nat ->
             entries !! j' = Some (key', v') ->
             Sprint (Interface_of key') <> Sprint (Interface_of key)) ->
          errs !! Sprint (Interface_of key) = Some e)
    /\ (forall k, (forall (j : nat) key v, entries !! j = Some (key, v) ->
                     Sprint (Interface_of key) <> k) ->
          errs !! k = errs0 !! k).
Proof.
  induction 1 as [|[key0 v0] r0 entries rs Hv _ IH]; intros errs0.
  - exists errs0. split; [reflexivity|]. repeat split.
    + intros k e Hk. right. exact Hk.
    + intros j key v r Hj. rewrite lookup_nil in Hj. discriminate.
  - destruct (IH (record_error (Sprint (Interface_of key0)) r0 errs0))
      as (errs & Hrun & Hfrom & Hat & Hother).
    exists errs. cbn [validateMap_from]. cbn in Hv. rewrite Hv. cbn.
    split; [exact Hrun|]. repeat split.
    + intros k e Hk.
      destruct (Hfrom k e Hk) as [(j & key & v & Hj & Hs & Hr)|H0].
      * left. exists (S j), key, v. auto.
      * destruct r0 as [e0|]; cbn in H0; [|right; exact H0].
        destruct (decide (Sprint (Interface_of key0) = k)) as [<-|Hne].
        -- rewrite lookup_insert_eq in H0. injection H0 as ->.
           left. exists 0%nat, key0, v0. auto.
        -- rewrite lookup_insert_ne in H0 by exact Hne. right. exact H0.
    + intros [|j] key v e Hj Hr Hlater.
      * cbn in Hj, Hr. injection Hj as <- <-. injection Hr as ->.
        rewrite Hother; [apply lookup_insert_eq|].
        intros j' key' v' Hj'.
        apply (Hlater (S j') key' v'); [lia|exact Hj'].
      * cbn in Hj, Hr. apply (Hat j key v e Hj Hr).
        intros j' key' v' Hlt Hj'.
        apply (Hlater (S j') key' v'); [lia|exact Hj'].
    + intros k Hk. rewrite Hother.
      * destruct r0 as [e0|]; cbn; [|reflexivity].
        apply lookup_insert_ne. apply (Hk 0%nat key0 v0). reflexivity.
      * intros j key v Hj. apply (Hk (S j) key v). exact Hj.
Qed.

(** A nil pointer and a nil interface are skipped. *)
Lemma validateElement_nil (ctx : Ctx) (canAddr : bool) (v : any) :
  Kind_of v = Ptr \/ Kind_of v = Interface -> IsNil v = true ->
  validateElement ctx canAddr v = Return None.
Proof.
  intros Hk Hn. unfold validateElement, validateElement_body. rewrite Hn.
  destruct Hk as [-> | ->]; reflexivity.
Qed.

(** [validateCore] on a collection whose type has no methods and whose
    elements are auto-validated runs [validateSlice] or [validateMap]. *)
Lemma validateCore_collection (ctx : Ctx) (value : any) (e : type) :
  as_Ruler value = NoRuler -> as_ValueRuler value = None ->
  (TypeOf value ≫= type_Elem) = Return e -> shouldAutoValidate e = true ->
  validateCore ctx value
  = match value with
    | SliceV _ _ elems => validateSlice ctx true elems
    | ArrayV _ _ elems => validateSlice ctx false elems
    | MapV _ _ entries => validateMap ctx entries
    | _ => validateCore ctx value
    end.
Proof.
  intros Hr Hv He Ha.
  destruct value as [| | | |t m elems|t m elems|t m entries|]; try reflexivity;
    rewrite validateCore_eq_source; unfold validateCore_source;
    rewrite Hr, Hv; cbn in He |- *; rewrite He; cbn; rewrite Ha; reflexivity.
Qed.

(** [errors_or_nil] is nil exactly on the empty map. *)
Lemma errors_or_nil_spec (errs : gmap string Error) :
  errors_or_nil errs = if decide (errs = ∅) then None else Some (Errors errs).
Proof.
  unfold errors_or_nil. destruct (decide (errs = ∅)) as [->|Hne].
  - reflexivity.
  - apply map_size_non_empty_iff in Hne.
    destruct (Nat.ltb_spec 0 (size errs)); [reflexivity|lia].
Qed.

(** C3.  The errors of an auto-validated collection.  A slice or an array
    whose elements validate to the results [rs] gives the map that holds,
    under the decimal string of [i], the error of the element [i], for
    every invalid element and for nothing else; that map is the result,
    and the result is nil when the map is empty.  For a map, every key of
    the result is the printed key ([fmt.Sprintf] with [%v]) of an invalid
    entry and holds the error of such an entry, and an entry whose printed
    key no other entry shares has its own result under that key.  A nil
    pointer and a nil interface element validate to nil, so they add no
    key.  [validateCore] runs these loops on a slice, an array and a map
    whose element type is auto-validated. *)
Theorem collection_error_keys (ctx : Ctx) :
  (forall (canAddr : bool) (elems : list any) (rs : list (option Error)),
      Forall2 (fun v r => validateElement ctx canAddr v = Return r) elems rs ->
      exists errs,
        validateSlice ctx canAddr elems = Return (errors_or_nil errs)
        /\ (forall k e, errs !! k = Some e
                        <-> exists i : nat,
                              k = Itoa (Z.of_nat i) /\ rs !! i = Some (Some e)))
  /\ (forall (entries : list (any * any)) (rs : list (option Error)),
        Forall2 (fun kv r => validateElement ctx false kv.2 = Return r)
          entries rs ->
        exists errs,
          validateMap ctx entries = Return (errors_or_nil errs)
          /\ (forall k e, errs !! k = Some e ->
                exists (j : nat) key v,
                  entries !! j = Some (key, v)
                  /\ Sprint (Interface_of key) = k
                  /\ rs !! j = Some (Some e))
          /\ (forall (j : nat) key v r,
                entries !! j = Some (key, v) -> rs !! j = Some r ->
                (forall (j' : nat) key' v', j' <> j ->
                   entries !! j' = Some (key', v') ->
                   Sprint (Interface_of key') <> Sprint (Interface_of key)) ->
                errs !! Sprint (Interface_of key) = r))
  /\ (forall (canAddr : bool) (v : any),
        Kind_of v = Ptr \/ Kind_of v = Interface -> IsNil v = true ->
        validateElement ctx canAddr v = Return None)
  /\ (forall errs : gmap string Error,
        errors_or_nil errs
        = if decide (errs = ∅) then None else Some (Errors errs))
  /\ (forall (value : any) (e : type),
        as_Ruler value = NoRuler -> as_ValueRuler value = None ->
        (TypeOf value ≫= type_Elem) = Return e -> shouldAutoValidate e = true ->
        validateCore ctx value
        = match value with
          | SliceV _ _ elems => validateSlice ctx true elems
          | ArrayV _ _ elems => validateSlice ctx false elems
          | MapV _ _ entries => validateMap ctx entries
          | _ => validateCore ctx value
          end).
Proof.
  split; [|split; [|split; [|split]]].
  - intros canAddr elems rs Hrs.
    destruct (validateSlice_from_keys ctx canAddr elems rs Hrs 0 ∅)
      as (errs & Hrun & Hat & Hother).
    exists errs. unfold validateSlice. rewrite Hrun. split; [reflexivity|].
    intros k e. split.
    + intros Hk.
      destruct (decide (Exists (fun j : nat => k = Itoa (Z.of_nat j))
                          (seq 0 (length rs)))) as [Hex|Hno].
      * apply Exists_exists in Hex. destruct Hex as (j & Hj & ->).
        apply elem_of_seq in Hj.
        destruct (lookup_lt_is_Some_2 rs j) as [r Hr]; [lia|].
        exists j. split; [reflexivity|].
        specialize (Hat j r Hr).
        change (0 + Z.of_nat j) with (Z.of_nat j) in Hat. rewrite Hat in Hk.
        destruct r as [e'|].
        -- injection Hk as ->. exact Hr.
        -- rewrite lookup_empty in Hk. discriminate.
      * rewrite Hother, lookup_empty in Hk; [discriminate|].
        intros j Hj ->. apply Hno, Exists_exists. exists j.
        split; [apply elem_of_seq; lia|reflexivity].
    + intros (i & -> & Hi). exact (Hat i (Some e) Hi).
  - intros entries rs Hrs.
    destruct (validateMap_from_keys ctx entries rs Hrs ∅)
      as (errs & Hrun & Hfrom & Hat & _).
    exists errs. unfold validateMap. rewrite Hrun. split; [reflexivity|]. split.
    + intros k e Hk. destruct (Hfrom k e Hk) as [H|H]; [exact H|].
      rewrite lookup_empty in H. discriminate.
    + intros j key v [e|] Hj Hr Hdistinct.
      * apply (Hat j key v e Hj Hr).
        intros j' key' v' Hlt. apply Hdistinct. lia.
      * destruct (errs !! Sprint (Interface_of key)) as [e|] eqn:Hk;
          [|reflexivity].
        destruct (Hfrom _ e Hk) as [(j' & key' & v' & Hj' & Hs & Hr')|H].
        -- destruct (decide (j' = j)) as [->|Hne].
           ++ rewrite Hr in Hr'. discriminate.
           ++ destruct (Hdistinct j' key' v' Hne Hj' Hs).
        -- rewrite lookup_empty in H. discriminate.
  - intros canAddr v. apply validateElement_nil.
  - apply errors_or_nil_spec.
  - intros value e. apply validateCore_collection.
Qed.

End CollectionKeys.

(** The slice [[]valItem{{Name: "alpha"}, {Name: ""}}]: the error has the
    key ["1"], which holds the error of the second element, and no key
    ["0"]. *)
Lemma collection_error_keys_witness :
  exists errs,
    engine.validateSlice fixtures.background true
      [fixtures.valItem 0 "alpha"; fixtures.valItem 64 ""]
    = Return (engine.errors_or_nil errs)
    /\ errs !! "1"
       = Some (engine.Errors {[ "Name" := engine.ErrMsg "cannot be blank" ]})
    /\ errs !! "0" = None.
Proof.
  destruct (proj1 (collection_error_keys fixtures.background) true
              [fixtures.valItem 0 "alpha"; fixtures.valItem 64 ""]
              [None;
               Some (engine.Errors
                       {[ "Name" := engine.ErrMsg "cannot be blank" ]})])
    as (errs & Hrun & Hkeys).
  - repeat constructor.
  - exists errs. split; [exact Hrun|]. split.
    + apply Hkeys. exists 1%nat. split; reflexivity.
    + destruct (errs !! "0") as [e|] eqn:E; [|reflexivity].
      apply Hkeys in E. destruct E as ([|[|i]] & Hk & Hi); discriminate.
Defined.

(** ** Struct values with pointer-receiver declarators *)

Section PointerReceivers.

Import engine.
Context {Ctx Rule : Type} `{!Env Ctx Rule}.
#[local] Abbreviation any := (any Ctx Rule).

(** C4.  A struct passed by value, whose own type implements no declarator
    while its pointer type does.  [validateCore] makes a pointer to a copy
    of the value ([pointer_to]: [reflect.New] and [Set]), asks that pointer
    for [Ruler] and [ContextRuler], and returns what [ValidateStruct] gives
    for the pointer and the bindings its declarator returns: the result is
    that of validating the pointer, not the nil of the end of
    [validateCore].  [validateElement] does the same for an element that
    cannot be addressed.  Validation writes nothing, so the copy is known
    here by its content, which is the value. *)
Theorem struct_value_validated_through_pointer (ctx : Ctx) (value : any) :
  Kind_of value = Struct ->
  as_Ruler value = NoRuler ->
  as_Ruler (pointer_to value) <> NoRuler ->
  Kind_of (pointer_to value) = Ptr
  /\ Indirect (pointer_to value) = value
  /\ validateCore ctx value
     = (vFields ← convertFieldRules ctx (pointer_to value)
                    (declared ctx (pointer_to value));
        validation_ValidateStruct (pointer_to value) vFields)
  /\ validateCore ctx value = validateCore ctx (pointer_to value)
  /\ validateElement ctx false value = validateCore ctx (pointer_to value).
Proof.
  intros Hk Hv Hp.
  destruct value as [|? ? d| | | | | |t m fields]; try discriminate Hk.
  { destruct (scalar_Kind_not_composite d) as (_ & Hs & _). contradiction. }
  assert (Hd : validateDeclared ctx (pointer_to (StructV t m fields))
                 (as_Ruler (pointer_to (StructV t m fields)))
               = Some (vFields ← convertFieldRules ctx
                                   (pointer_to (StructV t m fields))
                                   (declared ctx (pointer_to (StructV t m fields)));
                       validation_ValidateStruct
                         (pointer_to (StructV t m fields)) vFields)).
  { unfold declared.
    destruct (as_Ruler (pointer_to (StructV t m fields)));
      [contradiction|reflexivity|reflexivity]. }
  assert (Hcore : validateCore ctx (StructV t m fields)
                  = validateCore ctx (pointer_to (StructV t m fields))).
  { rewrite (validateCore_declared ctx _ _ Hd).
    rewrite validateCore_eq_source. unfold validateCore_source.
    rewrite Hv. cbn [Kind_of IsNil validateDeclared].
    rewrite Hd. reflexivity. }
  split; [reflexivity|]. split; [reflexivity|]. split; [|split].
  - rewrite Hcore. apply validateCore_declared, Hd.
  - exact Hcore.
  - unfold validateElement, validateElement_body. cbn [Kind_of IsNil].
    rewrite (bool_decide_eq_true_2 (Struct = Struct)) by reflexivity.
    rewrite andb_false_r.
    destruct (as_Ruler (pointer_to (StructV t m fields)));
      [contradiction|reflexivity|reflexivity].
Qed.

End PointerReceivers.

(** [valItem{Name: ""}] passed by value: [Rules] has a pointer receiver,
    and the blank name is reported. *)
Lemma struct_value_validated_witness :
  engine.validateCore fixtures.background (fixtures.valItem 64 "")
  = Return (Some (engine.Errors
                    {[ "Name" := engine.ErrMsg "cannot be blank" ]})).
Proof.
  destruct (struct_value_validated_through_pointer fixtures.background
              (fixtures.valItem 64 ""))
    as (_ & _ & Hcore & _).
  - reflexivity.
  - reflexivity.
  - discriminate.
  - rewrite Hcore. reflexivity.
Defined.

(** ** The normalization traversal *)

Section NormalizeProperties.

Import normalize.
Context {Ctx : Type} (method_set : type -> option (@hook Ctx)) (ctx : Ctx).

#[local] Abbreviation W :=
  (fun canAddr p t rv => walkNormalize method_set ctx canAddr p t rv).

(** Induction on a type, with the fields of a struct type. *)
Lemma type_ind_fields (P : type -> Prop)
    (HOther : forall k, P (TOther k))
    (HStruct : forall name fields, Forall P fields -> P (TStruct name fields))
    (HPtr : forall e, P e -> P (TPtr e))
    (HSlice : forall e, P e -> P (TSlice e))
    (HMap : forall k e, P k -> P e -> P (TMap k e)) :
  forall t, P t.
Proof.
  fix IH 1. intros [k|name fields|e|e|k e].
  - apply HOther.
  - apply HStruct. induction fields as [|f fields IHf]; constructor.
    + apply IH.
    + exact IHf.
  - apply HPtr, IH.
  - apply HSlice, IH.
  - apply HMap; apply IH.
Qed.

(** *** The order of places *)

Lemma before_app (p q r : path) : before q r -> before (p ++ q) (p ++ r).
Proof.
  intros H. induction p as [|s p IH]; [exact H|].
  cbn. apply before_inside, IH.
Qed.

Lemma before_extend (p : path) (s : step) (r : path) : before p (p ++ s :: r).
Proof.
  rewrite <- (app_nil_r p) at 1. apply before_app, before_below_self.
Qed.

(** A place does not come before itself or a place above it. *)
Lemma before_not_prefix (q q' : path) : before q q' -> ~ q' `prefix_of` q.
Proof.
  induction 1 as [s q|s s' p q Hlt|s p q _ IH]; intros Hp.
  - apply prefix_nil_inv in Hp. discriminate.
  - apply prefix_cons_inv_1 in Hp. subst s'. lia.
  - apply prefix_cons_inv_2 in Hp. exact (IH Hp).
Qed.

Lemma below_prefix (p : path) (s : step) (q : path) :
  (p ++ [s]) `prefix_of` q -> below p (step_index s) q.
Proof.
  intros [k ->]. exists s, k. split; [|lia].
  rewrite <- app_assoc. reflexivity.
Qed.

Lemma below_mono (p : path) (i j : nat) (q : path) :
  (i <= j)%nat -> below p j q -> below p i q.
Proof. intros Hij (s & r & -> & Hs). exists s, r. split; [reflexivity|lia]. Qed.

Lemma below_at (p : path) (i : nat) (q : path) :
  below p i q -> p `prefix_of` q.
Proof. intros (s & r & -> & _). eexists. reflexivity. Qed.

(** The calls for a child come before the calls for the later children. *)
Lemma walk_ok_cons (p : path) (s : step) (calls calls' : list path) :
  place_ok (p ++ [s]) calls -> walk_ok p (S (step_index s)) calls' ->
  walk_ok p (step_index s) (calls ++ calls').
Proof.
  intros [Hs Hp] [Hs' Hb]. split.
  - apply StronglySorted_app_2; [|exact Hs|exact Hs'].
    intros x1 x2 H1 H2.
    rewrite Forall_forall in Hp, Hb.
    destruct (Hp x1 H1) as [k ->].
    destruct (Hb x2 H2) as (s' & r & -> & Hlt).
    rewrite <- app_assoc. apply before_app. cbn.
    apply before_sibling. lia.
  - apply Forall_app. split.
    + eapply Forall_impl; [exact Hp|]. intros q. apply below_prefix.
    + eapply Forall_impl; [exact Hb|]. intros q. apply below_mono. lia.
Qed.

(** The call for a place comes before the calls below it. *)
Lemma place_ok_call (p : path) (calls1 calls2 : list path) :
  calls1 = [] \/ calls1 = [p] -> walk_ok p 0 calls2 ->
  place_ok p (calls1 ++ calls2).
Proof.
  intros H1 [Hs Hb].
  assert (Hp : Forall (fun q => p `prefix_of` q) calls2).
  { eapply Forall_impl; [exact Hb|]. intros q. apply below_at. }
  destruct H1 as [-> | ->]; cbn; [split; assumption|]. split.
  - constructor; [exact Hs|].
    eapply Forall_impl; [exact Hb|].
    intros q (s & r & -> & _). apply before_extend.
  - constructor; [reflexivity|exact Hp].
Qed.

Lemma place_ok_nil (p : path) : place_ok p [].
Proof. split; constructor. Qed.

Lemma walk_ok_nil (p : path) (i : nat) : walk_ok p i [].
Proof. split; constructor. Qed.

Lemma walk_ok_mono (p : path) (i j : nat) (calls : list path) :
  (i <= j)%nat -> walk_ok p j calls -> walk_ok p i calls.
Proof.
  intros Hij [Hs Hb]. split; [exact Hs|].
  eapply Forall_impl; [exact Hb|]. intros q. apply below_mono, Hij.
Qed.

(** *** The calls of [callNormalize] *)

Lemma callNormalize_calls (t : type) (v : value) (p : path) :
  (callNormalize method_set ctx t v p).2 = []
  \/ (callNormalize method_set ctx t v p).2 = [p].
Proof.
  unfold callNormalize. destruct (method_set t); [right|left]; reflexivity.
Qed.

Lemma callNormalize_Addr_calls (t : type) (x : value) (p : path) :
  (callNormalize_Addr method_set ctx t x p).2
  = (callNormalize method_set ctx (TPtr t) (VPtr (Some x)) p).2.
Proof.
  unfold callNormalize_Addr.
  destruct (callNormalize method_set ctx (TPtr t) (VPtr (Some x)) p)
    as [[| |[?|]| |] calls]; reflexivity.
Qed.

(** *** The calls of the cases of [walkNormalize] *)

Section CasesOrder.

Variable walk : bool -> path -> type -> value -> value * list path.

Lemma walk_ptr_ok (p : path) (e : type) (field : value) :
  (forall c rv, walk_ok p 0 (walk c p e rv).2) ->
  place_ok p (walk_ptr method_set walk ctx p e field).2.
Proof.
  intros Hw. unfold walk_ptr.
  destruct field as [| |[x|]| |]; try apply place_ok_nil.
  pose proof (callNormalize_calls (TPtr e) (VPtr (Some x)) p) as Hc.
  destruct (callNormalize method_set ctx (TPtr e) (VPtr (Some x)) p)
    as [field calls1].
  cbn in Hc.
  assert (H1 : place_ok p calls1).
  { rewrite <- (app_nil_r calls1). apply place_ok_call; [exact Hc|].
    apply walk_ok_nil. }
  destruct field as [| |[x'|]| |]; try exact H1.
  destruct e; try exact H1.
  specialize (Hw true x').
  destruct (walk true p _ x') as [x'' calls2]. cbn in Hw |- *.
  apply place_ok_call; assumption.
Qed.

Lemma walk_struct_ok (canAddr : bool) (p : path) (ft : type) (field : value) :
  (forall c rv, walk_ok p 0 (walk c p ft rv).2) ->
  place_ok p (walk_struct method_set walk ctx canAddr p ft field).2.
Proof.
  intros Hw. unfold walk_struct.
  assert (Hc : (if canAddr then callNormalize_Addr method_set ctx ft field p
                else (field, [])).2 = []
               \/ (if canAddr then callNormalize_Addr method_set ctx ft field p
                   else (field, [])).2 = [p]).
  { destruct canAddr; [|left; reflexivity].
    rewrite callNormalize_Addr_calls. apply callNormalize_calls. }
  destruct (if canAddr then callNormalize_Addr method_set ctx ft field p
            else (field, [])) as [field' calls1].
  specialize (Hw canAddr field').
  destruct (walk canAddr p ft field') as [field'' calls2]. cbn in Hc, Hw |- *.
  apply place_ok_call; assumption.
Qed.

Lemma walk_entry_ok (q : path) (e : type) (val : value) :
  (forall c rv, walk_ok q 0 (walk c q e rv).2) ->
  place_ok q (walk_entry method_set walk ctx q e val).2.
Proof.
  intros Hw. unfold walk_entry. destruct e; try apply place_ok_nil.
  pose proof (callNormalize_Addr_calls (TStruct name fields) val q) as Ha.
  pose proof (callNormalize_calls (TPtr (TStruct name fields))
                (VPtr (Some val)) q) as Hc.
  rewrite <- Ha in Hc.
  destruct (callNormalize_Addr method_set ctx (TStruct name fields) val q)
    as [cp calls1].
  specialize (Hw true cp).
  destruct (walk true q _ cp) as [cp' calls2]. cbn in Hc, Hw |- *.
  apply place_ok_call; assumption.
Qed.

(** A loop over the children of [p], given the calls of each child. *)
Lemma walk_elems_ok (p' : path) (e : type) (elems : list value) :
  (forall q v, place_ok q (walk_elem method_set walk ctx q e v).2) ->
  forall j, walk_ok p' j (walk_elems method_set walk ctx p' e j elems).2.
Proof.
  intros He. induction elems as [|elem elems IH]; intros j.
  - apply walk_ok_nil.
  - cbn [walk_elems].
    specialize (He (p' ++ [Idx j]) elem). specialize (IH (S j)).
    destruct (walk_elem method_set walk ctx (p' ++ [Idx j]) e elem)
      as [elem' calls1].
    destruct (walk_elems method_set walk ctx p' e (S j) elems)
      as [elems' calls2].
    cbn in He, IH |- *.
    exact (walk_ok_cons p' (Idx j) calls1 calls2 He IH).
Qed.

Lemma walk_entries_ok (p' : path) (e : type)
    (entries : list (value.any * value)) :
  (forall q v, place_ok q (walk_entry method_set walk ctx q e v).2) ->
  forall n, walk_ok p' n (walk_entries method_set walk ctx p' e n entries).2.
Proof.
  intros He. induction entries as [|[key val] entries IH]; intros n.
  - apply walk_ok_nil.
  - cbn [walk_entries].
    specialize (He (p' ++ [Entry n]) val). specialize (IH (S n)).
    destruct (walk_entry method_set walk ctx (p' ++ [Entry n]) e val)
      as [val' calls1].
    destruct (walk_entries method_set walk ctx p' e (S n) entries)
      as [entries' calls2].
    cbn in He, IH |- *.
    exact (walk_ok_cons p' (Entry n) calls1 calls2 He IH).
Qed.

Lemma walk_fields_ok (canAddr : bool) (p : path) (ftypes : list type) :
  Forall (fun ft => forall p' f,
            place_ok p' (walk_field method_set walk ctx canAddr p' ft f).2)
    ftypes ->
  forall i fields,
    walk_ok p i (walk_fields method_set walk ctx canAddr p i ftypes fields).2.
Proof.
  induction 1 as [|ft ftypes Hft _ IH]; intros i fields.
  - destruct fields; apply walk_ok_nil.
  - destruct fields as [|field fields]; [apply walk_ok_nil|].
    cbn [walk_fields].
    specialize (Hft (p ++ [Fld i]) field). specialize (IH (S i) fields).
    destruct (walk_field method_set walk ctx canAddr (p ++ [Fld i]) ft field)
      as [field' calls1].
    destruct (walk_fields method_set walk ctx canAddr p (S i) ftypes fields)
      as [fields' calls2].
    cbn in Hft, IH |- *.
    exact (walk_ok_cons p (Fld i) calls1 calls2 Hft IH).
Qed.

End CasesOrder.

(** The calls of [walkNormalize] on a struct at [p] are made below [p], in
    the order of the walk; so are the calls of each case. *)
Lemma walk_calls_ok (t : type) :
  (forall c p rv, walk_ok p 0 (walkNormalize method_set ctx c p t rv).2)
  /\ (forall c p' f, place_ok p' (walk_field method_set W ctx c p' t f).2)
  /\ (forall q v, place_ok q (walk_elem method_set W ctx q t v).2)
  /\ (forall q v, place_ok q (walk_entry method_set W ctx q t v).2).
Proof.
  induction t as [k|name ftypes IH|e IH|e IH|k e _ IH] using type_ind_fields.
  - split; [|split; [|split]]; intros; try apply place_ok_nil.
    destruct rv; apply walk_ok_nil.
  - assert (HA : forall c p rv,
               walk_ok p 0
                 (walkNormalize method_set ctx c p (TStruct name ftypes) rv).2).
    { intros c p rv. cbn [walkNormalize].
      destruct rv as [|fields| | |]; try apply walk_ok_nil.
      pose proof (walk_fields_ok W c p ftypes) as Hf.
      specialize (Hf (Forall_impl _ _ _ IH
                        (fun ft H => proj1 (proj2 H) c)) 0%nat fields).
      destruct (walk_fields method_set W ctx c p 0 ftypes fields)
        as [fields' calls].
      exact Hf. }
    split; [exact HA|]. split; [|split].
    + intros c p' f. apply (walk_struct_ok W). intros c' rv. apply HA.
    + intros q v. apply (walk_struct_ok W). intros c' rv. apply HA.
    + intros q v. apply (walk_entry_ok W). intros c' rv. apply HA.
  - destruct IH as (HA & _).
    split; [|split; [|split]]; intros; try apply place_ok_nil.
    + destruct rv; apply walk_ok_nil.
    + apply (walk_ptr_ok W). intros c' rv. apply HA.
    + apply (walk_ptr_ok W). intros c' rv. apply HA.
  - destruct IH as (_ & _ & HE & _).
    split; [|split; [|split]]; intros; try apply place_ok_nil.
    + destruct rv; apply walk_ok_nil.
    + cbn [walk_field]. destruct f as [| | |elems|]; try apply place_ok_nil.
      pose proof (walk_elems_ok W p' e elems HE 0%nat) as [Hs Hb].
      destruct (walk_elems method_set W ctx p' e 0 elems) as [elems' calls].
      split; [exact Hs|].
      eapply Forall_impl; [exact Hb|]. intros q. apply below_at.
  - destruct IH as (_ & _ & _ & HE).
    split; [|split; [|split]]; intros; try apply place_ok_nil.
    + destruct rv; apply walk_ok_nil.
    + cbn [walk_field]. destruct f as [| | | |entries]; try apply place_ok_nil.
      pose proof (walk_entries_ok W p' e entries HE 0%nat) as [Hs Hb].
      destruct (walk_entries method_set W ctx p' e 0 entries)
        as [entries' calls].
      split; [exact Hs|].
      eapply Forall_impl; [exact Hb|]. intros q. apply below_at.
Qed.

(** *** The values after the walk *)

Section CasesValues.

Variable walk : bool -> path -> type -> value -> value * list path.

Lemma walk_fields_lookup (canAddr : bool) (p : path) (ftypes : list type) :
  forall (i0 : nat) (fields : list value) (i : nat) ft f,
    ftypes !! i = Some ft -> fields !! i = Some f ->
    (walk_fields method_set walk ctx canAddr p i0 ftypes fields).1 !! i
    = Some (walk_field method_set walk ctx canAddr
              (p ++ [Fld (i0 + i)]) ft f).1.
Proof.
  induction ftypes as [|ft0 ftypes IH]; intros i0 fields i ft f Ht Hf.
  - rewrite lookup_nil in Ht. discriminate.
  - destruct fields as [|f0 fields]; [rewrite lookup_nil in Hf; discriminate|].
    cbn [walk_fields].
    destruct (walk_field method_set walk ctx canAddr (p ++ [Fld i0]) ft0 f0)
      as [f0' calls1] eqn:E0.
    specialize (IH (S i0) fields).
    destruct (walk_fields method_set walk ctx canAddr p (S i0) ftypes fields)
      as [fields' calls2].
    destruct i as [|i]; cbn in Ht, Hf |- *.
    + injection Ht as <-. injection Hf as <-.
      rewrite Nat.add_0_r, E0. reflexivity.
    + replace (i0 + S i)%nat with (S i0 + i)%nat by lia.
      exact (IH i ft f Ht Hf).
Qed.

Lemma walk_fields_calls (canAddr : bool) (p : path) (ftypes : list type) :
  forall (i0 : nat) (fields : list value) (q : path),
    q ∈ (walk_fields method_set walk ctx canAddr p i0 ftypes fields).2 ->
    exists (i : nat) ft f,
      ftypes !! i = Some ft /\ fields !! i = Some f
      /\ q ∈ (walk_field method_set walk ctx canAddr
                (p ++ [Fld (i0 + i)]) ft f).2.
Proof.
  induction ftypes as [|ft0 ftypes IH]; intros i0 fields q Hq.
  - destruct fields; cbn in Hq; apply elem_of_nil in Hq; destruct Hq.
  - destruct fields as [|f0 fields];
      [cbn in Hq; apply elem_of_nil in Hq; destruct Hq|].
    cbn [walk_fields] in Hq.
    destruct (walk_field method_set walk ctx canAddr (p ++ [Fld i0]) ft0 f0)
      as [f0' calls1] eqn:E0.
    specialize (IH (S i0) fields q).
    destruct (walk_fields method_set walk ctx canAddr p (S i0) ftypes fields)
      as [fields' calls2].
    cbn in Hq, IH. apply elem_of_app in Hq. destruct Hq as [Hq|Hq].
    + exists 0%nat, ft0, f0. rewrite Nat.add_0_r, E0. auto.
    + destruct (IH Hq) as (i & ft & f & Ht & Hf & Hin).
      exists (S i), ft, f. replace (i0 + S i)%nat with (S i0 + i)%nat by lia.
      auto.
Qed.

Lemma walk_entries_lookup (p' : path) (e : type) :
  forall (n0 : nat) (entries : list (value.any * value)),
    length (walk_entries method_set walk ctx p' e n0 entries).1
    = length entries
    /\ forall (n : nat) key val,
         entries !! n = Some (key, val) ->
         (walk_entries method_set walk ctx p' e n0 entries).1 !! n
         = Some (key, (walk_entry method_set walk ctx
                         (p' ++ [Entry (n0 + n)]) e val).1).
Proof.
  intros n0 entries. revert n0.
  induction entries as [|[key0 val0] entries IH]; intros n0.
  - split; [reflexivity|]. intros n key val Hn.
    rewrite lookup_nil in Hn. discriminate.
  - cbn [walk_entries].
    destruct (walk_entry method_set walk ctx (p' ++ [Entry n0]) e val0)
      as [val0' calls1] eqn:E0.
    specialize (IH (S n0)).
    destruct (walk_entries method_set walk ctx p' e (S n0) entries)
      as [entries' calls2].
    cbn in IH |- *. destruct IH as [Hlen Hat]. split; [lia|].
    intros [|n] key val Hn; cbn in Hn |- *.
    + injection Hn as <- <-. rewrite Nat.add_0_r, E0. reflexivity.
    + replace (n0 + S n)%nat with (S n0 + n)%nat by lia.
      exact (Hat n key val Hn).
Qed.

(** A map whose values are no structs is left as it is, and no call is
    made. *)
Lemma walk_entries_not_struct (p' : path) (e : type) :
  type_Kind e <> Struct ->
  forall (n : nat) (entries : list (value.any * value)),
    walk_entries method_set walk ctx p' e n entries = (entries, []).
Proof.
  intros He n entries. revert n.
  induction entries as [|[key val] entries IH]; intros n; [reflexivity|].
  cbn [walk_entries]. rewrite IH.
  destruct e; try reflexivity. destruct He. reflexivity.
Qed.

End CasesValues.

(** *** The whole traversal *)

Lemma StronglySorted_lookup_lt (l : list path) (m n : nat) (q q' : path) :
  StronglySorted before l -> (m < n)%nat ->
  l !! m = Some q -> l !! n = Some q' -> before q q'.
Proof.
  intros Hs. revert m n. induction Hs as [|x l _ IH Hx]; intros m n Hmn Hm Hn.
  - rewrite lookup_nil in Hm. discriminate.
  - destruct n as [|n]; [lia|]. destruct m as [|m]; cbn in Hm, Hn.
    + injection Hm as <-. rewrite Forall_forall in Hx.
      apply Hx. eapply list_elem_of_lookup_2, Hn.
    + apply (IH m n); [lia|assumption|assumption].
Qed.

Lemma walk_field_map (canAddr : bool) (p' : path) (k e : type)
    (entries : list (value.any * value)) :
  walk_field method_set W ctx canAddr p' (TMap k e) (VMap entries)
  = (VMap (walk_entries method_set W ctx p' e 0 entries).1,
     (walk_entries method_set W ctx p' e 0 entries).2).
Proof.
  cbn [walk_field].
  destruct (walk_entries method_set W ctx p' e 0 entries). reflexivity.
Qed.

Lemma walkNormalize_struct (canAddr : bool) (p : path) (name : string)
    (ftypes : list type) (fields : list value) :
  walkNormalize method_set ctx canAddr p (TStruct name ftypes) (VStruct fields)
  = (VStruct (walk_fields method_set W ctx canAddr p 0 ftypes fields).1,
     (walk_fields method_set W ctx canAddr p 0 ftypes fields).2).
Proof.
  cbn [walkNormalize].
  destruct (walk_fields method_set W ctx canAddr p 0 ftypes fields).
  reflexivity.
Qed.

Lemma callNormalize_Addr_run (t : type) (x : value) (q : path) :
  callNormalize_Addr method_set ctx t x q
  = match method_set (TPtr t) with
    | Some h => (run h ctx x, [q])
    | None => (x, [])
    end.
Proof.
  unfold callNormalize_Addr, callNormalize.
  destruct (method_set (TPtr t)); reflexivity.
Qed.

(** The calls of [normalizeRecursive]: the call on the value itself, then
    calls below it, in the order of the walk. *)
Lemma normalizeRecursive_calls (t : type) (v : value) :
  exists nested,
    (normalizeRecursive method_set ctx (Some (t, v))).2
    = (callNormalize method_set ctx t v []).2 ++ nested
    /\ walk_ok [] 0 nested.
Proof.
  unfold normalizeRecursive.
  destruct (callNormalize method_set ctx t v []) as [v' calls1].
  assert (Hnone : exists nested,
             calls1 = calls1 ++ nested /\ walk_ok [] 0 nested).
  { exists []. split; [symmetry; apply app_nil_r|apply walk_ok_nil]. }
  destruct t as [k|name ftypes|e|e|k e]; try exact Hnone.
  - pose proof (proj1 (walk_calls_ok (TStruct name ftypes)) false [] v') as Hw.
    destruct (walkNormalize method_set ctx false [] (TStruct name ftypes) v')
      as [rv calls2].
    exists calls2. split; [reflexivity|exact Hw].
  - destruct v' as [| |[rv|]| |]; try exact Hnone.
    destruct e as [k|name ftypes|e|e|k e]; try exact Hnone.
    pose proof (proj1 (walk_calls_ok (TStruct name ftypes)) true [] rv) as Hw.
    destruct (walkNormalize method_set ctx true [] (TStruct name ftypes) rv)
      as [rv' calls2].
    exists calls2. split; [reflexivity|exact Hw].
Qed.

Lemma normalizeRecursive_sorted (a : option (type * value)) :
  StronglySorted before (normalizeRecursive method_set ctx a).2.
Proof.
  destruct a as [[t v]|]; [|constructor].
  destruct (normalizeRecursive_calls t v) as (nested & -> & Hn).
  apply (place_ok_call [] _ nested (callNormalize_calls t v []) Hn).
Qed.


(** C10.  A field that is a map whose values are no structs, a
    [map[K]*T] among them: [walkNormalize] on the struct leaves the field as
    it is, entries and what they point to, and makes no call of
    [Normalize] on the place of the field or below it. *)
Theorem map_of_pointers_not_normalized (c : bool) (p : path) (name : string)
    (ftypes : list type) (fields : list value) (i : nat) (k e : type)
    (f : value) :
  ftypes !! i = Some (TMap k e) ->
  type_Kind e <> Struct ->
  fields !! i = Some f ->
  exists fields',
    (walkNormalize method_set ctx c p (TStruct name ftypes) (VStruct fields)).1
    = VStruct fields'
    /\ fields' !! i = Some f
    /\ Forall (fun q => ~ (p ++ [Fld i]) `prefix_of` q)
         (walkNormalize method_set ctx c p (TStruct name ftypes)
            (VStruct fields)).2.
Proof.
  intros Ht He Hf.
  assert (Hfield : forall p', walk_field method_set W ctx c p' (TMap k e) f
                              = (f, [])).
  { intros p'. cbn [walk_field]. destruct f as [| | | |entries]; try reflexivity.
    rewrite (walk_entries_not_struct W p' e He). reflexivity. }
  rewrite walkNormalize_struct.
  exists (walk_fields method_set W ctx c p 0 ftypes fields).1.
  split; [reflexivity|]. split.
  - rewrite (walk_fields_lookup W c p ftypes 0 fields i _ _ Ht Hf).
    rewrite Hfield. reflexivity.
  - cbn [snd]. apply Forall_forall. intros q Hq [k1 E1].
    destruct (walk_fields_calls W c p ftypes 0 fields q Hq)
      as (j & ft & f' & Htj & Hfj & Hin).
    cbn [Nat.add] in Hin.
    destruct (proj1 (proj2 (walk_calls_ok ft)) c (p ++ [Fld j]) f')
      as [_ Hpre].
    rewrite Forall_forall in Hpre. destruct (Hpre q Hin) as [k2 E2].
    rewrite E1 in E2. rewrite <- !app_assoc in E2.
    apply app_inv_head in E2. injection E2 as Hij _. subst j.
    rewrite Ht in Htj. injection Htj as <-.
    rewrite Hf in Hfj. injection Hfj as <-.
    rewrite Hfield in Hin. cbn in Hin. apply elem_of_nil in Hin. exact Hin.
Qed.

End NormalizeProperties.


(** The field [Shared] of [post], a [map[string]*tag]: the tag it points
    to keeps its blanks, while the other strings are trimmed. *)
Lemma map_of_pointers_witness :
  (normalize.walkNormalize fixtures.method_set fixtures.strict true []
     fixtures.T_post (fixtures.post "a" " b " " c " " d ")).1
  = fixtures.post "a" "b" "c" " d "
  /\ exists fields',
       (normalize.walkNormalize fixtures.method_set fixtures.strict true []
          fixtures.T_post (fixtures.post "a" " b " " c " " d ")).1
       = normalize.VStruct fields'
       /\ fields' !! 3%nat
          = Some (normalize.VMap
                    [(value.VString None "shared",
                      normalize.VPtr (Some (fixtures.tag " d ")))]).
Proof.
  split; [reflexivity|].
  destruct (map_of_pointers_not_normalized fixtures.method_set fixtures.strict
              true [] "post"
              [normalize.TOther String; fixtures.T_tag;
               normalize.TMap (normalize.TOther String) fixtures.T_tag;
               normalize.TMap (normalize.TOther String)
                 (normalize.TPtr fixtures.T_tag)]
              [fixtures.text "a"; fixtures.tag " b ";
               normalize.VMap [(value.VString None "first", fixtures.tag " c ")];
               normalize.VMap
                 [(value.VString None "shared",
                   normalize.VPtr (Some (fixtures.tag " d ")))]]
              3 (normalize.TOther String) (normalize.TPtr fixtures.T_tag)
              (normalize.VMap
                 [(value.VString None "shared",
                   normalize.VPtr (Some (fixtures.tag " d ")))]))
    as (fields' & E & Hi & _).
  - reflexivity.
  - discriminate.
  - reflexivity.
  - exists fields'. split; [exact E|exact Hi].
Defined.

(** ** String transformations on structs *)

Section TransformProperties.

Import transform.

(** Induction on a value, with the values it holds. *)
Lemma value_ind_deep (P : value -> Prop)
    (HString : forall t s, P (VString t s))
    (HLeaf : forall d, P (VLeaf d))
    (HStruct : forall fields, Forall (fun fx => P fx.2) fields -> P (VStruct fields))
    (HNil : P (VPtr None))
    (HPtr : forall x, P x -> P (VPtr (Some x)))
    (HSlice : forall elems, Forall P elems -> P (VSlice elems))
    (HMap : forall entries, Forall (fun e => P e.2) entries -> P (VMap entries)) :
  forall v, P v.
Proof.
  fix IH 1. intros [t s|d|fields|[x|]|elems|entries].
  - apply HString.
  - apply HLeaf.
  - apply HStruct. induction fields as [|[ex x] fields IHf]; constructor.
    + apply IH.
    + exact IHf.
  - apply HPtr, IH.
  - apply HNil.
  - apply HSlice. induction elems as [|x elems IHe]; constructor.
    + apply IH.
    + exact IHe.
  - apply HMap. induction entries as [|[k x] entries IHe]; constructor.
    + apply IH.
    + exact IHe.
Qed.

(** *** The loop over a list *)

Lemma each_Return {A : Type} (g : A -> result A) (l l' : list A) :
  each g l = Return l' <-> Forall2 (fun x x' => g x = Return x') l l'.
Proof.
  revert l'. induction l as [|x l IH]; intros l'; cbn.
  - split.
    + intros [= <-]. constructor.
    + intros H. inversion H. reflexivity.
  - destruct (g x) as [x'|] eqn:Ex; cbn.
    + destruct (each g l) as [l0|] eqn:El; cbn.
      * split.
        -- intros [= <-]. constructor; [exact Ex|]. apply IH. reflexivity.
        -- intros H. inversion H as [|? y ? l1 Hy Hl]; subst.
           rewrite Ex in Hy. injection Hy as <-.
           apply IH in Hl. injection Hl as <-. reflexivity.
      * split; [discriminate|].
        intros H. inversion H as [|? y ? l1 Hy Hl]; subst.
        apply IH in Hl. discriminate.
    + split; [discriminate|].
      intros H. inversion H as [|? y ? l1 Hy Hl]; subst.
      rewrite Ex in Hy. discriminate.
Qed.

Lemma each_Panic {A : Type} (g : A -> result A) (l : list A) :
  each g l = Panic <-> Exists (fun x => g x = Panic) l.
Proof.
  induction l as [|x l IH]; cbn.
  - split; [discriminate|]. intros H. inversion H.
  - destruct (g x) as [x'|] eqn:Ex; cbn.
    + destruct (each g l) as [l0|] eqn:El; cbn.
      * split; [discriminate|].
        intros H. inversion H as [? ? Hx|? ? Hl]; subst.
        -- rewrite Ex in Hx. discriminate.
        -- apply IH in Hl. discriminate.
      * split; [|reflexivity]. intros _. apply Exists_cons_tl, IH. reflexivity.
    + split; [|reflexivity]. intros _. apply Exists_cons_hd. exact Ex.
Qed.

(** Two loops in a row are one loop, when they are so on every item. *)
Lemma each_fusion {A : Type} (g1 g2 g3 : A -> result A) (l l' : list A) :
  Forall (fun x => forall x', g1 x = Return x' -> g2 x' = g3 x) l ->
  each g1 l = Return l' -> each g2 l' = each g3 l.
Proof.
  intros Hall. revert l'. induction Hall as [|x l Hx _ IH]; intros l' Hl.
  - cbn in Hl. injection Hl as <-. reflexivity.
  - cbn in Hl. destruct (g1 x) as [x'|] eqn:Ex; [|discriminate]. cbn in Hl.
    destruct (each g1 l) as [l0|] eqn:El; [|discriminate]. cbn in Hl.
    injection Hl as <-. cbn.
    rewrite (Hx x' eq_refl), (IH l0 eq_refl). reflexivity.
Qed.

(** *** The walk of a struct *)

Lemma walk_struct (f : string -> string) (fields : list (bool * value)) :
  walk f (VStruct fields)
  = (fields' ← each (field_case f (walk f)) fields; Return (VStruct fields')).
Proof. reflexivity. Qed.

Lemma walk_struct_inv (f : string -> string) (fields : list (bool * value))
    (v' : value) :
  walk f (VStruct fields) = Return v' ->
  exists fields',
    v' = VStruct fields'
    /\ each (field_case f (walk f)) fields = Return fields'.
Proof.
  rewrite walk_struct. intros Hv.
  destruct (each (field_case f (walk f)) fields) as [fields'|];
    [|discriminate].
  injection Hv as <-. exists fields'. split; reflexivity.
Qed.

(** *** One walk after another *)

Section Fusion.

Variables f g h : string -> string.
Hypothesis Hcomp : forall s, g (f s) = h s.

Lemma walk_fusion_cases (v : value) :
  (forall v', walk f v = Return v' -> walk g v' = walk h v)
  /\ (forall v', through_ptr f (walk f) v = Return v' ->
        through_ptr g (walk g) v' = through_ptr h (walk h) v)
  /\ (forall v', elem_case f (walk f) v = Return v' ->
        elem_case g (walk g) v' = elem_case h (walk h) v)
  /\ (forall k e', entry_case f (walk f) (k, v) = Return e' ->
        entry_case g (walk g) e' = entry_case h (walk h) (k, v))
  /\ (forall ex fld', field_case f (walk f) (ex, v) = Return fld' ->
        field_case g (walk g) fld' = field_case h (walk h) (ex, v)).
Proof.
  induction v as [t s|d|fields IH| |x IH|elems IH|entries IH]
    using value_ind_deep.
  - (* a string *)
    split; [|split; [|split; [|split]]].
    + intros v' [= <-]. reflexivity.
    + intros v' [= <-]. cbn. rewrite Hcomp. reflexivity.
    + intros v' [= <-]. cbn. rewrite Hcomp. reflexivity.
    + intros k e' He. destruct t; [discriminate He|].
      injection He as <-. cbn. rewrite Hcomp. reflexivity.
    + intros [|] fld' [= <-]; cbn; [rewrite Hcomp|]; reflexivity.
  - (* a leaf *)
    split; [|split; [|split; [|split]]].
    + intros v' [= <-]. reflexivity.
    + intros v' [= <-]. reflexivity.
    + intros v' [= <-]. reflexivity.
    + intros k e' [= <-]. reflexivity.
    + intros [|] fld' [= <-]; reflexivity.
  - (* a struct *)
    assert (HW : forall v', walk f (VStruct fields) = Return v' ->
                   walk g v' = walk h (VStruct fields)).
    { intros v' Hv. destruct (walk_struct_inv f fields v' Hv) as (fields' & -> & E).
      rewrite !walk_struct.
      rewrite (each_fusion (field_case f (walk f)) (field_case g (walk g))
                 (field_case h (walk h)) fields fields');
        [reflexivity| |exact E].
      eapply Forall_impl; [exact IH|].
      intros [ex x] (_ & _ & _ & _ & Hf). cbn in Hf. exact (Hf ex). }
    split; [exact HW|]. split; [|split; [|split]].
    + intros v' Hv. cbn [through_ptr] in Hv.
      destruct (walk_struct_inv f fields v' Hv) as (fields' & -> & _).
      exact (HW _ Hv).
    + intros v' Hv. cbn [elem_case] in Hv.
      destruct (walk_struct_inv f fields v' Hv) as (fields' & -> & _).
      exact (HW _ Hv).
    + intros k e' He. cbn [entry_case] in He.
      destruct (walk f (VStruct fields)) as [cp|] eqn:E; [|discriminate].
      injection He as <-. pose proof (HW cp eq_refl) as H1.
      destruct (walk_struct_inv f fields cp E) as (fields' & -> & _).
      cbn [entry_case]. rewrite H1. reflexivity.
    + intros [|] fld' Hf; cbn [field_case negb] in Hf.
      * destruct (walk f (VStruct fields)) as [v'|] eqn:E; [|discriminate].
        injection Hf as <-. pose proof (HW v' eq_refl) as H1.
        destruct (walk_struct_inv f fields v' E) as (fields' & -> & _).
        cbn [field_case negb]. rewrite H1. reflexivity.
      * injection Hf as <-. reflexivity.
  - (* a nil pointer *)
    split; [|split; [|split; [|split]]].
    + intros v' [= <-]. reflexivity.
    + intros v' [= <-]. reflexivity.
    + intros v' [= <-]. reflexivity.
    + intros k e' [= <-]. reflexivity.
    + intros [|] fld' [= <-]; reflexivity.
  - (* a pointer *)
    destruct IH as (_ & HP & _).
    split; [|split; [|split; [|split]]].
    + intros v' [= <-]. reflexivity.
    + intros v' [= <-]. reflexivity.
    + intros v' Hv. cbn [elem_case] in Hv.
      destruct (through_ptr f (walk f) x) as [x'|] eqn:E; [|discriminate].
      injection Hv as <-. cbn [elem_case]. rewrite (HP x' eq_refl). reflexivity.
    + intros k e' [= <-]. reflexivity.
    + intros [|] fld' Hf; cbn [field_case negb] in Hf.
      * destruct (through_ptr f (walk f) x) as [x'|] eqn:E; [|discriminate].
        injection Hf as <-. cbn [field_case negb]. rewrite (HP x' eq_refl).
        reflexivity.
      * injection Hf as <-. reflexivity.
  - (* a slice *)
    split; [|split; [|split; [|split]]].
    + intros v' [= <-]. reflexivity.
    + intros v' [= <-]. reflexivity.
    + intros v' [= <-]. reflexivity.
    + intros k e' [= <-]. reflexivity.
    + intros [|] fld' Hf; cbn [field_case negb] in Hf.
      * destruct (each (elem_case f (walk f)) elems) as [elems'|] eqn:E;
          [|discriminate].
        injection Hf as <-. cbn [field_case negb].
        rewrite (each_fusion (elem_case f (walk f)) (elem_case g (walk g))
                   (elem_case h (walk h)) elems elems');
          [reflexivity| |exact E].
        eapply Forall_impl; [exact IH|]. intros x (_ & _ & He & _). exact He.
      * injection Hf as <-. reflexivity.
  - (* a map *)
    split; [|split; [|split; [|split]]].
    + intros v' [= <-]. reflexivity.
    + intros v' [= <-]. reflexivity.
    + intros v' [= <-]. reflexivity.
    + intros k e' [= <-]. reflexivity.
    + intros [|] fld' Hf; cbn [field_case negb] in Hf.
      * destruct (each (entry_case f (walk f)) entries) as [entries'|] eqn:E;
          [|discriminate].
        injection Hf as <-. cbn [field_case negb].
        rewrite (each_fusion (entry_case f (walk f)) (entry_case g (walk g))
                   (entry_case h (walk h)) entries entries');
          [reflexivity| |exact E].
        eapply Forall_impl; [exact IH|].
        intros [k x] (_ & _ & _ & He & _). cbn in He. exact (He k).
      * injection Hf as <-. reflexivity.
Qed.

Lemma stringFunc_fusion (a b : value) :
  stringFunc f a = Return b -> stringFunc g b = stringFunc h a.
Proof.
  intros Ha. destruct a as [| | |[v|]| |]; try (injection Ha as <-; reflexivity).
  destruct v as [| |fields| | |]; try (injection Ha as <-; reflexivity).
  cbn [stringFunc] in Ha |- *.
  destruct (walk f (VStruct fields)) as [v'|] eqn:E; [|discriminate].
  injection Ha as <-.
  pose proof (proj1 (walk_fusion_cases (VStruct fields)) v' E) as H1.
  destruct (walk_struct_inv f fields v' E) as (fields' & -> & _).
  cbn [stringFunc]. rewrite H1. reflexivity.
Qed.

End Fusion.

(** *** When the walk panics *)

Lemma blocked_struct_fields (fields : list (bool * value)) :
  blocked_struct (VStruct fields)
  = existsb (blocked_field blocked_struct) fields.
Proof. reflexivity. Qed.

Lemma bind_Panic {A B : Type} (r : result A) (k : A -> B) :
  (x ← r; Return (k x)) = Panic <-> r = Panic.
Proof. destruct r; cbn; split; intros; congruence. Qed.

Lemma each_Panic_existsb {A : Type} (g : A -> result A) (b : A -> bool)
    (l : list A) :
  Forall (fun x => g x = Panic <-> b x = true) l ->
  each g l = Panic <-> existsb b l = true.
Proof.
  intros Hall. rewrite each_Panic.
  induction Hall as [|x l Hx _ IH]; cbn.
  - split; [intros H; inversion H|discriminate].
  - rewrite orb_true_iff, <- Hx, <- IH. split.
    + intros H. inversion H; auto.
    + intros [H|H]; [apply Exists_cons_hd|apply Exists_cons_tl]; exact H.
Qed.

Section Panics.

Variable f : string -> string.

Lemma walk_Panic_cases (v : value) :
  (walk f v = Panic <-> blocked_struct v = true)
  /\ (through_ptr f (walk f) v = Panic <-> blocked_ptr blocked_struct v = true)
  /\ (elem_case f (walk f) v = Panic <-> blocked_elem blocked_struct v = true)
  /\ (forall k, entry_case f (walk f) (k, v) = Panic
                <-> blocked_entry blocked_struct (k, v) = true)
  /\ (forall ex, field_case f (walk f) (ex, v) = Panic
                 <-> blocked_field blocked_struct (ex, v) = true).
Proof.
  induction v as [t s|d|fields IH| |x IH|elems IH|entries IH]
    using value_ind_deep.
  - split; [|split; [|split; [|split]]];
      [cbn; split; discriminate | cbn; split; discriminate
      | cbn; split; discriminate
      | intros k; destruct t; cbn; split; congruence
      | intros [|]; cbn; split; discriminate].
  - split; [|split; [|split; [|split]]];
      [cbn; split; discriminate | cbn; split; discriminate
      | cbn; split; discriminate | intros k; cbn; split; discriminate
      | intros [|]; cbn; split; discriminate].
  - assert (HW : walk f (VStruct fields) = Panic
                 <-> blocked_struct (VStruct fields) = true).
    { rewrite walk_struct, blocked_struct_fields, bind_Panic.
      apply each_Panic_existsb.
      eapply Forall_impl; [exact IH|].
      intros [ex x] (_ & _ & _ & _ & Hf). cbn in Hf. exact (Hf ex). }
    split; [exact HW|]. split; [exact HW|]. split; [exact HW|]. split.
    + intros k. cbn [entry_case blocked_entry snd].
      rewrite <- HW. apply (bind_Panic _ (fun cp => (k, cp))).
    + intros [|]; cbn [field_case blocked_field negb fst snd andb].
      * rewrite <- HW. apply (bind_Panic _ (fun v' => (true, v'))).
      * split; discriminate.
  - split; [|split; [|split; [|split]]];
      [cbn; split; discriminate | cbn; split; discriminate
      | cbn; split; discriminate | intros k; cbn; split; discriminate
      | intros [|]; cbn; split; discriminate].
  - destruct IH as (_ & HP & _).
    split; [|split; [|split; [|split]]];
      [cbn; split; discriminate | cbn; split; discriminate | |
       intros k; cbn; split; discriminate | ].
    + cbn [elem_case blocked_elem]. rewrite <- HP.
      apply (bind_Panic _ (fun x' => VPtr (Some x'))).
    + intros [|]; cbn [field_case blocked_field negb fst snd andb].
      * rewrite <- HP. apply (bind_Panic _ (fun x' => (true, VPtr (Some x')))).
      * split; discriminate.
  - split; [|split; [|split; [|split]]];
      [cbn; split; discriminate | cbn; split; discriminate
      | cbn; split; discriminate | intros k; cbn; split; discriminate | ].
    intros [|]; cbn [field_case blocked_field negb fst snd andb].
    + rewrite (bind_Panic _ (fun elems' => (true, VSlice elems'))).
      apply each_Panic_existsb.
      eapply Forall_impl; [exact IH|]. intros x (_ & _ & He & _). exact He.
    + split; discriminate.
  - split; [|split; [|split; [|split]]];
      [cbn; split; discriminate | cbn; split; discriminate
      | cbn; split; discriminate | intros k; cbn; split; discriminate | ].
    intros [|]; cbn [field_case blocked_field negb fst snd andb].
    + rewrite (bind_Panic _ (fun entries' => (true, VMap entries'))).
      apply each_Panic_existsb.
      eapply Forall_impl; [exact IH|].
      intros [k x] (_ & _ & _ & He & _). cbn in He. exact (He k).
    + split; discriminate.
Qed.

Lemma stringFunc_Panic (a : value) :
  stringFunc f a = Panic <-> blocked a = true.
Proof.
  destruct a as [| | |[v|]| |]; try (cbn; split; discriminate).
  destruct v as [| |fields| | |]; try (cbn; split; discriminate).
  cbn [stringFunc blocked].
  rewrite <- (proj1 (walk_Panic_cases (VStruct fields))).
  apply (bind_Panic _ (fun v' => VPtr (Some v'))).
Qed.

(** *** The strings the walk rewrites *)

Lemma reached_struct_fields (fields : list (bool * value)) :
  reached_struct (VStruct fields)
  = flat_map (reached_field reached_struct) fields.
Proof. reflexivity. Qed.

Lemma each_flat_map {A : Type} (g : A -> result A) (r : A -> list string)
    (l l' : list A) :
  Forall (fun x => forall x', g x = Return x' -> r x' = map f (r x)) l ->
  each g l = Return l' -> flat_map r l' = map f (flat_map r l).
Proof.
  intros Hall. revert l'. induction Hall as [|x l Hx _ IH]; intros l' Hl.
  - cbn in Hl. injection Hl as <-. reflexivity.
  - cbn in Hl. destruct (g x) as [x'|] eqn:Ex; [|discriminate]. cbn in Hl.
    destruct (each g l) as [l0|] eqn:El; [|discriminate]. cbn in Hl.
    injection Hl as <-. cbn [flat_map].
    rewrite (Hx x' eq_refl), (IH l0 eq_refl), map_app. reflexivity.
Qed.

Lemma walk_reached_cases (v : value) :
  (forall v', walk f v = Return v' ->
     reached_struct v' = map f (reached_struct v))
  /\ (forall v', through_ptr f (walk f) v = Return v' ->
        reached_ptr reached_struct v' = map f (reached_ptr reached_struct v))
  /\ (forall v', elem_case f (walk f) v = Return v' ->
        reached_elem reached_struct v' = map f (reached_elem reached_struct v))
  /\ (forall k e', entry_case f (walk f) (k, v) = Return e' ->
        reached_entry reached_struct e'
        = map f (reached_entry reached_struct (k, v)))
  /\ (forall ex fld', field_case f (walk f) (ex, v) = Return fld' ->
        reached_field reached_struct fld'
        = map f (reached_field reached_struct (ex, v))).
Proof.
  induction v as [t s|d|fields IH| |x IH|elems IH|entries IH]
    using value_ind_deep.
  - split; [|split; [|split; [|split]]].
    + intros v' [= <-]. reflexivity.
    + intros v' [= <-]. reflexivity.
    + intros v' [= <-]. reflexivity.
    + intros k e' He. destruct t; [discriminate He|].
      injection He as <-. reflexivity.
    + intros [|] fld' [= <-]; reflexivity.
  - split; [|split; [|split; [|split]]].
    + intros v' [= <-]. reflexivity.
    + intros v' [= <-]. reflexivity.
    + intros v' [= <-]. reflexivity.
    + intros k e' [= <-]. reflexivity.
    + intros [|] fld' [= <-]; reflexivity.
  - assert (HW : forall v', walk f (VStruct fields) = Return v' ->
                   reached_struct v' = map f (reached_struct (VStruct fields))).
    { intros v' Hv.
      destruct (walk_struct_inv f fields v' Hv) as (fields' & -> & E).
      rewrite !reached_struct_fields.
      apply (each_flat_map (field_case f (walk f))); [|exact E].
      eapply Forall_impl; [exact IH|].
      intros [ex x] (_ & _ & _ & _ & Hf). cbn in Hf. exact (Hf ex). }
    split; [exact HW|]. split; [|split; [|split]].
    + intros v' Hv. cbn [through_ptr] in Hv.
      destruct (walk_struct_inv f fields v' Hv) as (fields' & -> & _).
      exact (HW _ Hv).
    + intros v' Hv. cbn [elem_case] in Hv.
      destruct (walk_struct_inv f fields v' Hv) as (fields' & -> & _).
      exact (HW _ Hv).
    + intros k e' He. cbn [entry_case] in He.
      destruct (walk f (VStruct fields)) as [cp|] eqn:E; [|discriminate].
      injection He as <-. pose proof (HW cp eq_refl) as H1.
      destruct (walk_struct_inv f fields cp E) as (fields' & -> & _).
      exact H1.
    + intros [|] fld' Hf; cbn [field_case negb] in Hf.
      * destruct (walk f (VStruct fields)) as [v'|] eqn:E; [|discriminate].
        injection Hf as <-. pose proof (HW v' eq_refl) as H1.
        destruct (walk_struct_inv f fields v' E) as (fields' & -> & _).
        exact H1.
      * injection Hf as <-. reflexivity.
  - split; [|split; [|split; [|split]]].
    + intros v' [= <-]. reflexivity.
    + intros v' [= <-]. reflexivity.
    + intros v' [= <-]. reflexivity.
    + intros k e' [= <-]. reflexivity.
    + intros [|] fld' [= <-]; reflexivity.
  - destruct IH as (_ & HP & _).
    split; [|split; [|split; [|split]]].
    + intros v' [= <-]. reflexivity.
    + intros v' [= <-]. reflexivity.
    + intros v' Hv. cbn [elem_case] in Hv.
      destruct (through_ptr f (walk f) x) as [x'|] eqn:E; [|discriminate].
      injection Hv as <-. exact (HP x' eq_refl).
    + intros k e' [= <-]. reflexivity.
    + intros [|] fld' Hf; cbn [field_case negb] in Hf.
      * destruct (through_ptr f (walk f) x) as [x'|] eqn:E; [|discriminate].
        injection Hf as <-. exact (HP x' eq_refl).
      * injection Hf as <-. reflexivity.
  - split; [|split; [|split; [|split]]].
    + intros v' [= <-]. reflexivity.
    + intros v' [= <-]. reflexivity.
    + intros v' [= <-]. reflexivity.
    + intros k e' [= <-]. reflexivity.
    + intros [|] fld' Hf; cbn [field_case negb] in Hf.
      * destruct (each (elem_case f (walk f)) elems) as [elems'|] eqn:E;
          [|discriminate].
        injection Hf as <-.
        apply (each_flat_map (elem_case f (walk f))); [|exact E].
        eapply Forall_impl; [exact IH|]. intros x (_ & _ & He & _). exact He.
      * injection Hf as <-. reflexivity.
  - split; [|split; [|split; [|split]]].
    + intros v' [= <-]. reflexivity.
    + intros v' [= <-]. reflexivity.
    + intros v' [= <-]. reflexivity.
    + intros k e' [= <-]. reflexivity.
    + intros [|] fld' Hf; cbn [field_case negb] in Hf.
      * destruct (each (entry_case f (walk f)) entries) as [entries'|] eqn:E;
          [|discriminate].
        injection Hf as <-.
        apply (each_flat_map (entry_case f (walk f))); [|exact E].
        eapply Forall_impl; [exact IH|].
        intros [k x] (_ & _ & _ & He & _). cbn in He. exact (He k).
      * injection Hf as <-. reflexivity.
Qed.

Lemma stringFunc_reached (a b : value) :
  stringFunc f a = Return b -> reached b = map f (reached a).
Proof.
  intros Ha. destruct a as [| | |[v|]| |]; try (injection Ha as <-; reflexivity).
  destruct v as [| |fields| | |]; try (injection Ha as <-; reflexivity).
  cbn [stringFunc] in Ha.
  destruct (walk f (VStruct fields)) as [v'|] eqn:E; [|discriminate].
  injection Ha as <-.
  exact (proj1 (walk_reached_cases (VStruct fields)) v' E).
Qed.

End Panics.

(** *** What the walk leaves alone *)

Lemma each_same {A : Type} (g : A -> result A) (l : list A) :
  Forall (fun x => g x = Return x) l -> each g l = Return l.
Proof.
  induction 1 as [|x l Hx _ IH]; [reflexivity|].
  cbn. rewrite Hx. cbn. rewrite IH. reflexivity.
Qed.

Lemma field_case_no_case (f : string -> string) (ex : bool) (x : value) :
  ex = false \/ no_case_field x = true ->
  field_case f (walk f) (ex, x) = Return (ex, x).
Proof.
  intros [-> | Hx]; [reflexivity|].
  destruct ex; [|reflexivity]. cbn [field_case negb].
  destruct x as [t s|d|fields|[y|]|elems|entries]; try discriminate Hx;
    try reflexivity.
  - destruct y; try discriminate Hx; reflexivity.
  - rewrite each_same; [reflexivity|].
    cbn in Hx. rewrite forallb_forall in Hx. apply List.Forall_forall.
    intros elem Hin. specialize (Hx elem Hin).
    destruct elem as [| | |[y|]| |]; try discriminate Hx; try reflexivity.
    destruct y; try discriminate Hx; reflexivity.
  - rewrite each_same; [reflexivity|].
    cbn in Hx. rewrite forallb_forall in Hx. apply List.Forall_forall.
    intros [k val] Hin. specialize (Hx (k, val) Hin). cbn in Hx.
    destruct val as [| | |[y|]| |]; try discriminate Hx; reflexivity.
Qed.

(** *** [strings.TrimSpace] trims once and for all *)

Lemma trimLeft_head (s : string) :
  match rules.trimLeft s with
  | EmptyString => True
  | String.String a _ => rules.isSpace a = false
  end.
Proof.
  induction s as [|a s IH]; [exact I|].
  cbn. destruct (rules.isSpace a) eqn:E; [exact IH|exact E].
Qed.

Lemma trimRight_head (a : ascii) (s : string) :
  rules.isSpace a = false ->
  exists r, rules.trimRight (String.String a s) = String.String a r.
Proof.
  intros Ha. cbn. destruct (rules.trimRight s) as [|b r].
  - rewrite Ha. exists EmptyString. reflexivity.
  - exists (String.String b r). reflexivity.
Qed.

Lemma trimRight_trimRight (s : string) :
  rules.trimRight (rules.trimRight s) = rules.trimRight s.
Proof.
  induction s as [|a s IH]; [reflexivity|].
  cbn. destruct (rules.trimRight s) as [|b r] eqn:E.
  - destruct (rules.isSpace a) eqn:Ea; [reflexivity|].
    cbn. rewrite Ea. reflexivity.
  - change (rules.trimRight (String.String a (String.String b r)))
      with (match rules.trimRight (String.String b r) with
            | EmptyString =>
                if rules.isSpace a then EmptyString
                else String.String a EmptyString
            | r' => String.String a r'
            end).
    rewrite IH. reflexivity.
Qed.

Lemma TrimSpace_TrimSpace (s : string) :
  rules.TrimSpace (rules.TrimSpace s) = rules.TrimSpace s.
Proof.
  unfold rules.TrimSpace. pose proof (trimLeft_head s) as Hh.
  destruct (rules.trimLeft s) as [|a t]; [reflexivity|].
  destruct (trimRight_head a t Hh) as [r Hr]. rewrite Hr.
  assert (Hl : rules.trimLeft (String.String a r) = String.String a r)
    by (cbn; rewrite Hh; reflexivity).
  rewrite Hl, <- Hr. apply trimRight_trimRight.
Qed.

(** *** The properties of [stringFunc] *)


(** X2.  [stringFunc] with a function that changes none of its own
    results, run on what a first run left, changes nothing more;
    [StructTrimSpace] is such a run. *)
Theorem StructTrimSpace_idempotent :
  (forall (f : string -> string) (a b : value),
      (forall s, f (f s) = f s) ->
      stringFunc f a = Return b -> stringFunc f b = Return b)
  /\ (forall a b : value,
        StructTrimSpace a = Return b -> StructTrimSpace b = Return b).
Proof.
  assert (H : forall (f : string -> string) (a b : value),
             (forall s, f (f s) = f s) ->
             stringFunc f a = Return b -> stringFunc f b = Return b).
  { intros f a b Hf Ha.
    rewrite (stringFunc_fusion f f f Hf a b Ha). exact Ha. }
  split; [exact H|].
  intros a b. apply H. exact TrimSpace_TrimSpace.
Qed.

(** X3.  [stringFunc] panics exactly when the walk meets a map one of
    whose values is of a defined string type ([SetMapIndex] is given a
    [string], which is not assignable to it), whatever the function. *)
Theorem stringFunc_panics_iff (f : string -> string) (a : value) :
  stringFunc f a = Panic <-> blocked a = true.
Proof. apply stringFunc_Panic. Qed.


(** X5.  What [stringFunc] leaves alone.  Anything but a pointer to a
    struct is returned as it is: a struct passed by value, a nil pointer,
    a pointer to a pointer.  In the struct, a field that is not exported,
    and an exported field the function has no case for (an interface, an
    array, a number, a nil pointer, a pointer to a pointer, a slice of
    slices, a map of pointers, ...), is the same after the call. *)
Theorem stringFunc_leaves_alone (f : string -> string) :
  (forall a, (forall fields, a <> VPtr (Some (VStruct fields))) ->
     stringFunc f a = Return a)
  /\ (forall fields b (i : nat) ex x,
        stringFunc f (VPtr (Some (VStruct fields))) = Return b ->
        fields !! i = Some (ex, x) ->
        ex = false \/ no_case_field x = true ->
        exists fields',
          b = VPtr (Some (VStruct fields'))
          /\ fields' !! i = Some (ex, x)).
Proof.
  split.
  - intros a Ha. destruct a as [| | |[v|]| |]; try reflexivity.
    destruct v as [| |fields| | |]; try reflexivity.
    destruct (Ha fields eq_refl).
  - intros fields b i ex x Hb Hi Hx. cbn [stringFunc] in Hb.
    destruct (walk f (VStruct fields)) as [v'|] eqn:E; [|discriminate].
    injection Hb as <-.
    destruct (walk_struct_inv f fields v' E) as (fields' & -> & Hf).
    exists fields'. split; [reflexivity|].
    apply each_Return in Hf.
    destruct (Forall2_lookup_l _ _ _ i (ex, x) Hf Hi) as (y & Hy & Hc).
    rewrite (field_case_no_case f ex x Hx) in Hc. injection Hc as <-.
    exact Hy.
Qed.

End TransformProperties.

(** [StructTrimSpace] on the example [person], twice. *)
Lemma StructTrimSpace_idempotent_witness :
  transform.StructTrimSpace (transform.person " Ann " " s " " t " " n " " v ")
  = Return (transform.person "Ann" " s " "t" "n" "v")
  /\ transform.StructTrimSpace (transform.person "Ann" " s " "t" "n" "v")
     = Return (transform.person "Ann" " s " "t" "n" "v").
Proof.
  split; [reflexivity|].
  apply (proj2 StructTrimSpace_idempotent
           (transform.person " Ann " " s " " t " " n " " v ")).
  reflexivity.
Defined.

(** A map of values of the defined type [Label] stops the walk. *)
Lemma stringFunc_panics_witness :
  transform.StructTrimSpace (transform.labelled " x ") = Panic.
Proof.
  apply (proj2 (stringFunc_panics_iff rules.TrimSpace (transform.labelled " x "))).
  reflexivity.
Defined.


(** The field [secret] of [person], which is not exported, keeps its
    blanks. *)
Lemma stringFunc_leaves_alone_witness :
  exists fields',
    transform.person "Ann" " s " "t" "n" "v"
    = transform.VPtr (Some (transform.VStruct fields'))
    /\ fields' !! 1%nat = Some (false, transform.VString None " s ").
Proof.
  exact (proj2 (stringFunc_leaves_alone rules.TrimSpace)
           (transform.person_fields " Ann " " s " " t " " n " " v ")
           (transform.person "Ann" " s " "t" "n" "v") 1%nat false
           (transform.VString None " s ") eq_refl eq_refl (or_introl eq_refl)).
Defined.

(** ** Registering operations *)

Section AddPathProperties.

Import openapi.
Context {Operation Rest : Type} (no_rest : Rest).
#[local] Abbreviation T := (T Operation Rest).
#[local] Abbreviation AddPath := (AddPath Operation Rest no_rest).

#[local] Ltac by_method :=
  repeat match goal with
    | |- context [String.eqb ?a ?b] =>
        destruct (String.eqb_spec a b); subst; try discriminate; try congruence
    | H : context [String.eqb ?a ?b] |- _ =>
        destruct (String.eqb_spec a b); subst; try discriminate; try congruence
    end.

(** X6.  [AddPath] with one of the five methods it knows: the document
    then has the operation for that path and method, and has for every
    other path and method what it had before. *)
Theorem AddPath_registers (path method : string) (s : T)
    (op : option Operation) :
  known method = true ->
  operation (AddPath path method s op) path method = op
  /\ (forall path' method', path' <> path \/ method' <> method ->
        operation (AddPath path method s op) path' method'
        = operation s path' method').
Proof.
  intros Hk. split.
  - unfold operation, AddPath, openapi.AddPath. cbn [Paths].
    rewrite lookup_insert_eq. unfold known in Hk.
    unfold MethodGet, MethodPost, MethodPut, MethodPatch, MethodDelete in *.
    by_method; reflexivity.
  - intros path' method' Hne.
    unfold operation, AddPath, openapi.AddPath. cbn [Paths].
    destruct (decide (path' = path)) as [->|Hp].
    + rewrite lookup_insert_eq. destruct Hne as [Hne|Hne]; [congruence|].
      unfold known in Hk.
      unfold MethodGet, MethodPost, MethodPut, MethodPatch, MethodDelete in *.
      destruct (Paths s !! path) as [p|];
        by_method; reflexivity.
    + rewrite lookup_insert_ne by congruence. reflexivity.
Qed.

(** X7.  [AddPath] with any other method name ([HEAD], or [get] in lower
    case): no operation of the document changes, the operation given is
    dropped, and the path has an item in the document afterwards. *)
Theorem AddPath_unknown_method (path method : string) (s : T)
    (op : option Operation) :
  known method = false ->
  (forall path' method',
      operation (AddPath path method s op) path' method'
      = operation s path' method')
  /\ Paths (AddPath path method s op) !! path
     = Some (match Paths s !! path with
             | Some p => p
             | None => new_PathItem Operation Rest no_rest
             end).
Proof.
  intros Hk. split.
  - intros path' method'.
    unfold operation, AddPath, openapi.AddPath. cbn [Paths].
    destruct (decide (path' = path)) as [->|Hp].
    + rewrite lookup_insert_eq. unfold known in Hk.
      unfold MethodGet, MethodPost, MethodPut, MethodPatch, MethodDelete in *.
      destruct (Paths s !! path) as [p|]; by_method; reflexivity.
    + rewrite lookup_insert_ne by congruence. reflexivity.
  - unfold AddPath, openapi.AddPath. cbn [Paths].
    rewrite lookup_insert_eq. unfold known in Hk.
    unfold MethodGet, MethodPost, MethodPut, MethodPatch, MethodDelete in *.
    by_method; reflexivity.
Qed.

(** X8.  Two calls of [AddPath] for the same path and method leave what
    the second alone leaves; two calls for different paths, or for
    different methods, leave the same document in either order. *)
Theorem AddPath_order (s : T) (path1 method1 path2 method2 : string)
    (op1 op2 : option Operation) :
  AddPath path1 method1 (AddPath path1 method1 s op1) op2
  = AddPath path1 method1 s op2
  /\ (path1 <> path2 \/ method1 <> method2 ->
      AddPath path2 method2 (AddPath path1 method1 s op1) op2
      = AddPath path1 method1 (AddPath path2 method2 s op2) op1).
Proof.
  split.
  - unfold AddPath, openapi.AddPath. cbn [Paths OpenAPI Title Description Version].
    rewrite lookup_insert_eq, insert_insert_eq. do 2 f_equal.
    unfold MethodGet, MethodPost, MethodPut, MethodPatch, MethodDelete.
    destruct (Paths s !! path1) as [[? ? ? ? ? ?]|]; by_method; reflexivity.
  - intros Hne.
    unfold AddPath, openapi.AddPath. cbn [Paths OpenAPI Title Description Version].
    f_equal. destruct (decide (path1 = path2)) as [->|Hp].
    + destruct Hne as [Hne|Hne]; [congruence|].
      rewrite !lookup_insert_eq, !insert_insert_eq. f_equal.
      unfold MethodGet, MethodPost, MethodPut, MethodPatch, MethodDelete.
      destruct (Paths s !! path2) as [[? ? ? ? ? ?]|]; by_method; reflexivity.
    + rewrite !lookup_insert_ne by congruence.
      apply insert_insert_ne. congruence.
Qed.

End AddPathProperties.

(** [AddPath] with [POST] on the document [DocBase] returns. *)
Lemma AddPath_registers_witness :
  openapi.operation
    (openapi.AddPath string unit tt "/orders" openapi.MethodPost
       (openapi.DocBase "svc" "" "1.0") (Some "createOrder"))
    "/orders" "POST"
  = Some "createOrder".
Proof.
  exact (proj1 (AddPath_registers tt "/orders" openapi.MethodPost
                  (openapi.DocBase "svc" "" "1.0") (Some "createOrder")
                  eq_refl)).
Defined.

(** [AddPath] with the method name in lower case registers nothing. *)
Lemma AddPath_unknown_method_witness :
  openapi.operation
    (openapi.AddPath string unit tt "/orders" "post"
       (openapi.DocBase "svc" "" "1.0") (Some "createOrder"))
    "/orders" "POST"
  = None.
Proof.
  exact (proj1 (AddPath_unknown_method tt "/orders" "post"
                  (openapi.DocBase "svc" "" "1.0") (Some "createOrder")
                  eq_refl) "/orders" "POST").
Defined.

(** ** Fields without rules *)

Section CheckProperties.

Import check.
Variables excl covered : gset string.

(** A field whose key is reported when the walk looks at it. *)
#[local] Abbreviation wanted sf k :=
  (reportable sf = true /\ fieldKey sf = k /\ (k ∉ excl) /\ (Name sf ∉ excl)
   /\ (k ∉ covered)).

Lemma rtype_ind_deep (P : rtype -> Prop)
    (HStruct : forall fields, Forall (fun f => P f.2) fields -> P (RStruct fields))
    (HPtr : forall e, P e -> P (RPtr e))
    (HOther : forall k, P (ROther k)) :
  forall t, P t.
Proof.
  fix IH 1. intros [fields|e|k].
  - apply HStruct. induction fields as [|[sf ft] fields IHf]; constructor.
    + apply IH.
    + exact IHf.
  - apply HPtr, IH.
  - apply HOther.
Qed.

(** The loop appends what each field appends. *)
Lemma over_fields_spec {A : Type}
    (g : A -> list string -> result (list string)) (C : A -> string -> Prop)
    (l : list A) :
  Forall (fun x => forall m, exists found,
            g x m = Return (m ++ found) /\ forall k, k ∈ found <-> C x k) l ->
  forall m, exists found,
    over_fields g l m = Return (m ++ found)
    /\ forall k, k ∈ found <-> exists x, x ∈ l /\ C x k.
Proof.
  induction 1 as [|x l Hx _ IH]; intros m.
  - exists []. split; [cbn; rewrite app_nil_r; reflexivity|].
    intros k. split; [intros Hk; inversion Hk|].
    intros (x & Hx & _). inversion Hx.
  - destruct (Hx m) as (found1 & E1 & H1).
    destruct (IH (m ++ found1)) as (found2 & E2 & H2).
    exists (found1 ++ found2). split.
    + cbn. rewrite E1. cbn. rewrite E2, app_assoc. reflexivity.
    + intros k. rewrite elem_of_app, H1, H2. split.
      * intros [Hk|(y & Hy & Hk)].
        -- exists x. split; [left|exact Hk].
        -- exists y. split; [right; exact Hy|exact Hk].
      * intros (y & Hy & Hk). apply elem_of_cons in Hy.
        destruct Hy as [->|Hy]; [left; exact Hk|].
        right. exists y. split; assumption.
Qed.

(** A field that is not embedded appends its key, or nothing. *)
Lemma uncovered_field_own collect (sf : FieldInfo) (ft : rtype)
    (m : list string) :
  Anonymous sf = false ->
  exists found,
    uncovered_field collect excl covered (sf, ft) m = Return (m ++ found)
    /\ forall k, k ∈ found <-> wanted sf k.
Proof.
  intros Ha. unfold uncovered_field, reportable. rewrite Ha.
  destruct (IsExported sf); cbn [negb andb];
    [|exists []; rewrite app_nil_r; split; [reflexivity|];
      intros k; split; [intros Hk; inversion Hk|intros (? & _); discriminate]].
  destruct (String.eqb (engine.before_comma (engine.Tag_Get (Tag sf) "json")) "-");
    cbn [negb andb];
    [exists []; rewrite app_nil_r; split; [reflexivity|];
      intros k; split; [intros Hk; inversion Hk|intros (? & _); discriminate]|].
  destruct (String.eqb (engine.before_comma (engine.Tag_Get (Tag sf) "docs")) "skip");
    cbn [negb andb];
    [exists []; rewrite app_nil_r; split; [reflexivity|];
      intros k; split; [intros Hk; inversion Hk|intros (? & _); discriminate]|].
  destruct (String.eqb (engine.Tag_Get (Tag sf) "validate") "-");
    cbn [negb andb];
    [exists []; rewrite app_nil_r; split; [reflexivity|];
      intros k; split; [intros Hk; inversion Hk|intros (? & _); discriminate]|].
  destruct (bool_decide (fieldKey sf ∈ excl)) eqn:E1; cbn [orb].
  { apply bool_decide_eq_true in E1.
    exists []. rewrite app_nil_r. split; [reflexivity|].
    intros k. split; [intros Hk; inversion Hk|].
    intros (_ & <- & Hk & _). contradiction. }
  apply bool_decide_eq_false in E1.
  destruct (bool_decide (Name sf ∈ excl)) eqn:E2.
  { apply bool_decide_eq_true in E2.
    exists []. rewrite app_nil_r. split; [reflexivity|].
    intros k. split; [intros Hk; inversion Hk|].
    intros (_ & _ & _ & Hk & _). contradiction. }
  apply bool_decide_eq_false in E2.
  destruct (bool_decide (fieldKey sf ∈ covered)) eqn:E3; cbn [negb].
  { apply bool_decide_eq_true in E3.
    exists []. rewrite app_nil_r. split; [reflexivity|].
    intros k. split; [intros Hk; inversion Hk|].
    intros (_ & <- & _ & _ & Hk). contradiction. }
  apply bool_decide_eq_false in E3.
  exists [fieldKey sf]. split; [reflexivity|].
  intros k. rewrite list_elem_of_singleton. split.
  - intros ->. auto.
  - intros (_ & <- & _). reflexivity.
Qed.

Lemma collectUncovered_spec (t : rtype) :
  forall inner, inner_struct t = Some inner ->
  forall m, exists found,
    collectUncovered inner excl covered m = Return (m ++ found)
    /\ forall k, k ∈ found <-> exists sf, field_of inner sf /\ wanted sf k.
Proof.
  induction t as [fields0 IH|e IHe|k0] using rtype_ind_deep;
    intros inner Hinner m; [|destruct e; try discriminate Hinner|discriminate].
  2: { injection Hinner as <-. apply (IHe _ eq_refl). }
  injection Hinner as <-.
  cbn [collectUncovered].
  destruct (over_fields_spec
              (uncovered_field
                 (fun inner m => collectUncovered inner excl covered m)
                 excl covered)
              (fun field k =>
                 (Anonymous field.1 = false /\ wanted field.1 k)
                 \/ (Anonymous field.1 = true
                     /\ exists inner sf',
                          inner_struct field.2 = Some inner
                          /\ field_of inner sf' /\ wanted sf' k))
              fields0) with (m := m) as (found & E & Hfound).
  - eapply Forall_impl; [exact IH|]. intros [sf ft] Hft m'. cbn in Hft.
    cbn [fst snd].
    destruct (Anonymous sf) eqn:Ha.
    + (* an embedded field *)
      destruct (inner_struct ft) as [inner|] eqn:Hi.
      * destruct (Hft inner eq_refl m') as (found & E & Hf).
        exists found. split.
        -- unfold uncovered_field. rewrite Ha.
           destruct ft as [fs|[fs|e'|k']|k']; try discriminate Hi;
             injection Hi as <-; exact E.
        -- intros k. rewrite Hf. split.
           ++ intros (sf' & Hof & Hw). right. split; [reflexivity|].
              exists inner, sf'. auto.
           ++ intros [[? _]|(_ & inner' & sf' & [= <-] & Hof & Hw)];
                [discriminate|].
              exists sf'. auto.
      * exists []. rewrite app_nil_r. split.
        -- unfold uncovered_field. rewrite Ha.
           destruct ft as [fs|[fs|e'|k']|k']; try discriminate Hi; reflexivity.
        -- intros k. split; [intros Hk; inversion Hk|].
           intros [[? _]|(_ & inner & sf' & ? & _)]; discriminate.
    + destruct (uncovered_field_own
                  (fun inner m => collectUncovered inner excl covered m)
                  sf ft m' Ha) as (found & E & Hf).
      exists found. split; [exact E|].
      intros k. rewrite Hf. cbn [fst snd]. split.
      * intros Hw. left. auto.
      * intros [[_ Hw]|[? _]]; [exact Hw|discriminate].
  - exists found. split; [exact E|].
    intros k. rewrite Hfound. split.
    + intros ([sf ft] & Hin & [[Ha Hw]|(Ha & inner & sf' & Hi & Hof & Hw)]);
        cbn [fst snd] in *.
      * exists sf. split; [exact (field_own fields0 sf ft Hin Ha)|exact Hw].
      * exists sf'. split; [|exact Hw].
        exact (field_embedded fields0 sf ft inner sf' Hin Ha Hi Hof).
    + intros (sf' & Hof & Hw).
      inversion Hof as [fs sf ft Hin Ha|fs sf ft inner sf'' Hin Ha Hi Hof'];
        subst.
      * exists (sf', ft). split; [exact Hin|]. left. auto.
      * exists (sf, ft). split; [exact Hin|]. right. split; [exact Ha|].
        exists inner, sf'. auto.
Qed.


End CheckProperties.


(** ** More on the validation traversal *)

Section ValidateEdges.

Import engine.
Context {Ctx Rule : Type} `{!Env Ctx Rule}.
#[local] Abbreviation any := (any Ctx Rule).
#[local] Abbreviation FieldRules := (FieldRules Ctx Rule).

(** Elements of a kind other than struct, slice, array and map are not
    auto-validated. *)
Lemma shouldAutoValidate_kind (t : type) :
  type_Kind t <> Struct -> type_Kind t <> Slice -> type_Kind t <> Array ->
  type_Kind t <> Map ->
  shouldAutoValidate t = false /\ shouldAutoValidate' t = false.
Proof.
  induction t as [k|name u IH|e _|e _|n e _|k _ e _|id|id|k id];
    cbn [type_Kind]; intros H1 H2 H3 H4; try congruence.
  - split; [|reflexivity]. cbn.
    rewrite bool_decide_eq_false_2 by exact H1. reflexivity.
  - destruct (IH H1 H2 H3 H4) as [_ IH'].
    split; [|exact IH']. cbn [shouldAutoValidate type_Kind].
    rewrite bool_decide_eq_false_2 by exact H1. exact IH'.
  - split; reflexivity.
  - split; reflexivity.
  - split; [|reflexivity]. cbn.
    rewrite bool_decide_eq_false_2 by exact H1. reflexivity.
Qed.

(** X10.  What [validateCore] does not look into.  A slice, an array or a
    map whose element type is a pointer, an interface or a scalar (a
    [[]*T], a [map[K]*T], a [[]any]) validates to nil whatever it holds,
    when its own type declares nothing: its elements are not validated.
    So does a struct or a scalar whose type and pointer type declare
    nothing: the fields of the struct are not visited. *)
Theorem validateCore_not_looked_into (ctx : Ctx) :
  (forall (value : any) (e : type),
      as_Ruler value = NoRuler -> as_ValueRuler value = None ->
      Kind_of value = Slice \/ Kind_of value = Array \/ Kind_of value = Map ->
      (TypeOf value ≫= type_Elem) = Return e ->
      type_Kind e <> Struct -> type_Kind e <> Slice ->
      type_Kind e <> Array -> type_Kind e <> Map ->
      validateCore ctx value = Return None)
  /\ (forall value : any,
        as_Ruler value = NoRuler -> as_ValueRuler value = None ->
        (Kind_of value = Struct -> as_Ruler (pointer_to value) = NoRuler) ->
        Kind_of value <> Ptr -> Kind_of value <> Interface ->
        Kind_of value <> Slice -> Kind_of value <> Array ->
        Kind_of value <> Map ->
        validateCore ctx value = Return None).
Proof.
  split.
  - intros value e Hr Hv Hk He H1 H2 H3 H4.
    rewrite validateCore_eq_source. unfold validateCore_source.
    rewrite Hr, Hv. cbn [validateDeclared].
    pose proof (proj1 (shouldAutoValidate_kind e H1 H2 H3 H4)) as Hauto.
    destruct value as [|t m d|elem addr target|t c|t m elems|t m elems
                       |t m entries|t m fields];
      try (cbn [Kind_of] in Hk; destruct Hk as [Hk|[Hk|Hk]]; discriminate Hk).
    + exfalso. destruct (scalar_Kind_not_composite d) as (_ & _ & S1 & S2 & S3 & _).
      cbn [Kind_of] in Hk. destruct Hk as [Hk|[Hk|Hk]]; contradiction.
    + cbn in He |- *. rewrite He. cbn. rewrite Hauto. reflexivity.
    + cbn in He |- *. rewrite He. cbn. rewrite Hauto. reflexivity.
    + cbn in He |- *. rewrite He. cbn. rewrite Hauto. reflexivity.
  - intros value Hr Hv Hp K1 K2 K3 K4 K5.
    rewrite validateCore_eq_source. unfold validateCore_source.
    rewrite Hr, Hv. cbn [validateDeclared].
    destruct value as [|t m d|elem addr target|t c|t m elems|t m elems
                       |t m entries|t m fields];
      try (cbn [Kind_of] in K1, K2, K3, K4, K5; congruence).
    + reflexivity.
    + cbn [Kind_of IsNil Indirect Indirect_CanAddr].
      destruct (scalar_Kind_not_composite d) as (_ & Hs & _).
      rewrite (bool_decide_eq_false_2 _ Hs). rewrite !andb_false_r.
      reflexivity.
    + rewrite (Hp eq_refl). reflexivity.
Qed.

End ValidateEdges.

(** A slice of pointers to [valItem]: the blank name of its element is
    not reported. *)
Lemma validateCore_not_looked_into_witness :
  engine.validateCore fixtures.background
    (engine.SliceV (engine.SliceOf (engine.PtrTo fixtures.T_valItem))
       engine.no_methods [engine.pointer_to (fixtures.valItem 64 "")])
  = Return None.
Proof.
  apply (proj1 (validateCore_not_looked_into fixtures.background)
           _ (engine.PtrTo fixtures.T_valItem));
    try reflexivity; try discriminate.
  left. reflexivity.
Defined.

Section PointerEdges.

Import engine.
Context {Ctx Rule : Type} `{!Env Ctx Rule}.
#[local] Abbreviation any := (any Ctx Rule).
#[local] Abbreviation FieldRules := (FieldRules Ctx Rule).

(** X11.  Pointers to pointers.  A nil pointer validates to nil.  A
    pointer to a pointer is validated as what the inner pointer points to,
    passed by value; when the inner pointer is nil, and when the pointer
    points to an interface that is nil, [validateCore] panics
    ([rv.Elem().Interface()] on the zero [reflect.Value]). *)
Theorem validateCore_pointer_to_pointer (ctx : Ctx) (elem : type) (addr : Z) :
  validateCore ctx (Pointer elem addr None) = Return None
  /\ (forall elem' addr',
        validateCore ctx (Pointer elem addr (Some (Pointer elem' addr' None)))
        = Panic)
  /\ (forall t,
        validateCore ctx (Pointer elem addr (Some (IfaceCell t Nil))) = Panic)
  /\ (forall elem' addr' (e : any),
        validateCore ctx (Pointer elem addr (Some (Pointer elem' addr' (Some e))))
        = validateCore ctx (Interface_of e)).
Proof.
  split; [reflexivity|]. split; [|split].
  - intros elem' addr'. rewrite validateCore_eq_source. reflexivity.
  - intros t. rewrite validateCore_eq_source. reflexivity.
  - intros elem' addr' e. rewrite validateCore_eq_source. reflexivity.
Qed.

(** The struct is not addressable: the first field looked at makes
    [UnsafeAddr] panic. *)
Lemma findStructField_unaddressable t m (fields : list (StructField * Z * any))
    elem ptr target :
  fields <> [] ->
  findStructField false (StructV t m fields) (Pointer elem ptr target) = Panic.
Proof.
  induction fields as [|[[sf a] fi] fields IH]; intros Hne; [congruence|].
  rewrite findStructField_cons.
  destruct fields as [|f fields].
  - rewrite findStructField_nil. reflexivity.
  - rewrite IH by discriminate. reflexivity.
Qed.

(** X12.  [expandFields] on a struct passed by value, not through a
    pointer: the struct is not addressable, and the first binding that is
    a pointer makes [findStructField] panic, when the struct has a field.
    So do the bindings of a declarator with a value receiver. *)
Theorem expandFields_by_value_panics (ctx : Ctx) t m
    (fields : list (StructField * Z * any)) (pre post : list FieldRules)
    (fr : FieldRules) :
  fields <> [] ->
  Forall (fun fr' : FieldRules => Kind_of (fieldPtr fr') <> Ptr) pre ->
  Kind_of (fieldPtr fr) = Ptr ->
  findStructField false (StructV t m fields) (fieldPtr fr) = Panic
  /\ expandFields ctx (StructV t m fields) (pre ++ fr :: post) = Panic.
Proof.
  intros Hne Hpre Hfr.
  assert (Hfind : findStructField false (StructV t m fields) (fieldPtr fr)
                  = Panic).
  { destruct (fieldPtr fr) as [|t' m' d| | | | | |]; try discriminate Hfr.
    - destruct (scalar_Kind_not_composite d) as (Hs & _). contradiction.
    - apply findStructField_unaddressable, Hne. }
  split; [exact Hfind|].
  rewrite expandFields_struct by reflexivity.
  cbn [Indirect Indirect_CanAddr].
  induction Hpre as [|fr' pre Hfr' _ IH]; cbn [app expandLoop].
  - unfold expandOne. rewrite bool_decide_eq_true_2 by exact Hfr.
    rewrite Hfind. reflexivity.
  - unfold expandOne at 1. rewrite bool_decide_eq_false_2 by exact Hfr'.
    cbn. rewrite IH. reflexivity.
Qed.

(** X13.  A pointer to a field resolves to that field.  In an addressable
    struct, a pointer that holds the address of a field and has the type
    of that field resolves to it, when none of the fields declared after
    it is embedded or at the same address (the fields declared before are
    not looked at). *)
Theorem findStructField_resolves t m
    (before after : list (StructField * Z * any)) (sf : StructField) (a : Z)
    (fi target : any) :
  Forall (fun f : StructField * Z * any =>
            Anonymous f.1.1 = false /\ f.1.2 <> a) after ->
  findStructField true (StructV t m (before ++ (sf, a, fi) :: after))
    (Pointer (Type_ sf) a (Some target))
  = Return (Some sf).
Proof.
  intros Hafter.
  assert (Hnone : findStructField true (StructV t m after)
                    (Pointer (Type_ sf) a (Some target)) = Return None).
  { induction Hafter as [|[[sf' a'] fi'] after [Hanon Ha] _ IH].
    - apply findStructField_nil.
    - rewrite findStructField_cons, IH. cbn in Hanon, Ha |- *.
      rewrite bool_decide_eq_false_2 by congruence. cbn.
      rewrite Hanon. reflexivity. }
  rewrite findStructField_app, findStructField_cons, Hnone. cbn.
  rewrite !bool_decide_eq_true_2 by reflexivity. reflexivity.
Qed.

(** X14.  [validateValueRules] returns the error of the first rule that
    rejects the value, and nil exactly when every rule accepts it; on a
    list in two parts it is the result on the first part when that is an
    error, and the result on the second part otherwise. *)
Theorem validateValueRules_first_error (value : any) :
  (forall rules,
      validateValueRules value rules = None
      <-> Forall (fun r => Rule_Validate r value = None) rules)
  /\ (forall pre r post e,
        Forall (fun r' => Rule_Validate r' value = None) pre ->
        Rule_Validate r value = Some e ->
        validateValueRules value (pre ++ r :: post) = Some e)
  /\ (forall a b,
        validateValueRules value (a ++ b)
        = match validateValueRules value a with
          | Some e => Some e
          | None => validateValueRules value b
          end).
Proof.
  assert (Happ : forall a b,
             validateValueRules value (a ++ b)
             = match validateValueRules value a with
               | Some e => Some e
               | None => validateValueRules value b
               end).
  { intros a b. induction a as [|r a IH]; [reflexivity|].
    cbn. destruct (Rule_Validate r value); [reflexivity|exact IH]. }
  assert (Hall : forall rules,
             validateValueRules value rules = None
             <-> Forall (fun r => Rule_Validate r value = None) rules).
  { intros rules. induction rules as [|r rules IH]; cbn.
    - split; [constructor|reflexivity].
    - destruct (Rule_Validate r value) as [e|] eqn:E.
      + split; [discriminate|]. intros Hf. inversion Hf; congruence.
      + rewrite IH. split.
        * intros Hf. constructor; assumption.
        * intros Hf. inversion Hf; assumption. }
  split; [exact Hall|]. split; [|exact Happ].
  intros pre r post e Hpre Hr.
  rewrite Happ, (proj2 (Hall pre) Hpre). cbn. rewrite Hr. reflexivity.
Qed.

End PointerEdges.

(** [valItem] passed by value to the expander, with the binding its
    declarator returns. *)
Lemma expandFields_by_value_witness :
  engine.expandFields fixtures.background (fixtures.valItem 64 "")
    ([] ++ engine.Field
             (engine.Pointer fixtures.T_string 64 (Some (fixtures.str "")))
             ["Required"; "Length"] :: [])
  = Panic.
Proof.
  refine (proj2 (expandFields_by_value_panics fixtures.background
                   fixtures.T_valItem _
                   [(fixtures.field "Name" fixtures.T_string false, 64,
                     fixtures.str "")]
                   [] []
                   (engine.Field
                      (engine.Pointer fixtures.T_string 64
                         (Some (fixtures.str "")))
                      ["Required"; "Length"]) _ _ _)).
  - discriminate.
  - constructor.
  - reflexivity.
Defined.

(** The binding of [valWithEmbed] for its embedded [valBase], which sits
    at the address of the struct, before the field [Value]. *)
Lemma findStructField_resolves_witness :
  engine.findStructField true (fixtures.valWithEmbed 1000 "" "v")
    (engine.Pointer fixtures.T_valBase 1000 (Some (fixtures.valBase 1000 "")))
  = Return (Some (fixtures.field "valBase" fixtures.T_valBase true)).
Proof.
  refine (findStructField_resolves (Ctx := fixtures.context)
            (Rule := fixtures.rule) fixtures.T_valWithEmbed _
            []
            [(fixtures.field "Value" fixtures.T_string false, 1000 + 16,
              fixtures.str "v")]
            (fixtures.field "valBase" fixtures.T_valBase true) 1000
            (fixtures.valBase 1000 "") (fixtures.valBase 1000 "") _).
  constructor; [|constructor]. split; [reflexivity|]. cbn. lia.
Defined.

(** ** More on schema synthesis *)

Section SchemaEdges.

Import engine openapi3.
Context {Ctx Rule : Type} `{!Env Ctx Rule}.
#[local] Abbreviation any := (any Ctx Rule).
#[local] Abbreviation FieldRules := (FieldRules Ctx Rule).

(** The loop of [NewRequest] collects the schemas in the order of the
    values. *)
Lemma NewRequest_from_collects (vs : list any) (ss : list Schema) :
  Forall2 (fun v s => newSchemaRefForValue v = Return (inr s)) vs ss ->
  forall oneOf, NewRequest_from vs oneOf = Return (inr (oneOf ++ ss)).
Proof.
  induction 1 as [|v s vs ss Hv _ IH]; intros oneOf; cbn [NewRequest_from].
  - rewrite app_nil_r. reflexivity.
  - rewrite Hv. cbn. rewrite IH, <- app_assoc. reflexivity.
Qed.

(** X15.  [NewRequest] without values returns the error "no values
    given"; with one value it returns the schema of that value itself; with
    two or more it returns a schema whose [OneOf] lists the schemas of the
    values, in their order. *)
Theorem NewRequest_cases :
  NewRequest [] = Return (inl "no values given")
  /\ (forall (v : any) (s : Schema),
        newSchemaRefForValue v = Return (inr s) ->
        NewRequest [v] = Return (inr s))
  /\ (forall (vs : list any) (ss : list Schema),
        (2 <= length vs)%nat ->
        Forall2 (fun v s => newSchemaRefForValue v = Return (inr s)) vs ss ->
        NewRequest vs = Return (inr (set_OneOf ss openapi3.empty))).
Proof.
  split; [reflexivity|]. split.
  - intros v s Hv. unfold NewRequest. cbn [length bool_decide NewRequest_from].
    rewrite bool_decide_eq_false_2 by discriminate.
    rewrite Hv. reflexivity.
  - intros vs ss Hlen Hall. unfold NewRequest.
    rewrite bool_decide_eq_false_2 by lia.
    rewrite (NewRequest_from_collects vs ss Hall []). cbn.
    pose proof (Forall2_length _ _ _ Hall) as Hl.
    destruct ss as [|s1 [|s2 ss]]; cbn in Hl; try lia. reflexivity.
Qed.

(** A schema whose properties are written back as they are. *)
Lemma set_Properties_same (s : Schema) : set_Properties (Properties s) s = s.
Proof. destruct s. reflexivity. Qed.

(** No binding has the tag [k]: the loop over the bindings describes
    nothing. *)
Lemma describeFields_no_tag (k : string) (fields : list FieldRules) (a : acc) :
  Forall (fun f : FieldRules => tag f <> k) fields ->
  describeFields k fields a = Return (None, a).
Proof.
  induction 1 as [|f fields Hf _ IH]; [reflexivity|].
  cbn [describeFields].
  destruct (String.eqb_spec (tag f) k) as [E|_]; [contradiction|].
  cbn. exact IH.
Qed.

(** X16.  [applyRulesToSchema] describes a binding only on the property
    named by its tag: when no binding has the name of a property as its
    tag (as the binding of an embedded struct, whose tag is empty), the
    schema is returned as it is and no rule is described. *)
Theorem applyRulesToSchema_no_property (fields : list FieldRules)
    (schema : Schema) :
  Forall (fun f : FieldRules => Properties schema !! tag f = None) fields ->
  applyRulesToSchema fields schema = Return (None, schema).
Proof.
  intros Hno. unfold applyRulesToSchema.
  assert (Hprops : forall k p, (k, p) ∈ map_to_list (Properties schema) ->
                     Properties schema !! k = Some p).
  { intros k p. apply elem_of_map_to_list. }
  induction (map_to_list (Properties schema)) as [|[k p] props IH];
    [reflexivity|].
  cbn [applyRulesToSchema_from].
  rewrite describeFields_no_tag.
  - cbn. unfold store_property. cbn [schema_of ref_Value].
    assert (Hk : Properties schema !! k = Some p)
      by (apply Hprops; left).
    rewrite alter_id by (intros x Hx; congruence).
    rewrite set_Properties_same. apply IH.
    intros k' p' Hin. apply Hprops. right. exact Hin.
  - eapply Forall_impl; [exact Hno|]. intros f Hf E. cbn beta in Hf.
    assert (Hk : Properties schema !! k = Some p) by (apply Hprops; left).
    rewrite <- E in Hk. congruence.
Qed.

(** *** [removeSkippedFields] *)

(** Induction on a value, with the fields of a struct and what a pointer
    and an interface hold. *)
Lemma any_ind_fields (P : any -> Prop)
    (HNil : P Nil)
    (HScalar : forall t m d, P (Scalar t m d))
    (HNilPtr : forall elem addr, P (Pointer elem addr None))
    (HPtr : forall elem addr e, P e -> P (Pointer elem addr (Some e)))
    (HIface : forall t c, P c -> P (IfaceCell t c))
    (HSlice : forall t m elems, P (SliceV t m elems))
    (HArray : forall t m elems, P (ArrayV t m elems))
    (HMap : forall t m entries, P (MapV t m entries))
    (HStruct : forall t m fields,
        Forall (fun f : StructField * Z * any => P f.2) fields ->
        P (StructV t m fields)) :
  forall v, P v.
Proof.
  fix IH 1. intros [|t m d|elem addr [e|]|t c|t m elems|t m elems|t m entries
                    |t m fields].
  - exact HNil.
  - apply HScalar.
  - apply HPtr, IH.
  - apply HNilPtr.
  - apply HIface, IH.
  - apply HSlice.
  - apply HArray.
  - apply HMap.
  - apply HStruct. induction fields as [|[[sf a] fi] fields IHf]; constructor.
    + apply IH.
    + exact IHf.
Qed.

(** The loop of [removeSkippedFields] over the fields of a struct. *)
Lemma removeSkippedFields_loop t m (fields : list (StructField * Z * any))
    (schema : Schema) :
  removeSkippedFields (StructV t m fields) schema
  = removeSkipped_from fields schema.
Proof.
  cbn [removeSkippedFields]. revert schema.
  induction fields as [|[[sf a] fi] fields IH]; intros schema; [reflexivity|].
  cbn [removeSkipped_from]. unfold removeSkipped_field.
  match goal with
  | |- (?r ≫= _) = (?r ≫= _) => destruct r as [schema1|]; [|reflexivity]
  end.
  cbn. apply IH.
Qed.

(** [schema'] is [schema] with some of its properties deleted. *)
#[local] Abbreviation pruned schema schema' :=
  (set_Properties (Properties schema') schema = schema'
   /\ Properties schema' ⊆ Properties schema).

(** Whatever [removeSkippedFields] returns on [v] is the schema pruned. *)
#[local] Abbreviation prunes v :=
  (forall schema schema' : Schema,
      removeSkippedFields v schema = Return schema' -> pruned schema schema').

Lemma pruned_refl (schema : Schema) : pruned schema schema.
Proof. split; [apply set_Properties_same|reflexivity]. Qed.

Lemma pruned_trans (s1 s2 s3 : Schema) :
  pruned s1 s2 -> pruned s2 s3 -> pruned s1 s3.
Proof.
  intros [E1 S1] [E2 S2]. split; [|etransitivity; eassumption].
  rewrite <- E2, <- E1. destruct s1. reflexivity.
Qed.

Lemma pruned_delete (k : string) (schema : Schema) :
  pruned schema (set_Properties (delete k (Properties schema)) schema).
Proof.
  destruct schema. cbn. split; [reflexivity|]. apply delete_subseteq.
Qed.

(** One field, when the structs reached from it prune. *)
Lemma removeSkipped_field_pruned_if (sf : StructField) (a : Z) (fi : any) :
  prunes fi ->
  match fi with
  | Pointer _ _ (Some e) => prunes e
  | IfaceCell _ c => prunes c
  | _ => True
  end ->
  forall schema schema',
    removeSkipped_field (sf, a, fi) schema = Return schema' ->
    pruned schema schema'.
Proof.
  intros Hfi Hin schema schema' E. unfold removeSkipped_field in E.
  destruct (Anonymous sf).
  - destruct (bool_decide (type_Kind (engine.Type_ sf) = Ptr)).
    + destruct fi as [|? ? ?|? ? [e|]|? c|? ? ?|? ? ?|? ? ?|? ? ?];
        try discriminate E.
      * destruct e; try (injection E as <-; apply pruned_refl).
        exact (Hin _ _ E).
      * injection E as <-. apply pruned_refl.
      * destruct c; try (injection E as <-; apply pruned_refl).
        exact (Hin _ _ E).
    + destruct fi; try (injection E as <-; apply pruned_refl).
      exact (Hfi _ _ E).
  - destruct (negb _); injection E as <-;
      [apply pruned_refl|apply pruned_delete].
Qed.

Lemma removeSkippedFields_prunes_deep (v : any) :
  prunes v
  /\ match v with
     | Pointer _ _ (Some e) => prunes e
     | IfaceCell _ c => prunes c
     | _ => True
     end.
Proof.
  induction v as [|t m d|elem addr|elem addr e [IHe _]|t c [IHc _]|t m elems
                  |t m elems|t m entries|t m fields IH]
    using any_ind_fields;
    (split; [intros schema schema' Hr; try discriminate Hr|try exact I]);
    try assumption.
  rewrite removeSkippedFields_loop in Hr. revert schema Hr.
  induction IH as [|[[sf a] fi] fields [Hfi Hin] _ IHf]; intros schema Hr.
  - injection Hr as <-. apply pruned_refl.
  - cbn [removeSkipped_from] in Hr.
    destruct (removeSkipped_field (sf, a, fi) schema) as [schema1|] eqn:E1;
      [|discriminate].
    cbn in Hr. apply (pruned_trans schema schema1 schema'); [|exact (IHf _ Hr)].
    exact (removeSkipped_field_pruned_if sf a fi Hfi Hin _ _ E1).
Qed.

Lemma removeSkipped_from_pruned (fields : list (StructField * Z * any)) :
  forall schema schema',
    removeSkipped_from fields schema = Return schema' ->
    pruned schema schema'.
Proof.
  induction fields as [|[[sf a] fi] fields IH]; intros schema schema' Hr.
  - injection Hr as <-. apply pruned_refl.
  - cbn [removeSkipped_from] in Hr.
    destruct (removeSkipped_field (sf, a, fi) schema) as [schema1|] eqn:E1;
      [|discriminate].
    cbn in Hr. apply (pruned_trans schema schema1 schema'); [|exact (IH _ _ Hr)].
    destruct (removeSkippedFields_prunes_deep fi) as [Hfi Hin].
    exact (removeSkipped_field_pruned_if sf a fi Hfi Hin _ _ E1).
Qed.

(** X17.  [removeSkippedFields] only deletes properties: the schema it
    leaves is the schema it was given with some of its properties removed,
    nothing else is written; and the property named by the json tag of a
    field of the struct itself that is not embedded and is tagged
    [docs:"skip"] is not in it.  It returns on a struct only: on any
    other value [NumField] panics. *)
Theorem removeSkippedFields_only_deletes (structVal : any)
    (schema schema' : Schema) :
  removeSkippedFields structVal schema = Return schema' ->
  (set_Properties (Properties schema') schema = schema'
   /\ Properties schema' ⊆ Properties schema)
  /\ (exists t m fields, structVal = StructV t m fields
      /\ forall sf a fi,
           (sf, a, fi) ∈ fields ->
           Anonymous sf = false ->
           before_comma (Tag_Get (Tag sf) "docs") = "skip" ->
           Properties schema' !! before_comma (Tag_Get (Tag sf) "json") = None).
Proof.
  intros Hr. split; [exact (proj1 (removeSkippedFields_prunes_deep structVal) _ _ Hr)|].
  destruct structVal as [| | | | | | |t m fields]; try discriminate Hr.
  exists t, m, fields. split; [reflexivity|].
  rewrite removeSkippedFields_loop in Hr.
  intros sf a fi Hin Hanon Hskip. revert schema Hr.
  induction fields as [|f fields IH]; intros schema Hr;
    [inversion Hin|].
  cbn [removeSkipped_from] in Hr.
  destruct (removeSkipped_field f schema) as [schema1|] eqn:E1;
    [|discriminate].
  cbn in Hr. apply elem_of_cons in Hin as [<-|Hin]; [|exact (IH Hin _ Hr)].
  unfold removeSkipped_field in E1. rewrite Hanon, Hskip in E1. cbn in E1.
  injection E1 as <-.
  destruct (removeSkipped_from_pruned _ _ _ Hr) as [_ Hsub].
  eapply lookup_weaken_None; [|exact Hsub].
  destruct schema. cbn. apply lookup_delete_eq.
Qed.

(** *** [mapFieldsToTags] *)

(** What [mapFieldsToTags] leaves in a binding [fr]: the pointer and the
    rules as they were, the binding resolved to a field, and the tag taken
    from the json tag of that field, empty for an embedded field. *)
#[local] Abbreviation tagged_from canAddr structVal :=
  (fun fr fr' : FieldRules =>
     fieldPtr fr' = fieldPtr fr
     /\ rules fr' = rules fr
     /\ Kind_of (fieldPtr fr) = Ptr
     /\ exists sf,
          findStructField canAddr structVal (fieldPtr fr) = Return (Some sf)
          /\ tag fr' = if Anonymous sf then ""
                       else before_comma (Tag_Get (Tag sf) "json")).

Lemma mapFieldsToTags_from_resolved (canAddr : bool) (structVal : any)
    (fields : list FieldRules) :
  Forall (resolves canAddr structVal) fields ->
  forall i, exists out,
    mapFieldsToTags_from i fields canAddr structVal = Return (out, None).
Proof.
  induction 1 as [|fr fields [Hk [sf Hsf]] _ IH]; intros i.
  - exists []. reflexivity.
  - destruct (IH (i + 1)) as [out Hout].
    cbn [mapFieldsToTags_from].
    rewrite bool_decide_eq_true_2 by exact Hk. cbn [negb].
    rewrite Hsf. cbn. rewrite Hout. cbn. eexists. reflexivity.
Qed.

Lemma mapFieldsToTags_from_tagged (canAddr : bool) (structVal : any)
    (fields : list FieldRules) :
  forall i out,
    mapFieldsToTags_from i fields canAddr structVal = Return (out, None) ->
    Forall2 (tagged_from canAddr structVal) fields out.
Proof.
  induction fields as [|fr fields IH]; intros i out Hm.
  - injection Hm as <-. constructor.
  - cbn [mapFieldsToTags_from] in Hm.
    destruct (bool_decide (Kind_of (fieldPtr fr) = Ptr)) eqn:Hk;
      cbn [negb] in Hm; [|discriminate Hm].
    apply bool_decide_eq_true_1 in Hk.
    destruct (findStructField canAddr structVal (fieldPtr fr))
      as [[sf|]|] eqn:Hsf; cbn in Hm; try discriminate Hm.
    + destruct (mapFieldsToTags_from (i + 1) fields canAddr structVal)
        as [[rest err]|] eqn:Hrest; cbn in Hm; [|discriminate Hm].
      injection Hm as <- ->.
      constructor; [|exact (IH _ _ Hrest)].
      destruct (Anonymous sf) eqn:Ha; cbn;
        (split; [reflexivity|]; split; [reflexivity|]; split; [exact Hk|];
         exists sf; split; [exact Hsf|]; rewrite Ha; reflexivity).
    + destruct (TypeOf structVal); discriminate Hm.
Qed.

(** X18.  [mapFieldsToTags] returns no error exactly when every binding
    is a pointer that resolves to a field of the struct.  Then each binding
    keeps its pointer and its rules, and its tag is overwritten with the
    text before the first comma of the json tag of the field it resolves
    to; for an embedded field, and for a field without a json tag, that is
    the empty string. *)
Theorem mapFieldsToTags_tags (canAddr : bool) (structVal : any)
    (fields : list FieldRules) :
  ((exists out, mapFieldsToTags fields canAddr structVal = Return (out, None))
   <-> Forall (resolves canAddr structVal) fields)
  /\ (forall out,
        mapFieldsToTags fields canAddr structVal = Return (out, None) ->
        Forall2
          (fun fr fr' : FieldRules =>
             fieldPtr fr' = fieldPtr fr
             /\ rules fr' = rules fr
             /\ exists sf,
                  findStructField canAddr structVal (fieldPtr fr)
                  = Return (Some sf)
                  /\ tag fr' = (if Anonymous sf then ""
                                else before_comma (Tag_Get (Tag sf) "json"))
                  /\ (Tag_Get (Tag sf) "json" = "" -> tag fr' = ""))
          fields out).
Proof.
  split; [split|].
  - intros [out Hm]. apply mapFieldsToTags_from_tagged in Hm.
    induction Hm as [|fr fr' fields out (_ & _ & Hk & sf & Hsf & _) _ IH];
      constructor; [|exact IH].
    split; [exact Hk|]. exists sf. exact Hsf.
  - intros Hall. exact (mapFieldsToTags_from_resolved _ _ _ Hall 0).
  - intros out Hm. apply mapFieldsToTags_from_tagged in Hm.
    eapply Forall2_impl; [exact Hm|].
    intros fr fr' (Hp & Hr & _ & sf & Hsf & Ht).
    split; [exact Hp|]. split; [exact Hr|]. exists sf.
    split; [exact Hsf|]. split; [exact Ht|].
    intros Hno. rewrite Ht, Hno. destruct (Anonymous sf); reflexivity.
Qed.

End SchemaEdges.

(** The binding of an embedded struct, whose tag is empty, against the
    schema of [account]. *)
Lemma applyRulesToSchema_no_property_witness :
  engine.applyRulesToSchema
    [engine.Field_
       (engine.Pointer fixtures.T_valBase 0 (Some (fixtures.valBase 0 "")))
       "" ["Required"]]
    fixtures.account_schema
  = Return (None, fixtures.account_schema).
Proof.
  apply (applyRulesToSchema_no_property (Ctx := fixtures.context)).
  constructor; [|constructor]. vm_compute. reflexivity.
Defined.

(** [account]: the property [secret] is deleted, [name] stays. *)
Lemma removeSkippedFields_only_deletes_witness :
  engine.removeSkippedFields (fixtures.account 0) fixtures.account_schema
  = Return (openapi3.set_Properties {[ "name" := openapi3.empty ]}
              openapi3.empty)
  /\ openapi3.Properties
       (openapi3.set_Properties {[ "name" := openapi3.empty ]} openapi3.empty)
     !! "secret" = None.
Proof.
  assert (Hr : engine.removeSkippedFields (fixtures.account 0)
                 fixtures.account_schema
               = Return (openapi3.set_Properties
                           {[ "name" := openapi3.empty ]} openapi3.empty))
    by (vm_compute; reflexivity).
  split; [exact Hr|].
  destruct (removeSkippedFields_only_deletes _ _ _ Hr)
    as (_ & t & m & fields & E & Hskip).
  injection E as <- <- <-.
  apply (Hskip fixtures.account_Secret (0 + 16) (fixtures.str "")).
  - right. left.
  - reflexivity.
  - reflexivity.
Defined.

(** The bindings of [valWithEmbed]: the embedded [valBase] gets the empty
    tag, and so does [Value], which has no json tag. *)
Lemma mapFieldsToTags_tags_witness :
  engine.mapFieldsToTags
    (fixtures.valWithEmbed_Rules 1000 "" "v") true
    (fixtures.valWithEmbed 1000 "" "v")
  = Return
      ([engine.Field_
          (engine.Pointer fixtures.T_valBase 1000
             (Some (fixtures.valBase 1000 ""))) "" [];
        engine.Field_
          (engine.Pointer fixtures.T_string (1000 + 16)
             (Some (fixtures.str "v"))) "" ["Required"]], None).
Proof.
  destruct (proj2 (proj1 (mapFieldsToTags_tags (Ctx := fixtures.context) true
                            (fixtures.valWithEmbed 1000 "" "v")
                            (fixtures.valWithEmbed_Rules 1000 "" "v"))))
    as [out Hout].
  - repeat constructor; eexists; vm_compute; reflexivity.
  - rewrite Hout. vm_compute in Hout. injection Hout as <-. reflexivity.
Defined.

(** ** What [Describe] writes, and [Each] *)

Section DescribeFrame.

Import value openapi3 describe.

Variable typeName : any -> string.
Variable Convert_float64 : any -> Z.
Variable float64_of_int : Z -> Z.

#[local] Abbreviation Describe := (Describe typeName Convert_float64 float64_of_int).

(** Induction on a rule, with the rules an [Each] holds. *)
Lemma Rule_ind_deep (P : Rule -> Prop)
    (HEach : forall rules, Forall P rules -> P (Each rules))
    (HOther : forall r, (forall rules, r <> Each rules) -> P r) :
  forall r, P r.
Proof.
  fix IH 1. intros r.
  destruct r as [d|vs|d| |t m| | |rs|d|layout tmin tmax|d|d|d|lo hi|c|d|ex|vs|sk];
    try (apply HOther; intros rules; discriminate).
  apply HEach. induction rs as [|r rs IHrs]; constructor; [apply IH|exact IHrs].
Qed.

(** [Describe] of [Each]: nothing for no rule, and the first rule then the
    others unless the first returned an error. *)
Lemma Describe_Each_cons (r : Rule) (rules : list Rule) (name : string) (a : acc) :
  Describe (Each (r :: rules)) name a
  = x ← Describe r name a;
    match x with
    | (Some err, a) => Return (Some err, a)
    | (None, a) => Describe (Each rules) name a
    end.
Proof. reflexivity. Qed.

(** The parent schema [s'] is [s] with the name added some times to
    [Required], and the property [p'] has the type, the properties and the
    alternatives of [p]. *)
#[local] Abbreviation framed name s p s' p' :=
  ((exists k : nat, s' = set_Required (Required s ++ repeat name k) s)
   /\ Type_ p' = Type_ p
   /\ Properties p' = Properties p
   /\ OneOf p' = OneOf p).

Lemma framed_refl (name : string) (s p : Schema) : framed name s p s p.
Proof.
  split; [|repeat split]. exists 0%nat. cbn. rewrite app_nil_r.
  destruct s; reflexivity.
Qed.

Lemma framed_trans (name : string) (s1 p1 s2 p2 s3 p3 : Schema) :
  framed name s1 p1 s2 p2 -> framed name s2 p2 s3 p3 ->
  framed name s1 p1 s3 p3.
Proof.
  intros ([k1 ->] & Ht1 & Hp1 & Ho1) ([k2 ->] & Ht2 & Hp2 & Ho2).
  split; [|repeat split; congruence].
  exists (k1 + k2)%nat. destruct s1; cbn.
  rewrite repeat_app, app_assoc. reflexivity.
Qed.

(** A write through [ref.Value] that keeps the type, the properties and
    the alternatives. *)
Lemma framed_on_ref (name : string) (f : Schema -> Schema) (s p : Schema) :
  (forall x, Type_ (f x) = Type_ x /\ Properties (f x) = Properties x
             /\ OneOf (f x) = OneOf x) ->
  framed name s p s (f p).
Proof.
  intros Hf. destruct (Hf p) as (Ht & Hp & Ho).
  split; [exact (proj1 (framed_refl name s p))|]. repeat split; assumption.
Qed.

Lemma addDescription_frame (desc : string) (x : Schema) :
  Type_ (addDescription desc x) = Type_ x
  /\ Properties (addDescription desc x) = Properties x
  /\ OneOf (addDescription desc x) = OneOf x.
Proof.
  unfold addDescription.
  destruct (negb (String.eqb (Description x) "")
            && negb (HasSuffix (Description x) " ")); repeat split.
Qed.

(** What a call leaves, when it returns. *)
#[local] Abbreviation frames r :=
  (forall (name : string) (s p : Schema) err a',
      Describe r name (Separate s p) = Return (err, a') ->
      exists s' p', a' = Separate s' p'
                    /\ framed name s p s' p'
                    /\ (requires r = false -> s' = s)).

Lemma Describe_frames (r : Rule) : frames r.
Proof.
  induction r as [rules IH|r Hr] using Rule_ind_deep.
  - intros name. induction IH as [|r rules Hr _ IH]; intros s p err a' Hd.
    + injection Hd as <- <-. exists s, p. split; [reflexivity|].
      split; [apply framed_refl|reflexivity].
    + rewrite Describe_Each_cons in Hd.
      destruct (Describe r name (Separate s p)) as [[[e|] a1]|] eqn:E1;
        cbn in Hd; [| |discriminate Hd].
      * injection Hd as <- <-.
        destruct (Hr _ _ _ _ _ E1) as (s1 & p1 & -> & Hf & Hs).
        exists s1, p1. split; [reflexivity|]. split; [exact Hf|].
        cbn. intros Hno. apply orb_false_elim in Hno as [Hno _]. auto.
      * destruct (Hr _ _ _ _ _ E1) as (s1 & p1 & -> & Hf1 & Hs1).
        destruct (IH _ _ _ _ Hd) as (s2 & p2 & -> & Hf2 & Hs2).
        exists s2, p2. split; [reflexivity|].
        split; [exact (framed_trans name _ _ _ _ _ _ Hf1 Hf2)|].
        cbn. intros Hno. apply orb_false_elim in Hno as [Hno1 Hno2].
        rewrite (Hs2 Hno2). auto.
  - intros name s p err a' Hd.
    destruct r as [d|vs|d| |t m| | |rs|d|layout tmin tmax|d|d|d|lo hi|c|d|ex|vs|sk];
      try (exfalso; exact (Hr _ eq_refl));
      cbn in Hd.
    all: try (injection Hd as <- <-; eexists _, _; split; [reflexivity|];
              split; [|reflexivity];
              first [ apply framed_on_ref; intros x; apply addDescription_frame
                    | apply framed_on_ref; intros x; repeat split ]).
    + (* Required *)
      injection Hd as <- <-. eexists _, _. split; [reflexivity|].
      split; [|discriminate]. split; [|repeat split].
      exists 1%nat. reflexivity.
    + (* Threshold *)
      assert (Hfmt : framed name s p s
                (ref_Value (if Is p TypeString
                            then Separate s (set_Format (typeName t) p)
                            else Separate s p))
              /\ schema_of (if Is p TypeString
                            then Separate s (set_Format (typeName t) p)
                            else Separate s p) = s).
      { destruct (Is p TypeString); cbn [ref_Value schema_of];
          (split; [|reflexivity]);
          [apply framed_on_ref; intros x; repeat split|apply framed_refl]. }
      destruct (if Is p TypeString
                then Separate s (set_Format (typeName t) p)
                else Separate s p) as [s0|s0 p0] eqn:E0.
      { destruct (Is p TypeString); discriminate E0. }
      cbn in Hfmt. destruct Hfmt as [Hfmt ->].
      destruct (getFloat typeName Convert_float64 t) as [[e|x]|];
        cbn in Hd; [| |discriminate Hd].
      * injection Hd as <- <-. exists s, p0. split; [reflexivity|].
        split; [exact Hfmt|reflexivity].
      * destruct m; injection Hd as <- <-; eexists _, _;
          (split; [reflexivity|]); (split; [|reflexivity]);
          (eapply framed_trans; [exact Hfmt|]);
          apply framed_on_ref; intros y; repeat split.
    + (* Date *)
      injection Hd as <- <-.
      destruct (IsZero tmin), (IsZero tmax); cbn [negb on_ref];
        eexists _, _; (split; [reflexivity|]); (split; [|reflexivity]).
      * apply framed_on_ref; intros y; repeat split.
      * eapply framed_trans;
          [apply framed_on_ref with (f := set_Format layout);
           intros y; repeat split|].
        apply framed_on_ref. intros y. apply addDescription_frame.
      * eapply framed_trans;
          [apply framed_on_ref with (f := set_Format layout);
           intros y; repeat split|].
        apply framed_on_ref. intros y. apply addDescription_frame.
      * eapply framed_trans;
          [apply framed_on_ref with (f := set_Format layout);
           intros y; repeat split|].
        eapply framed_trans;
          [apply framed_on_ref with (f := addDescription ("> " +:+ Time_String tmin));
           intros y; apply addDescription_frame|].
        apply framed_on_ref. intros y. apply addDescription_frame.
    + (* Length *)
      injection Hd as <- <-. eexists _, _. split; [reflexivity|].
      split; [|reflexivity].
      eapply framed_trans;
        [apply framed_on_ref with (f := set_Max (Some (float64_of_int hi)));
         intros y; repeat split|].
      apply framed_on_ref. intros y. repeat split.
Qed.

(** X19.  What [Describe] writes, when the property has a schema of its
    own (the calls of [applyRulesToSchema]).  Whatever the rule, after the
    call the parent schema is the one before with the name added to
    [Required] some number of times and nothing else changed; it is
    unchanged when the rule is not [Required] and holds no [Required] inside
    an [Each].  The type, the properties and the alternatives of the
    property are never changed. *)
Theorem Describe_writes (r : Rule) (name : string) (s p : Schema)
    (err : option error) (a' : acc) :
  Describe r name (Separate s p) = Return (err, a') ->
  exists s' p',
    a' = Separate s' p'
    /\ (exists k : nat, s' = set_Required (Required s ++ repeat name k) s)
    /\ (requires r = false -> s' = s)
    /\ Type_ p' = Type_ p
    /\ Properties p' = Properties p
    /\ OneOf p' = OneOf p.
Proof.
  intros Hd.
  destruct (Describe_frames r name s p err a' Hd)
    as (s' & p' & -> & (Hk & Ht & Hp & Ho) & Hs).
  exists s', p'. repeat split; assumption.
Qed.

(** X20.  [Each] describes its rules in order on the same property, up
    to the first error: on a list in two parts it is the first part and
    then, unless that returned an error, the second; an [Each] inside an
    [Each] is described as its rules in place of it; and an [Each] of one
    rule is described as that rule. *)
Theorem Describe_Each_composes (name : string) (a : acc) :
  (forall rs1 rs2,
      Describe (Each (rs1 ++ rs2)) name a
      = x ← Describe (Each rs1) name a;
        match x with
        | (Some err, a) => Return (Some err, a)
        | (None, a) => Describe (Each rs2) name a
        end)
  /\ (forall rs1 rs2,
        Describe (Each (Each rs1 :: rs2)) name a
        = Describe (Each (rs1 ++ rs2)) name a)
  /\ (forall r, Describe (Each [r]) name a = Describe r name a).
Proof.
  assert (Happ : forall rs1 rs2 a,
             Describe (Each (rs1 ++ rs2)) name a
             = x ← Describe (Each rs1) name a;
               match x with
               | (Some err, a) => Return (Some err, a)
               | (None, a) => Describe (Each rs2) name a
               end).
  { clear a. intros rs1 rs2. induction rs1 as [|r rs1 IH]; intros a.
    - reflexivity.
    - cbn [app]. rewrite !Describe_Each_cons.
      destruct (Describe r name a) as [[[e|] a1]|]; [reflexivity| |reflexivity].
      cbn. apply IH. }
  split; [intros rs1 rs2; apply Happ|]. split.
  - intros rs1 rs2. rewrite Happ, Describe_Each_cons. reflexivity.
  - intros r. rewrite Describe_Each_cons.
    destruct (Describe r name a) as [[[e|] a1]|]; reflexivity.
Qed.

End DescribeFrame.

(** [Each(Describe("d"), Required)] on a fresh property: the name is
    added once to [Required] of the parent schema. *)
Lemma Describe_writes_witness :
  exists s' p',
    openapi3.Separate
      (openapi3.set_Required ["name"] openapi3.empty)
      (openapi3.set_Description "d" openapi3.empty)
    = openapi3.Separate s' p'
    /\ (exists k : nat,
          s' = openapi3.set_Required
                 (openapi3.Required openapi3.empty ++ repeat "name" k)
                 openapi3.empty)
    /\ (describe.requires
          (describe.Each [describe.Describe_ "d"; describe.Required_]) = false ->
        s' = openapi3.empty)
    /\ openapi3.Type_ p' = openapi3.Type_ openapi3.empty
    /\ openapi3.Properties p' = openapi3.Properties openapi3.empty
    /\ openapi3.OneOf p' = openapi3.OneOf openapi3.empty.
Proof.
  apply (Describe_writes (fun _ => "") (fun _ => 0) (fun n => n)
           (describe.Each [describe.Describe_ "d"; describe.Required_])
           "name" openapi3.empty openapi3.empty None).
  reflexivity.
Defined.

(** ** More on the rules *)

Section RuleEdges.

Import value rules.

Variable typeName : any -> string.

#[local] Abbreviation chars := list_ascii_of_string.

(** *** [hasAlphabetic] *)

Lemma keepOnly_chars (keep : ascii -> bool) (s : string) :
  chars (keepOnly keep s) = List.filter keep (chars s).
Proof.
  induction s as [|a s IH]; [reflexivity|].
  cbn. destruct (keep a); cbn; rewrite IH; reflexivity.
Qed.

Lemma keepOnly_empty (keep : ascii -> bool) (s : string) :
  String.eqb (keepOnly keep s) "" = negb (existsb keep (chars s)).
Proof.
  induction s as [|a s IH]; [reflexivity|].
  cbn. destruct (keep a); [reflexivity|exact IH].
Qed.

Lemma length_chars (s : string) : String.length s = length (chars s).
Proof. induction s as [|a s IH]; cbn; congruence. Qed.

(** Deleting the bytes outside a class that holds no white space gives the
    same text before and after [TrimSpace]. *)
Lemma keepOnly_trimLeft (keep : ascii -> bool) (s : string) :
  (forall a, keep a = true -> isSpace a = false) ->
  keepOnly keep (trimLeft s) = keepOnly keep s.
Proof.
  intros Hk. induction s as [|a s IH]; [reflexivity|].
  cbn [trimLeft]. destruct (isSpace a) eqn:Ha; [|reflexivity].
  rewrite IH. cbn. destruct (keep a) eqn:Hka; [|reflexivity].
  rewrite (Hk a Hka) in Ha. discriminate.
Qed.

Lemma keepOnly_trimRight (keep : ascii -> bool) (s : string) :
  (forall a, keep a = true -> isSpace a = false) ->
  keepOnly keep (trimRight s) = keepOnly keep s.
Proof.
  intros Hk. induction s as [|a s IH]; [reflexivity|].
  cbn [trimRight]. destruct (trimRight s) as [|b r] eqn:Hr.
  - cbn in IH. cbn [keepOnly]. rewrite <- IH.
    destruct (isSpace a) eqn:Ha.
    + destruct (keep a) eqn:Hka; [|reflexivity].
      rewrite (Hk a Hka) in Ha. discriminate.
    + cbn. reflexivity.
  - cbn [keepOnly] in IH |- *. rewrite IH. reflexivity.
Qed.

Lemma keepOnly_TrimSpace (keep : ascii -> bool) (s : string) :
  (forall a, keep a = true -> isSpace a = false) ->
  keepOnly keep (TrimSpace s) = keepOnly keep s.
Proof.
  intros Hk. unfold TrimSpace.
  rewrite keepOnly_trimRight, keepOnly_trimLeft by exact Hk. reflexivity.
Qed.

Lemma isAlpha_not_space (a : ascii) : isAlpha a = true -> isSpace a = false.
Proof.
  destruct a as [[] [] [] [] [] [] [] []]; vm_compute; congruence.
Qed.

Lemma isDigit_not_space (a : ascii) : isDigit a = true -> isSpace a = false.
Proof.
  destruct a as [[] [] [] [] [] [] [] []]; vm_compute; congruence.
Qed.

(** [hasAlphabetic.Validate] on a string, in terms of the string itself. *)
Lemma hasAlphabetic_Validate_string (r : hasAlphabetic) (v : string) :
  hasAlphabetic_Validate typeName r (VString None v)
  = if String.eqb (TrimSpace v) "" || existsb isAlpha (chars v) then None
    else if isCreditCardNumberCheck r then
      if (length (List.filter isDigit (chars v)) =? creditCardNumberLength)%nat
      then Some "must not be a credit card number"
      else None
    else Some "must contain at least one alphabetic character".
Proof.
  cbn [hasAlphabetic_Validate].
  destruct (String.eqb (TrimSpace v) ""); [reflexivity|]. cbn [orb].
  rewrite (keepOnly_TrimSpace isAlpha v isAlpha_not_space), keepOnly_empty.
  destruct (existsb isAlpha (chars v)); [reflexivity|]. cbn [negb].
  destruct (isCreditCardNumberCheck r); [|reflexivity].
  rewrite (keepOnly_TrimSpace isDigit v isDigit_not_space).
  rewrite length_chars, keepOnly_chars.
  destruct (length (List.filter isDigit (chars v)) =? creditCardNumberLength)%nat;
    reflexivity.
Qed.

(** X21.  [HasAlphabetic] and [NonCreditCardNumber] on a string of ASCII
    bytes (on these [TrimSpace] is [strings.TrimSpace] exactly).
    [HasAlphabetic] accepts it exactly when it is blank (empty
    once trimmed) or holds a letter.  [NonCreditCardNumber] rejects it
    exactly when it is not blank, holds no letter and holds exactly 16
    digits, whatever stands between the digits; so it accepts every text
    with a letter and every number that has not 16 digits.  Each rule has
    one error message. *)
Theorem hasAlphabetic_on_strings (v : string) :
  isASCII v = true ->
  (hasAlphabetic_Validate typeName HasAlphabetic (VString None v) = None
   <-> TrimSpace v = "" \/ existsb isAlpha (chars v) = true)
  /\ (hasAlphabetic_Validate typeName NonCreditCardNumber (VString None v)
      = Some "must not be a credit card number"
      <-> TrimSpace v <> "" /\ existsb isAlpha (chars v) = false
          /\ length (List.filter isDigit (chars v)) = 16%nat)
  /\ (forall e,
        hasAlphabetic_Validate typeName HasAlphabetic (VString None v) = Some e ->
        e = "must contain at least one alphabetic character")
  /\ (forall e,
        hasAlphabetic_Validate typeName NonCreditCardNumber (VString None v)
        = Some e ->
        e = "must not be a credit card number").
Proof.
  intros _. rewrite !hasAlphabetic_Validate_string.
  cbn [isCreditCardNumberCheck HasAlphabetic NonCreditCardNumber].
  unfold creditCardNumberLength.
  destruct (String.eqb_spec (TrimSpace v) "") as [Hb|Hb];
    destruct (existsb isAlpha (chars v)); cbn [orb];
    try destruct (Nat.eqb_spec (length (List.filter isDigit (chars v))) 16)
      as [Hd|Hd];
    repeat split; try congruence; try discriminate; try tauto;
    try (intros [H|H]; congruence);
    try (intros (H1 & H2 & H3); congruence).
Qed.

(** *** [thresholdRule.Validate] on strings *)

Section Threshold.

Variable ThresholdRule_Validate : any -> bool -> any -> option error.
Variables ParseInt ParseUint ParseFloat : string -> option any.

#[local] Abbreviation thresholdRule_Validate :=
  (thresholdRule_Validate ThresholdRule_Validate ParseInt ParseUint ParseFloat).


End Threshold.

(** *** The validator of [NewStringRuleDecimalMax] *)

(** The text holds no dot. *)
#[local] Abbreviation no_dot s :=
  (existsb (fun a => Ascii.eqb a ".") (chars s) = false).

Lemma Split_no_sep (s : string) (sep : ascii) :
  existsb (fun a => Ascii.eqb a sep) (chars s) = false -> Split s sep = [s].
Proof.
  induction s as [|a s IH]; [reflexivity|].
  cbn. destruct (Ascii.eqb a sep); [discriminate|].
  intros Hs. rewrite (IH Hs). reflexivity.
Qed.

Lemma Split_not_nil (s : string) (sep : ascii) : Split s sep <> [].
Proof.
  destruct s as [|a s]; cbn; [discriminate|].
  destruct (Ascii.eqb a sep); [discriminate|].
  destruct (Split s sep); discriminate.
Qed.

Lemma Split_first (pre rest : string) (sep : ascii) :
  existsb (fun a => Ascii.eqb a sep) (chars pre) = false ->
  Split (pre +:+ String.String sep rest) sep = pre :: Split rest sep.
Proof.
  induction pre as [|a pre IH].
  - intros _. change (Split (String.String sep rest) sep = "" :: Split rest sep).
    cbn [Split]. rewrite Ascii.eqb_refl. reflexivity.
  - change (String.String a pre +:+ String.String sep rest)
      with (String.String a (pre +:+ String.String sep rest)).
    cbn [Split list_ascii_of_string existsb].
    destruct (Ascii.eqb a sep); [discriminate|].
    intros Hs. rewrite (IH Hs). reflexivity.
Qed.

(** X23.  The validator of [NewStringRuleDecimalMax(i)] looks at the text
    between the first dot and the second: a text without a dot is
    accepted; a text with dots is accepted when that part has at most
    [int(i)] bytes, whatever follows a second dot; and for [i] from 2^63 on,
    where [int(i)] is negative, exactly the texts without a dot are
    accepted. *)
Theorem decimalMax_accepts (i : Z) :
  (forall s, no_dot s -> decimalMax i s = true)
  /\ (forall pre frac,
        no_dot pre -> no_dot frac ->
        decimalMax i (pre +:+ "." +:+ frac)
        = (Z.of_nat (String.length frac) <=? int_of_uint i))
  /\ (forall pre frac rest,
        no_dot pre -> no_dot frac ->
        decimalMax i (pre +:+ "." +:+ frac +:+ "." +:+ rest)
        = (Z.of_nat (String.length frac) <=? int_of_uint i))
  /\ (2 ^ 63 <= i < 2 ^ 64 ->
      forall s, decimalMax i s = true <-> no_dot s).
Proof.
  assert (Hone : forall pre frac,
             no_dot pre -> no_dot frac ->
             decimalMax i (pre +:+ "." +:+ frac)
             = (Z.of_nat (String.length frac) <=? int_of_uint i)).
  { intros pre frac Hpre Hfrac. unfold decimalMax.
    change (pre +:+ "." +:+ frac) with (pre +:+ String.String "." frac).
    rewrite (Split_first pre frac "." Hpre), (Split_no_sep frac "." Hfrac).
    reflexivity. }
  assert (Htwo : forall pre frac rest,
             no_dot pre -> no_dot frac ->
             decimalMax i (pre +:+ "." +:+ frac +:+ "." +:+ rest)
             = (Z.of_nat (String.length frac) <=? int_of_uint i)).
  { intros pre frac rest Hpre Hfrac. unfold decimalMax.
    change (pre +:+ "." +:+ frac +:+ "." +:+ rest)
      with (pre +:+ String.String "." (frac +:+ String.String "." rest)).
    rewrite (Split_first pre _ "." Hpre), (Split_first frac rest "." Hfrac).
    reflexivity. }
  assert (Hnone : forall s, no_dot s -> decimalMax i s = true).
  { intros s Hs. unfold decimalMax. rewrite (Split_no_sep s "." Hs).
    reflexivity. }
  split; [exact Hnone|]. split; [exact Hone|]. split; [exact Htwo|].
  intros Hi s. split; [|apply Hnone].
  intros Hacc. destruct (existsb _ (chars s)) eqn:Hdot; [exfalso|reflexivity].
  assert (Hneg : int_of_uint i < 0).
  { unfold int_of_uint. destruct (Z.ltb_spec i (2 ^ 63)); lia. }
  revert Hacc Hdot. unfold decimalMax.
  induction s as [|a s IH]; [discriminate 2|].
  cbn [Split list_ascii_of_string existsb].
  destruct (Ascii.eqb a ".") eqn:Ea.
  - intros Hacc _.
    destruct (Split s ".") as [|frac rest] eqn:Es;
      [exact (Split_not_nil _ _ Es)|].
    cbn in Hacc. apply Z.leb_le in Hacc. lia.
  - cbn [orb]. intros Hacc Hdot.
    destruct (Split s ".") as [|first rest] eqn:Es;
      [exact (Split_not_nil _ _ Es)|].
    apply IH; [exact Hacc|exact Hdot].
Qed.

End RuleEdges.

(** A card number with dashes is rejected by [NonCreditCardNumber]. *)
Lemma hasAlphabetic_on_strings_witness :
  rules.hasAlphabetic_Validate (fun _ => "") rules.NonCreditCardNumber
    (value.VString None "4111-1111-1111-1111")
  = Some "must not be a credit card number".
Proof.
  apply (proj1 (proj2 (hasAlphabetic_on_strings (fun _ => "")
                         "4111-1111-1111-1111" eq_refl))).
  split; [vm_compute; discriminate|]. split; reflexivity.
Defined.

(** ** What the normalization walk leaves alone *)

Section NormalizeFrame.

Import normalize.
Context {Ctx : Type} (method_set : type -> option (@hook Ctx)) (ctx : Ctx).

#[local] Abbreviation W' :=
  (fun canAddr p t rv => walkNormalize method_set ctx canAddr p t rv).

(** Every [Normalize] method leaves what its receiver points to as it
    is. *)
Hypothesis methods_keep : forall t h x, method_set t = Some h -> run h ctx x = x.

Lemma callNormalize_same (t : type) (v : value) (p : path) :
  (callNormalize method_set ctx t v p).1 = v.
Proof.
  unfold callNormalize. destruct (method_set t) as [h|] eqn:E; [|reflexivity].
  destruct v as [| |[x|]| |]; try reflexivity.
  cbn. rewrite (methods_keep _ _ _ E). reflexivity.
Qed.

Lemma callNormalize_Addr_same (t : type) (x : value) (p : path) :
  (callNormalize_Addr method_set ctx t x p).1 = x.
Proof.
  unfold callNormalize_Addr.
  pose proof (callNormalize_same (TPtr t) (VPtr (Some x)) p) as Hc.
  destruct (callNormalize method_set ctx (TPtr t) (VPtr (Some x)) p)
    as [[| |[x'|]| |] calls]; try reflexivity.
  cbn in Hc |- *. congruence.
Qed.

Section CasesFrame.

Variable walk : bool -> path -> type -> value -> value * list path.

Lemma walk_ptr_same (p : path) (e : type) (field : value) :
  (forall c rv, (walk c p e rv).1 = rv) ->
  (walk_ptr method_set walk ctx p e field).1 = field.
Proof.
  intros Hw. unfold walk_ptr.
  destruct field as [| |[x|]| |]; try reflexivity.
  pose proof (callNormalize_same (TPtr e) (VPtr (Some x)) p) as Hc.
  destruct (callNormalize method_set ctx (TPtr e) (VPtr (Some x)) p)
    as [field calls1].
  cbn in Hc. subst field.
  destruct e; try reflexivity.
  specialize (Hw true x).
  destruct (walk true p _ x) as [x' calls2]. cbn in Hw |- *.
  rewrite Hw. reflexivity.
Qed.

Lemma walk_struct_same (canAddr : bool) (p : path) (ft : type) (field : value) :
  (forall c rv, (walk c p ft rv).1 = rv) ->
  (walk_struct method_set walk ctx canAddr p ft field).1 = field.
Proof.
  intros Hw. unfold walk_struct.
  assert (Hc : (if canAddr then callNormalize_Addr method_set ctx ft field p
                else (field, [])).1 = field).
  { destruct canAddr; [apply callNormalize_Addr_same|reflexivity]. }
  destruct (if canAddr then callNormalize_Addr method_set ctx ft field p
            else (field, [])) as [field' calls1].
  cbn in Hc. subst field'. specialize (Hw canAddr field).
  destruct (walk canAddr p ft field) as [field' calls2]. exact Hw.
Qed.

Lemma walk_entry_same (q : path) (e : type) (val : value) :
  (forall c rv, (walk c q e rv).1 = rv) ->
  (walk_entry method_set walk ctx q e val).1 = val.
Proof.
  intros Hw. unfold walk_entry. destruct e; try reflexivity.
  pose proof (callNormalize_Addr_same (TStruct name fields) val q) as Hc.
  destruct (callNormalize_Addr method_set ctx (TStruct name fields) val q)
    as [cp calls1].
  cbn in Hc. subst cp. specialize (Hw true val).
  destruct (walk true q _ val) as [cp' calls2]. exact Hw.
Qed.

Lemma walk_elems_same (p' : path) (e : type) (elems : list value) :
  (forall q v, (walk_elem method_set walk ctx q e v).1 = v) ->
  forall j, (walk_elems method_set walk ctx p' e j elems).1 = elems.
Proof.
  intros He. induction elems as [|elem elems IH]; intros j; [reflexivity|].
  cbn [walk_elems].
  specialize (He (p' ++ [Idx j]) elem). specialize (IH (S j)).
  destruct (walk_elem method_set walk ctx (p' ++ [Idx j]) e elem)
    as [elem' calls1].
  destruct (walk_elems method_set walk ctx p' e (S j) elems)
    as [elems' calls2].
  cbn in He, IH |- *. congruence.
Qed.

Lemma walk_entries_same (p' : path) (e : type)
    (entries : list (value.any * value)) :
  (forall q v, (walk_entry method_set walk ctx q e v).1 = v) ->
  forall n, (walk_entries method_set walk ctx p' e n entries).1 = entries.
Proof.
  intros He. induction entries as [|[key val] entries IH]; intros n;
    [reflexivity|].
  cbn [walk_entries].
  specialize (He (p' ++ [Entry n]) val). specialize (IH (S n)).
  destruct (walk_entry method_set walk ctx (p' ++ [Entry n]) e val)
    as [val' calls1].
  destruct (walk_entries method_set walk ctx p' e (S n) entries)
    as [entries' calls2].
  cbn in He, IH |- *. congruence.
Qed.

Lemma walk_fields_same (canAddr : bool) (p : path) (ftypes : list type) :
  Forall (fun ft => forall p' f,
            (walk_field method_set walk ctx canAddr p' ft f).1 = f) ftypes ->
  forall i fields,
    (walk_fields method_set walk ctx canAddr p i ftypes fields).1 = fields.
Proof.
  induction 1 as [|ft ftypes Hft _ IH]; intros i fields.
  - destruct fields; reflexivity.
  - destruct fields as [|field fields]; [reflexivity|].
    cbn [walk_fields].
    specialize (Hft (p ++ [Fld i]) field). specialize (IH (S i) fields).
    destruct (walk_field method_set walk ctx canAddr (p ++ [Fld i]) ft field)
      as [field' calls1].
    destruct (walk_fields method_set walk ctx canAddr p (S i) ftypes fields)
      as [fields' calls2].
    cbn in Hft, IH |- *. congruence.
Qed.

End CasesFrame.

(** The walk gives back the struct it was given, and so does each case. *)
Lemma walk_same (t : type) :
  (forall c p rv, (walkNormalize method_set ctx c p t rv).1 = rv)
  /\ (forall c p' f, (walk_field method_set W' ctx c p' t f).1 = f)
  /\ (forall q v, (walk_elem method_set W' ctx q t v).1 = v)
  /\ (forall q v, (walk_entry method_set W' ctx q t v).1 = v).
Proof.
  induction t as [k|name ftypes IH|e IH|e IH|k e _ IH] using type_ind_fields.
  - split; [|split; [|split]]; intros; reflexivity.
  - assert (HA : forall c p rv,
               (walkNormalize method_set ctx c p (TStruct name ftypes) rv).1
               = rv).
    { intros c p rv. cbn [walkNormalize].
      destruct rv as [|fields| | |]; try reflexivity.
      pose proof (walk_fields_same W' c p ftypes) as Hf.
      specialize (Hf (Forall_impl _ _ _ IH
                        (fun ft H => proj1 (proj2 H) c)) 0%nat fields).
      destruct (walk_fields method_set W' ctx c p 0 ftypes fields)
        as [fields' calls].
      cbn in Hf |- *. congruence. }
    split; [exact HA|]. split; [|split].
    + intros c p' f. apply (walk_struct_same W'). intros c' rv. apply HA.
    + intros q v. apply (walk_struct_same W'). intros c' rv. apply HA.
    + intros q v. apply (walk_entry_same W'). intros c' rv. apply HA.
  - destruct IH as (HA & _).
    split; [|split; [|split]]; intros; try reflexivity;
      try (destruct rv; reflexivity);
      apply (walk_ptr_same W'); intros c' rv'; apply HA.
  - destruct IH as (_ & _ & HE & _).
    split; [|split; [|split]]; intros; try reflexivity;
      try (destruct rv; reflexivity).
    cbn [walk_field]. destruct f as [| | |elems|]; try reflexivity.
    pose proof (walk_elems_same W' p' e elems HE 0%nat) as Hs.
    destruct (walk_elems method_set W' ctx p' e 0 elems) as [elems' calls].
    cbn in Hs |- *. congruence.
  - destruct IH as (_ & _ & _ & HE).
    split; [|split; [|split]]; intros; try reflexivity;
      try (destruct rv; reflexivity).
    cbn [walk_field]. destruct f as [| | | |entries]; try reflexivity.
    pose proof (walk_entries_same W' p' e entries HE 0%nat) as Hs.
    destruct (walk_entries method_set W' ctx p' e 0 entries)
      as [entries' calls].
    cbn in Hs |- *. congruence.
Qed.

(** X24.  The normalization walk changes a value only through the
    [Normalize] methods it calls: when every [Normalize] method leaves
    what its receiver points to as it is, [normalizeRecursive] gives back
    the value it was given, whatever its type (the elements of slices and
    the entries of maps in their order, under their keys), and so does
    [walkNormalize] on a struct. *)
Theorem normalizeRecursive_only_through_methods :
  (forall a, (normalizeRecursive method_set ctx a).1 = a)
  /\ (forall canAddr p t rv,
        (walkNormalize method_set ctx canAddr p t rv).1 = rv).
Proof.
  split; [|intros canAddr p t rv; apply (proj1 (walk_same t))].
  intros [[t v]|]; [|reflexivity].
  unfold normalizeRecursive.
  pose proof (callNormalize_same t v []) as Hc.
  destruct (callNormalize method_set ctx t v []) as [v' calls1].
  cbn in Hc. subst v'.
  destruct t as [k|name ftypes|e|e|k e]; try reflexivity.
  - pose proof (proj1 (walk_same (TStruct name ftypes)) false [] v) as Hw.
    destruct (walkNormalize method_set ctx false [] (TStruct name ftypes) v)
      as [rv calls2].
    cbn in Hw |- *. congruence.
  - destruct v as [| |[rv|]| |]; try reflexivity.
    destruct e as [k|name ftypes|e|e|k e]; try reflexivity.
    pose proof (proj1 (walk_same (TStruct name ftypes)) true [] rv) as Hw.
    destruct (walkNormalize method_set ctx true [] (TStruct name ftypes) rv)
      as [rv' calls2].
    cbn in Hw |- *. congruence.
Qed.

End NormalizeFrame.

(** [post] behind a pointer, every type with a [Normalize] method that
    changes nothing. *)
Lemma normalizeRecursive_only_through_methods_witness :
  (normalize.normalizeRecursive
     (fun _ => Some (normalize.Normalizer (fun v => v))) fixtures.background
     (Some (normalize.TPtr fixtures.T_post,
            normalize.VPtr (Some (fixtures.post " t" "m " "f" "s"))))).1
  = Some (normalize.TPtr fixtures.T_post,
          normalize.VPtr (Some (fixtures.post " t" "m " "f" "s"))).
Proof.
  refine (proj1 (normalizeRecursive_only_through_methods
                   (fun _ => Some (normalize.Normalizer (fun v => v)))
                   fixtures.background _) _).
  intros t h x H. injection H as <-. reflexivity.
Defined.
